(** * Gwenview: thumbnail view, tag model and image meta-info model

  A shallow embedding of three pieces of Gwenview's library code:

  - [lib/thumbnailview/thumbnailview.cpp]: the thumbnail cache and the
    load / rough-scale / smooth-scale pipeline of [ThumbnailView];
  - [lib/semanticinfo/tagmodel.cpp]: the sorted [TagModel];
  - [lib/imagemetainfomodel.cpp]: the two-level [ImageMetaInfoModel].

  C++ [int]s are modelled by [Z] (all sizes involved are far from the
  overflow range), [QHash] by [gmap], [QSet] by [gset], [QQueue] and
  [QList] by [list].  Everything that belongs to the toolkit or to parts
  of the library that are not modelled here (pixmaps and their scaling,
  mime-type classification, thumbnail groups, the load job, the wall
  clock) is an operation of the class [Platform]; the statements below
  hold for every instance of it. *)

From Stdlib Require Import ZArith List Sorted Permutation Lia.
From Stdlib Require Import DecimalString.
From stdpp Require Import gmap strings list.

Local Open Scope Z_scope.

#[local] Set Warnings "-clear-no-such-hyp".

(** ** Toolkit value types *)

Module QSize.
Record t := make { width : Z; height : Z }.

(** [QSize()] : the default-constructed, invalid size. *)
Definition invalid : t := make (-1) (-1).

Definition isValid (s : t) : bool := (0 <=? width s) && (0 <=? height s).
End QSize.

Module QRect.
(** A rectangle is stored by its corners, both inclusive. *)
Record t := make { x1 : Z; y1 : Z; x2 : Z; y2 : Z }.

Definition width (r : t) : Z := x2 r - x1 r + 1.

Definition adjust (dx1 dy1 dx2 dy2 : Z) (r : t) : t :=
  make (x1 r + dx1) (y1 r + dy1) (x2 r + dx2) (y2 r + dy2).
End QRect.

Module QTimer.
Record t := make { isActive : bool; interval : Z }.

Definition start (msec : Z) (_ : t) : t := make true msec.
Definition stop (tm : t) : t := make false (interval tm).
End QTimer.

Module QTimeLine.
Inductive State := NotRunning | Paused | Running.

Definition State_eqb (a b : State) : bool :=
  match a, b with
  | NotRunning, NotRunning | Paused, Paused | Running, Running => true
  | _, _ => false
  end.
End QTimeLine.

Inductive AspectRatioMode :=
IgnoreAspectRatio | KeepAspectRatio | KeepAspectRatioByExpanding.

Inductive TransformationMode := FastTransformation | SmoothTransformation.

(** ** File items *)

Abbreviation KUrl := string (only parsing).

(** [KDateTime]: [None] is the invalid date of [KDateTime()]. *)
Abbreviation KDateTime := (option Z) (only parsing).

(** A model index of the flat directory model shown by the view: invalid,
  or the row it designates (column 0, no parent). *)
Abbreviation QModelIndex := (option nat) (only parsing).

Module KFileItem.
Record data := make { d_url : string; d_mtime : Z; d_mimetype : string }.

(** [None] is the null item [KFileItem()]. *)
Definition t := option data.

(** [KFileItem()] *)
Definition null : t := None.

Definition isNull (item : t) : bool :=
  match item with None => true | Some _ => false end.

Definition url (item : t) : KUrl :=
  match item with None => EmptyString | Some d => d_url d end.

Definition time (item : t) : KDateTime :=
  match item with None => None | Some d => Some (d_mtime d) end.
End KFileItem.

Abbreviation KFileItemList := (list KFileItem.t) (only parsing).

(** [MimeTypeUtils::Kind]; the last constructor stands for the kinds the
  thumbnail view never tests for. *)
Inductive Kind := KIND_DIR | KIND_ARCHIVE | KIND_VIDEO | KIND_OTHER.

Definition Kind_eqb (a b : Kind) : bool :=
match a, b with
| KIND_DIR, KIND_DIR | KIND_ARCHIVE, KIND_ARCHIVE
| KIND_VIDEO, KIND_VIDEO | KIND_OTHER, KIND_OTHER => true
| _, _ => false
end.

(** ** What the thumbnail view takes from its environment *)

Class Platform := {
(** pixmaps *)
QPixmap : Type;
QPixmap_null : QPixmap;                       (* [QPixmap()] *)
isNull : QPixmap -> bool;
pix_width : QPixmap -> Z;
pix_height : QPixmap -> Z;
scaled : QPixmap -> Z -> Z -> AspectRatioMode -> TransformationMode -> QPixmap;
QPixmap_null_isNull : isNull QPixmap_null = true;
DesktopIcon : string -> Z -> QPixmap;
KFileItem_pixmap : KFileItem.t -> Z -> QPixmap;
(** [MimeTypeUtils::fileItemKind] *)
fileItemKind : KFileItem.t -> Kind;
(** namespace [ThumbnailGroup] *)
ThumbnailGroup : Type;
Large : ThumbnailGroup;
pixelSize : ThumbnailGroup -> Z;
fromPixelSize : Z -> ThumbnailGroup;
(** [QRect::intersects] *)
intersects : QRect.t -> QRect.t -> bool;
(** class [ThumbnailLoadJob] *)
ThumbnailLoadJob : Type;
ThumbnailLoadJob_new : KFileItemList -> ThumbnailGroup -> ThumbnailLoadJob;
setThumbnailGroup : ThumbnailGroup -> ThumbnailLoadJob -> ThumbnailLoadJob;
appendItem : KFileItem.t -> ThumbnailLoadJob -> ThumbnailLoadJob;
(** [KDateTime::currentLocalDateTime()], as the n-th reading of the clock *)
currentLocalDateTime : nat -> KDateTime;
}.

Definition pix_size `{Platform} (p : QPixmap) : QSize.t :=
QSize.make (pix_width p) (pix_height p).

(** ** A reference platform

  Symbolic pixmaps (a size and the way the pixmap was obtained), the two
  freedesktop thumbnail groups, a load job that records what it was
  asked for and a clock that ticks once per reading.  It is used to run
  the model on concrete views. *)

Module Sample.
Inductive Pix :=
| Null
| Image (name : string) (w h : Z)
| Scaled (mode : TransformationMode) (w h : Z) (source : Pix).

Definition pixIsNull (p : Pix) : bool :=
  match p with Null => true | _ => false end.

Definition pixWidth (p : Pix) : Z :=
  match p with Null => 0 | Image _ w _ => w | Scaled _ w _ _ => w end.

Definition pixHeight (p : Pix) : Z :=
  match p with Null => 0 | Image _ _ h => h | Scaled _ _ h _ => h end.

(** The size [(pw, ph)] scaled to the bounding size [(w, h)]. *)
Definition scaleSize (pw ph w h : Z) (aspect : AspectRatioMode) : Z * Z :=
  match aspect with
  | IgnoreAspectRatio => (w, h)
  | _ =>
      if (pw =? 0) || (ph =? 0) then (w, h)
      else
        let rw := Z.quot (h * pw) ph in
        let useHeight :=
          match aspect with
          | KeepAspectRatio => rw <=? w
          | _ => w <=? rw
          end in
        if useHeight then (rw, h) else (w, Z.quot (w * ph) pw)
  end.

Definition pixScaled (p : Pix) (w h : Z) (aspect : AspectRatioMode)
    (mode : TransformationMode) : Pix :=
  if pixIsNull p then Null
  else if (w <=? 0) || (h <=? 0) then Null
  else
    let '(nw, nh) := scaleSize (pixWidth p) (pixHeight p) w h aspect in
    if (nw =? pixWidth p) && (nh =? pixHeight p) then p
    else Scaled mode nw nh p.

Inductive Group := NormalGroup | LargeGroup.

Definition groupPixelSize (g : Group) : Z :=
  match g with NormalGroup => 128 | LargeGroup => 256 end.

Definition groupFromPixelSize (value : Z) : Group :=
  if value <=? 128 then NormalGroup else LargeGroup.

Definition kindOf (item : KFileItem.t) : Kind :=
  match item with
  | None => KIND_OTHER
  | Some d =>
      let m := KFileItem.d_mimetype d in
      if String.eqb m "inode/directory" then KIND_DIR
      else if String.eqb m "application/zip" then KIND_ARCHIVE
      else if String.prefix "video/" m then KIND_VIDEO
      else KIND_OTHER
  end.

Definition rectIntersects (a b : QRect.t) : bool :=
  (QRect.x1 a <=? QRect.x2 b) && (QRect.x1 b <=? QRect.x2 a) &&
  (QRect.y1 a <=? QRect.y2 b) && (QRect.y1 b <=? QRect.y2 a).

Record Job := { jobItems : list KFileItem.t; jobGroup : Group }.

Definition platform : Platform := {|
  QPixmap := Pix;
  QPixmap_null := Null;
  isNull := pixIsNull;
  pix_width := pixWidth;
  pix_height := pixHeight;
  scaled := pixScaled;
  QPixmap_null_isNull := eq_refl;
  DesktopIcon := fun name size => Image name size size;
  KFileItem_pixmap := fun item size =>
    Image (match item with Some d => KFileItem.d_mimetype d | None => "unknown" end)
      size size;
  fileItemKind := kindOf;
  ThumbnailGroup := Group;
  Large := LargeGroup;
  pixelSize := groupPixelSize;
  fromPixelSize := groupFromPixelSize;
  intersects := rectIntersects;
  ThumbnailLoadJob := Job;
  ThumbnailLoadJob_new := fun items group => Build_Job items group;
  setThumbnailGroup := fun group job => Build_Job (jobItems job) group;
  appendItem := fun item job => Build_Job (jobItems job ++ [item]) (jobGroup job);
  currentLocalDateTime := fun n => Some (1000 + Z.of_nat n);
|}.
End Sample.

(** ** What the remaining slots of the view take from their environment *)

Class ViewPlatform `{Platform} := {
  (** [ThumbnailLoadJob::pendingItems] and [ThumbnailLoadJob::removeItems] *)
  pendingItems : ThumbnailLoadJob -> KFileItemList;
  removeItems : KFileItemList -> ThumbnailLoadJob -> ThumbnailLoadJob;
  (** the enumerators [MinThumbnailSize] and [MaxThumbnailSize] of
      [ThumbnailView] *)
  MinThumbnailSize : Z;
  MaxThumbnailSize : Z;
  (** [KIconLoader::SizeHuge] *)
  SizeHuge : Z;
  (** the icon painted with opacity 0.5 on a transparent pixmap of the
      icon's size *)
  dimmed : QPixmap -> QPixmap;
  (** the text drawn on a transparent pixmap of the size of its bounding
      rectangle in the view's font *)
  textPixmap : string -> QPixmap;
  (** [KUrl::isValid] *)
  KUrl_isValid : string -> bool;
}.

Module SampleView.
Definition platform : @ViewPlatform Sample.platform := {|
  pendingItems := fun job : @ThumbnailLoadJob Sample.platform => Sample.jobItems job;
  removeItems := fun items (job : @ThumbnailLoadJob Sample.platform) =>
    Sample.Build_Job
      (filter (fun item => negb (bool_decide (KFileItem.url item ∈ map KFileItem.url items)))
         (Sample.jobItems job))
      (Sample.jobGroup job);
  MinThumbnailSize := 48;
  MaxThumbnailSize := 256;
  SizeHuge := 64;
  dimmed := fun icon : @QPixmap Sample.platform =>
    match icon with
    | Sample.Null => Sample.Null
    | _ => Sample.Image "dimmed" (Sample.pixWidth icon) (Sample.pixHeight icon)
    end;
  textPixmap := fun text => Sample.Image text (7 * Z.of_nat (String.length text)) 14;
  KUrl_isValid := fun url => negb (String.eqb url EmptyString);
|}.
End SampleView.

(** ** The thumbnail view *)

Module ThumbnailView.
Section WithPlatform.
Context `{Platform}.

(** How many msec to wait before starting to smooth thumbnails *)
Definition SMOOTH_DELAY : Z := 500.

(** [AbstractDocumentInfoProvider]: the interface through which documents
    held in memory report on themselves.  [thumbnailForDocument] returns
    what the C++ method stores through its two out-parameters. *)
Record AbstractDocumentInfoProvider := {
  isBusy : KUrl -> bool;
  isModified : KUrl -> bool;
  thumbnailForDocument : KUrl -> ThumbnailGroup -> QPixmap * QSize.t;
}.

(** [struct Thumbnail] *)
Record Thumbnail := {
  mIndex : QModelIndex;
  mModificationTime : KDateTime;
  mGroupPix : QPixmap;          (* the pix loaded from .thumbnails/{large,normal} *)
  mAdjustedPix : QPixmap;       (* scaled version of mGroupPix *)
  mFullSize : QSize.t;          (* size of the full image *)
  mRealFullSize : QSize.t;
  mRough : bool;
  mWaitingForThumbnail : bool;
}.

(** [Thumbnail(index, mtime)] *)
Definition Thumbnail_new (index_ : QModelIndex) (mtime : KDateTime) : Thumbnail :=
  {| mIndex := index_;
     mModificationTime := mtime;
     mGroupPix := QPixmap_null;
     mAdjustedPix := QPixmap_null;
     mFullSize := QSize.invalid;
     mRealFullSize := QSize.invalid;
     mRough := true;
     mWaitingForThumbnail := true |}.

Definition set_mGroupPix (p : QPixmap) (t : Thumbnail) : Thumbnail :=
  {| mIndex := mIndex t; mModificationTime := mModificationTime t;
     mGroupPix := p; mAdjustedPix := mAdjustedPix t;
     mFullSize := mFullSize t; mRealFullSize := mRealFullSize t;
     mRough := mRough t; mWaitingForThumbnail := mWaitingForThumbnail t |}.

Definition set_mAdjustedPix (p : QPixmap) (t : Thumbnail) : Thumbnail :=
  {| mIndex := mIndex t; mModificationTime := mModificationTime t;
     mGroupPix := mGroupPix t; mAdjustedPix := p;
     mFullSize := mFullSize t; mRealFullSize := mRealFullSize t;
     mRough := mRough t; mWaitingForThumbnail := mWaitingForThumbnail t |}.

Definition set_mFullSize (s : QSize.t) (t : Thumbnail) : Thumbnail :=
  {| mIndex := mIndex t; mModificationTime := mModificationTime t;
     mGroupPix := mGroupPix t; mAdjustedPix := mAdjustedPix t;
     mFullSize := s; mRealFullSize := mRealFullSize t;
     mRough := mRough t; mWaitingForThumbnail := mWaitingForThumbnail t |}.

Definition set_mRealFullSize (s : QSize.t) (t : Thumbnail) : Thumbnail :=
  {| mIndex := mIndex t; mModificationTime := mModificationTime t;
     mGroupPix := mGroupPix t; mAdjustedPix := mAdjustedPix t;
     mFullSize := mFullSize t; mRealFullSize := s;
     mRough := mRough t; mWaitingForThumbnail := mWaitingForThumbnail t |}.

Definition set_mRough (b : bool) (t : Thumbnail) : Thumbnail :=
  {| mIndex := mIndex t; mModificationTime := mModificationTime t;
     mGroupPix := mGroupPix t; mAdjustedPix := mAdjustedPix t;
     mFullSize := mFullSize t; mRealFullSize := mRealFullSize t;
     mRough := b; mWaitingForThumbnail := mWaitingForThumbnail t |}.

Definition set_mWaitingForThumbnail (b : bool) (t : Thumbnail) : Thumbnail :=
  {| mIndex := mIndex t; mModificationTime := mModificationTime t;
     mGroupPix := mGroupPix t; mAdjustedPix := mAdjustedPix t;
     mFullSize := mFullSize t; mRealFullSize := mRealFullSize t;
     mRough := mRough t; mWaitingForThumbnail := b |}.

(** [Thumbnail::initAsIcon] *)
Definition initAsIcon (pix : QPixmap) (t : Thumbnail) : Thumbnail :=
  let largeGroupSize := pixelSize Large in
  set_mFullSize (QSize.make largeGroupSize largeGroupSize) (set_mGroupPix pix t).

(** [Thumbnail::isGroupPixAdaptedForSize] *)
Definition isGroupPixAdaptedForSize (t : Thumbnail) (size : Z) : bool :=
  if mWaitingForThumbnail t then false
  else if isNull (mGroupPix t) then false
  else
    let groupSize := Z.max (pix_width (mGroupPix t)) (pix_height (mGroupPix t)) in
    if size <=? groupSize then true
    else
      (* groupSize is less than size, but this may be because the full
         image is the same size as groupSize *)
      groupSize =? Z.max (QSize.width (mFullSize t)) (QSize.height (mFullSize t)).

(** The view: the members of [ThumbnailViewPrivate] that the modelled
    methods read or write, followed by what they consult of the widget
    itself (visibility, the model's rows, geometry), the repaint requests
    issued through [update(index)], and the number of clock readings made
    so far. *)
Record t := {
  mThumbnailSize : Z;
  mDocumentInfoProvider : option AbstractDocumentInfoProvider;
  mThumbnailForUrl : gmap string Thumbnail;
  mSmoothThumbnailQueue : list string;
  mSmoothThumbnailTimer : QTimer.t;
  mWaitingThumbnail : QPixmap;
  mThumbnailLoadJob : option ThumbnailLoadJob;
  mBusyIndexSet : gset (option nat);
  mBusyAnimationTimeLine : QTimeLine.State;
  isVisible : bool;
  model : option (list KFileItem.t);
  viewportRect : QRect.t;
  isWrapping : bool;
  visualRect : QModelIndex -> QRect.t;
  updateRequests : list (option nat);
  clockReadings : nat;
}.

Definition set_mThumbnailForUrl (m : gmap string Thumbnail) (v : t) : t :=
  {| mThumbnailSize := mThumbnailSize v;
     mDocumentInfoProvider := mDocumentInfoProvider v;
     mThumbnailForUrl := m;
     mSmoothThumbnailQueue := mSmoothThumbnailQueue v;
     mSmoothThumbnailTimer := mSmoothThumbnailTimer v;
     mWaitingThumbnail := mWaitingThumbnail v;
     mThumbnailLoadJob := mThumbnailLoadJob v;
     mBusyIndexSet := mBusyIndexSet v;
     mBusyAnimationTimeLine := mBusyAnimationTimeLine v;
     isVisible := isVisible v; model := model v;
     viewportRect := viewportRect v; isWrapping := isWrapping v;
     visualRect := visualRect v;
     updateRequests := updateRequests v;
     clockReadings := clockReadings v |}.

Definition set_mSmoothThumbnailQueue (q : list string) (v : t) : t :=
  {| mThumbnailSize := mThumbnailSize v;
     mDocumentInfoProvider := mDocumentInfoProvider v;
     mThumbnailForUrl := mThumbnailForUrl v;
     mSmoothThumbnailQueue := q;
     mSmoothThumbnailTimer := mSmoothThumbnailTimer v;
     mWaitingThumbnail := mWaitingThumbnail v;
     mThumbnailLoadJob := mThumbnailLoadJob v;
     mBusyIndexSet := mBusyIndexSet v;
     mBusyAnimationTimeLine := mBusyAnimationTimeLine v;
     isVisible := isVisible v; model := model v;
     viewportRect := viewportRect v; isWrapping := isWrapping v;
     visualRect := visualRect v;
     updateRequests := updateRequests v;
     clockReadings := clockReadings v |}.

Definition set_mSmoothThumbnailTimer (tm : QTimer.t) (v : t) : t :=
  {| mThumbnailSize := mThumbnailSize v;
     mDocumentInfoProvider := mDocumentInfoProvider v;
     mThumbnailForUrl := mThumbnailForUrl v;
     mSmoothThumbnailQueue := mSmoothThumbnailQueue v;
     mSmoothThumbnailTimer := tm;
     mWaitingThumbnail := mWaitingThumbnail v;
     mThumbnailLoadJob := mThumbnailLoadJob v;
     mBusyIndexSet := mBusyIndexSet v;
     mBusyAnimationTimeLine := mBusyAnimationTimeLine v;
     isVisible := isVisible v; model := model v;
     viewportRect := viewportRect v; isWrapping := isWrapping v;
     visualRect := visualRect v;
     updateRequests := updateRequests v;
     clockReadings := clockReadings v |}.

Definition set_mThumbnailLoadJob (j : option ThumbnailLoadJob) (v : t) : t :=
  {| mThumbnailSize := mThumbnailSize v;
     mDocumentInfoProvider := mDocumentInfoProvider v;
     mThumbnailForUrl := mThumbnailForUrl v;
     mSmoothThumbnailQueue := mSmoothThumbnailQueue v;
     mSmoothThumbnailTimer := mSmoothThumbnailTimer v;
     mWaitingThumbnail := mWaitingThumbnail v;
     mThumbnailLoadJob := j;
     mBusyIndexSet := mBusyIndexSet v;
     mBusyAnimationTimeLine := mBusyAnimationTimeLine v;
     isVisible := isVisible v; model := model v;
     viewportRect := viewportRect v; isWrapping := isWrapping v;
     visualRect := visualRect v;
     updateRequests := updateRequests v;
     clockReadings := clockReadings v |}.

Definition set_mBusyIndexSet (s : gset (option nat)) (v : t) : t :=
  {| mThumbnailSize := mThumbnailSize v;
     mDocumentInfoProvider := mDocumentInfoProvider v;
     mThumbnailForUrl := mThumbnailForUrl v;
     mSmoothThumbnailQueue := mSmoothThumbnailQueue v;
     mSmoothThumbnailTimer := mSmoothThumbnailTimer v;
     mWaitingThumbnail := mWaitingThumbnail v;
     mThumbnailLoadJob := mThumbnailLoadJob v;
     mBusyIndexSet := s;
     mBusyAnimationTimeLine := mBusyAnimationTimeLine v;
     isVisible := isVisible v; model := model v;
     viewportRect := viewportRect v; isWrapping := isWrapping v;
     visualRect := visualRect v;
     updateRequests := updateRequests v;
     clockReadings := clockReadings v |}.

Definition set_mBusyAnimationTimeLine (s : QTimeLine.State) (v : t) : t :=
  {| mThumbnailSize := mThumbnailSize v;
     mDocumentInfoProvider := mDocumentInfoProvider v;
     mThumbnailForUrl := mThumbnailForUrl v;
     mSmoothThumbnailQueue := mSmoothThumbnailQueue v;
     mSmoothThumbnailTimer := mSmoothThumbnailTimer v;
     mWaitingThumbnail := mWaitingThumbnail v;
     mThumbnailLoadJob := mThumbnailLoadJob v;
     mBusyIndexSet := mBusyIndexSet v;
     mBusyAnimationTimeLine := s;
     isVisible := isVisible v; model := model v;
     viewportRect := viewportRect v; isWrapping := isWrapping v;
     visualRect := visualRect v;
     updateRequests := updateRequests v;
     clockReadings := clockReadings v |}.

Definition set_updateRequests (l : list (option nat)) (v : t) : t :=
  {| mThumbnailSize := mThumbnailSize v;
     mDocumentInfoProvider := mDocumentInfoProvider v;
     mThumbnailForUrl := mThumbnailForUrl v;
     mSmoothThumbnailQueue := mSmoothThumbnailQueue v;
     mSmoothThumbnailTimer := mSmoothThumbnailTimer v;
     mWaitingThumbnail := mWaitingThumbnail v;
     mThumbnailLoadJob := mThumbnailLoadJob v;
     mBusyIndexSet := mBusyIndexSet v;
     mBusyAnimationTimeLine := mBusyAnimationTimeLine v;
     isVisible := isVisible v; model := model v;
     viewportRect := viewportRect v; isWrapping := isWrapping v;
     visualRect := visualRect v;
     updateRequests := l;
     clockReadings := clockReadings v |}.

Definition set_clockReadings (n : nat) (v : t) : t :=
  {| mThumbnailSize := mThumbnailSize v;
     mDocumentInfoProvider := mDocumentInfoProvider v;
     mThumbnailForUrl := mThumbnailForUrl v;
     mSmoothThumbnailQueue := mSmoothThumbnailQueue v;
     mSmoothThumbnailTimer := mSmoothThumbnailTimer v;
     mWaitingThumbnail := mWaitingThumbnail v;
     mThumbnailLoadJob := mThumbnailLoadJob v;
     mBusyIndexSet := mBusyIndexSet v;
     mBusyAnimationTimeLine := mBusyAnimationTimeLine v;
     isVisible := isVisible v; model := model v;
     viewportRect := viewportRect v; isWrapping := isWrapping v;
     visualRect := visualRect v;
     updateRequests := updateRequests v;
     clockReadings := n |}.

(** [QWidget::update(index)]: the repaint request is recorded. *)
Definition update (index : QModelIndex) (v : t) : t :=
  set_updateRequests (updateRequests v ++ [index]) v.

(** [model()->index(row, 0)] *)
Definition index (row : nat) : QModelIndex := Some row.

(** [model()->rowCount()] *)
Definition rowCount (v : t) : nat :=
  match model v with Some rows => length rows | None => O end.

(** [fileItemForIndex]: the item stored under [KDirModel::FileItemRole];
    an invalid index, or data that is no file item, gives the null item. *)
Definition fileItemForIndex (v : t) (index : QModelIndex) : KFileItem.t :=
  match index with
  | None => KFileItem.null
  | Some row =>
      match model v with
      | Some rows =>
          match rows !! row with
          | Some item => item
          | None => KFileItem.null
          end
      | None => KFileItem.null
      end
  end.

(** [urlForIndex] *)
Definition urlForIndex (v : t) (index : QModelIndex) : KUrl :=
  let item := fileItemForIndex v index in
  if KFileItem.isNull item then EmptyString else KFileItem.url item.

(** *** Filling the cache *)

(** [ThumbnailView::setThumbnail] *)
Definition setThumbnail (item : KFileItem.t) (pixmap : QPixmap) (size : QSize.t)
    (v : t) : t :=
  match mThumbnailForUrl v !! KFileItem.url item with
  | None => v
  | Some thumbnail =>
      let largeGroupSize := pixelSize Large in
      let thumbnail :=
        set_mWaitingForThumbnail false
          (set_mRealFullSize size
            (set_mFullSize
               (if QSize.isValid size then size
                else QSize.make largeGroupSize largeGroupSize)
               (set_mAdjustedPix QPixmap_null
                  (set_mGroupPix pixmap thumbnail)))) in
      update (mIndex thumbnail)
        (set_mThumbnailForUrl
           (<[KFileItem.url item := thumbnail]> (mThumbnailForUrl v)) v)
  end.

(** [ThumbnailView::setBrokenThumbnail] *)
Definition setBrokenThumbnail (item : KFileItem.t) (v : t) : t :=
  match mThumbnailForUrl v !! KFileItem.url item with
  | None => v
  | Some thumbnail =>
      let store th :=
        set_mThumbnailForUrl
          (<[KFileItem.url item := th]> (mThumbnailForUrl v)) v in
      match fileItemKind item with
      | KIND_VIDEO =>
          (* our kde install may come without support for video
             thumbnails: show the mimetype icon *)
          let group := fromPixelSize (mThumbnailSize v) in
          let pix := KFileItem_pixmap item (pixelSize group) in
          let thumbnail := initAsIcon pix thumbnail in
          update (mIndex thumbnail) (store thumbnail)
      | KIND_DIR =>
          (* ThumbnailLoadJob does not return a thumbnail if there is
             no images *)
          store (set_mWaitingForThumbnail false thumbnail)
      | _ =>
          let thumbnail := initAsIcon (DesktopIcon "image-missing" 48) thumbnail in
          let thumbnail := set_mFullSize (pix_size (mGroupPix thumbnail)) thumbnail in
          update (mIndex thumbnail) (store thumbnail)
      end
  end.

(** [ThumbnailViewPrivate::updateThumbnailForModifiedDocument].  The
    method starts with [Q_ASSERT(mDocumentInfoProvider)]; its two callers
    have tested the pointer and hand over the provider they found. *)
Definition updateThumbnailForModifiedDocument
    (provider : AbstractDocumentInfoProvider) (index : QModelIndex) (v : t) : t :=
  let item := fileItemForIndex v index in
  let url := KFileItem.url item in
  let group := fromPixelSize (mThumbnailSize v) in
  let '(pix, fullSize) := thumbnailForDocument provider url group in
  let now := currentLocalDateTime (clockReadings v) in
  let v := set_clockReadings (S (clockReadings v)) v in
  let v := set_mThumbnailForUrl
             (<[url := Thumbnail_new index now]> (mThumbnailForUrl v)) v in
  setThumbnail item pix fullSize v.

(** [ThumbnailViewPrivate::generateThumbnailsForItems] *)
Definition generateThumbnailsForItems (list : KFileItemList) (v : t) : t :=
  let group := fromPixelSize (mThumbnailSize v) in
  match mThumbnailLoadJob v with
  | None => set_mThumbnailLoadJob (Some (ThumbnailLoadJob_new list group)) v
  | Some job =>
      let job := setThumbnailGroup group job in
      set_mThumbnailLoadJob
        (Some (fold_left (fun job item => appendItem item job) list job)) v
  end.

(** [ThumbnailViewPrivate::roughAdjustThumbnail] *)
Definition roughAdjustThumbnail (v : t) (thumbnail : Thumbnail) : Thumbnail :=
  let groupSize :=
    Z.max (pix_width (mGroupPix thumbnail)) (pix_height (mGroupPix thumbnail)) in
  let fullSize :=
    Z.max (QSize.width (mFullSize thumbnail)) (QSize.height (mFullSize thumbnail)) in
  if (fullSize =? groupSize) && (groupSize <=? mThumbnailSize v) then
    set_mRough false (set_mAdjustedPix (mGroupPix thumbnail) thumbnail)
  else
    set_mRough true
      (set_mAdjustedPix
         (scaled (mGroupPix thumbnail) (mThumbnailSize v) (mThumbnailSize v)
            KeepAspectRatio FastTransformation)
         thumbnail).

(** *** Painting: [ThumbnailView::thumbnailForIndex] *)

(** The thumbnail found in the cache, or the fresh one created for it. *)
Definition findOrCreate (v : t) (index : QModelIndex) (item : KFileItem.t) : Thumbnail :=
  match mThumbnailForUrl v !! KFileItem.url item with
  | Some thumbnail => thumbnail
  | None => Thumbnail_new index (KFileItem.time item)
  end.

(** "If dir or archive, generate a thumbnail from fileitem pixmap" *)
Definition iconForDirOrArchive (v : t) (item : KFileItem.t) (thumbnail : Thumbnail)
    : Thumbnail :=
  let kind := fileItemKind item in
  if Kind_eqb kind KIND_ARCHIVE || Kind_eqb kind KIND_DIR then
    let groupSize := pixelSize (fromPixelSize (mThumbnailSize v)) in
    if isNull (mGroupPix thumbnail) || (pix_width (mGroupPix thumbnail) <? groupSize) then
      let pix := KFileItem_pixmap item groupSize in
      let thumbnail := initAsIcon pix thumbnail in
      if Kind_eqb kind KIND_ARCHIVE then
        (* No thumbnails for archives *)
        set_mWaitingForThumbnail false thumbnail
      else
        set_mWaitingForThumbnail true thumbnail
    else thumbnail
  else thumbnail.

(** The result is the returned pixmap, the size stored through [fullSize]
    (when that pointer is not null) and the new state of the view. *)
Definition thumbnailForIndex (index : QModelIndex) (v : t) : QPixmap * QSize.t * t :=
  let item := fileItemForIndex v index in
  if KFileItem.isNull item then (QPixmap_null, QSize.invalid, v)
  else
    let url := KFileItem.url item in
    let thumbnail := iconForDirOrArchive v item (findOrCreate v index item) in
    if isNull (mGroupPix thumbnail) then
      (mWaitingThumbnail v, QSize.invalid,
       set_mThumbnailForUrl (<[url := thumbnail]> (mThumbnailForUrl v)) v)
    else
      (* Adjust thumbnail *)
      let thumbnail :=
        if isNull (mAdjustedPix thumbnail) then roughAdjustThumbnail v thumbnail
        else thumbnail in
      let v := set_mThumbnailForUrl (<[url := thumbnail]> (mThumbnailForUrl v)) v in
      let v :=
        if mRough thumbnail && negb (bool_decide (url ∈ mSmoothThumbnailQueue v)) then
          let v := set_mSmoothThumbnailQueue (mSmoothThumbnailQueue v ++ [url]) v in
          if negb (QTimer.isActive (mSmoothThumbnailTimer v)) then
            set_mSmoothThumbnailTimer
              (QTimer.start SMOOTH_DELAY (mSmoothThumbnailTimer v)) v
          else v
        else v in
      (mAdjustedPix thumbnail, mRealFullSize thumbnail, v).

(** [ThumbnailView::isModified] *)
Definition view_isModified (v : t) (index : QModelIndex) : bool :=
  match mDocumentInfoProvider v with
  | None => false
  | Some provider => isModified provider (urlForIndex v index)
  end.

(** *** Generating thumbnails *)

(** The rectangle whose rows get a thumbnail: the viewport, extended so
    that the next invisible rows of thumbnails get generated too. *)
Definition extendedVisibleRect (v : t) : QRect.t :=
  let visibleRect := viewportRect v in
  if isWrapping v then
    QRect.adjust 0 0 0 (mThumbnailSize v * 2) visibleRect
  else
    QRect.adjust 0 0 (Z.quot (QRect.width visibleRect) 2) 0 visibleRect.

(** One turn of the loop over the rows in
    [generateThumbnailsForVisibleItems]; [acc] is the view together with
    the list built so far. *)
Definition visibleItemsStep (visibleRect : QRect.t) (acc : t * list KFileItem.t)
    (row : nat) : t * list KFileItem.t :=
  let '(v, list) := acc in
  let index := index row in
  let item := fileItemForIndex v index in
  let url := KFileItem.url item in
  (* Filter out items which already have a thumbnail; add the others to
     the list and insert their thumbnail in mThumbnailForUrl, so that
     setThumbnail() can find the item to update *)
  let unmodified :=
    match mThumbnailForUrl v !! url with
    | Some thumbnail =>
        if isGroupPixAdaptedForSize thumbnail (mThumbnailSize v) then (v, list)
        else (v, list ++ [item])
    | None =>
        (set_mThumbnailForUrl
           (<[url := Thumbnail_new index (KFileItem.time item)]> (mThumbnailForUrl v)) v,
         list ++ [item])
    end in
  (* Filter out invisible items *)
  if negb (intersects visibleRect (visualRect v index)) then (v, list)
  (* Filter out archives *)
  else if Kind_eqb (fileItemKind item) KIND_ARCHIVE then (v, list)
  else
    match mDocumentInfoProvider v with
    | Some provider =>
        if isModified provider url then
          (* Immediately update modified items *)
          (updateThumbnailForModifiedDocument provider index v, list)
        else unmodified
    | None => unmodified
    end.

(** [ThumbnailView::generateThumbnailsForVisibleItems], up to the point
    where the list is handed over: the view and the list after the loop. *)
Definition visibleItemsLoop (v : t) : t * list KFileItem.t :=
  fold_left (visibleItemsStep (extendedVisibleRect v))
    (seq 0 (rowCount v)) (v, []).

(** [ThumbnailView::generateThumbnailsForVisibleItems] *)
Definition generateThumbnailsForVisibleItems (v : t) : t :=
  if negb (isVisible v) || negb (bool_decide (is_Some (model v))) then v
  else
    let '(v, list) := visibleItemsLoop v in
    match list with
    | [] => v
    | _ => generateThumbnailsForItems list v
    end.

(** [ThumbnailView::updateThumbnail] *)
Definition updateThumbnail (index : QModelIndex) (v : t) : t :=
  let item := fileItemForIndex v index in
  let url := KFileItem.url item in
  let enqueue := generateThumbnailsForItems [item] v in
  match mDocumentInfoProvider v with
  | Some provider =>
      if isModified provider url then
        updateThumbnailForModifiedDocument provider index v
      else enqueue
  | None => enqueue
  end.

(** *** Busy state *)

(** [ThumbnailView::updateThumbnailBusyState] *)
Definition updateThumbnailBusyState (index : QModelIndex) (busy : bool) (v : t) : t :=
  if busy && negb (bool_decide (index ∈ mBusyIndexSet v)) then
    let v := set_mBusyIndexSet (mBusyIndexSet v ∪ {[index]}) v in
    let v := update index v in
    if negb (QTimeLine.State_eqb (mBusyAnimationTimeLine v) QTimeLine.Running) then
      set_mBusyAnimationTimeLine QTimeLine.Running v      (* start() *)
    else v
  else if negb busy && bool_decide (index ∈ mBusyIndexSet v) then
    (* QSet::remove returned true *)
    let v := set_mBusyIndexSet (mBusyIndexSet v ∖ {[index]}) v in
    let v := update index v in
    if bool_decide (mBusyIndexSet v = ∅) then
      set_mBusyAnimationTimeLine QTimeLine.NotRunning v   (* stop() *)
    else v
  else v.

(** *** Smoothing *)

(** [ThumbnailView::smoothNextThumbnail] *)
Definition smoothNextThumbnail (v : t) : t :=
  match mSmoothThumbnailQueue v with
  | [] => v
  | url :: rest =>
      match mThumbnailLoadJob v with
      | Some _ =>
          (* give mThumbnailLoadJob priority over smoothing *)
          set_mSmoothThumbnailTimer
            (QTimer.start SMOOTH_DELAY (mSmoothThumbnailTimer v)) v
      | None =>
          let v := set_mSmoothThumbnailQueue rest v in       (* dequeue() *)
          match mThumbnailForUrl v !! url with
          | None => v      (* "not in mThumbnailForUrl. This should not happen!" *)
          | Some thumbnail =>
              let thumbnail :=
                set_mRough false
                  (set_mAdjustedPix
                     (scaled (mGroupPix thumbnail) (mThumbnailSize v) (mThumbnailSize v)
                        KeepAspectRatio SmoothTransformation)
                     thumbnail) in
              let v := set_mThumbnailForUrl
                         (<[url := thumbnail]> (mThumbnailForUrl v)) v in
              let v := if bool_decide (is_Some (mIndex thumbnail))
                       then update (mIndex thumbnail) v else v in
              match mSmoothThumbnailQueue v with
              | [] => v
              | _ => set_mSmoothThumbnailTimer
                       (QTimer.start 0 (mSmoothThumbnailTimer v)) v
              end
          end
      end
  end.

(** *** Auxiliary notions used in the statements *)

(** What [smoothNextThumbnail] does to the timer when a load job exists. *)
Definition rearmed (v : t) : t :=
  match mSmoothThumbnailQueue v with
  | [] => v
  | _ :: _ =>
      set_mSmoothThumbnailTimer
        (QTimer.start SMOOTH_DELAY (mSmoothThumbnailTimer v)) v
  end.

(** A sequence of [busyStateChanged(index, busy)] signals delivered to
    the [updateThumbnailBusyState] slot, oldest first. *)
Definition reportBusyStates (events : list (option nat * bool)) (v : t) : t :=
  fold_left (fun v e => updateThumbnailBusyState (fst e) (snd e) v) events v.

(** The busy flag of the last signal about [index], if there was one. *)
Definition lastReported (events : list (option nat * bool)) (index : QModelIndex)
    : option bool :=
  fold_left (fun last e => if decide (fst e = index) then Some (snd e) else last)
    events None.

(** The timeline runs exactly while some index is busy. *)
Definition busyInvariant (v : t) : Prop :=
  (mBusyAnimationTimeLine v = QTimeLine.Running /\ mBusyIndexSet v <> ∅) \/
  (mBusyAnimationTimeLine v = QTimeLine.NotRunning /\ mBusyIndexSet v = ∅).

(** What [thumbnailForIndex] works on once the entry is found or created
    and the icon of a folder or archive is in place. *)
Definition loadedThumbnail (v : t) (index : QModelIndex) : Thumbnail :=
  let item := fileItemForIndex v index in
  iconForDirOrArchive v item (findOrCreate v index item).

(** The result of the smooth-scale stage on a thumbnail. *)
Definition smoothed (v : t) (thumbnail : Thumbnail) : Thumbnail :=
  set_mRough false
    (set_mAdjustedPix
       (scaled (mGroupPix thumbnail) (mThumbnailSize v) (mThumbnailSize v)
          KeepAspectRatio SmoothTransformation)
       thumbnail).

(** [isModified] the way [generateThumbnailsForVisibleItems] and
    [updateThumbnail] test it: through the provider, if there is one. *)
Definition reportedModified (v : t) (url : KUrl) : bool :=
  match mDocumentInfoProvider v with
  | Some provider => isModified provider url
  | None => false
  end.

(** The cache holds, for [url], a group pixmap adapted to the current
    thumbnail size. *)
Definition hasAdaptedGroupPix (v : t) (url : KUrl) : bool :=
  match mThumbnailForUrl v !! url with
  | Some thumbnail => isGroupPixAdaptedForSize thumbnail (mThumbnailSize v)
  | None => false
  end.

(** The rows that are to be handed to the load job: those that intersect
    the extended visible rectangle, are no archives, are not reported
    modified and have no adapted group pixmap in the cache. *)
Definition needsLoading (v : t) (row : nat) (item : KFileItem.t) : bool :=
  intersects (extendedVisibleRect v) (visualRect v (index row)) &&
  negb (Kind_eqb (fileItemKind item) KIND_ARCHIVE) &&
  negb (reportedModified v (KFileItem.url item)) &&
  negb (hasAdaptedGroupPix v (KFileItem.url item)).

Fixpoint rowsToLoad (v : t) (row : nat) (rows : list KFileItem.t) : list KFileItem.t :=
  match rows with
  | [] => []
  | item :: rows =>
      (if needsLoading v row item then [item] else []) ++ rowsToLoad v (S row) rows
  end.

(** The cache entry made for a document in memory: the thumbnail the
    provider gives for it, filed under [index] with modification time
    [now]. *)
Definition documentThumbnail (provider : AbstractDocumentInfoProvider) (v : t)
    (url : KUrl) (index : QModelIndex) (now : KDateTime) : Thumbnail :=
  let '(pix, fullSize) :=
    thumbnailForDocument provider url (fromPixelSize (mThumbnailSize v)) in
  {| mIndex := index;
     mModificationTime := now;
     mGroupPix := pix;
     mAdjustedPix := QPixmap_null;
     mFullSize := if QSize.isValid fullSize then fullSize
                  else QSize.make (pixelSize Large) (pixelSize Large);
     mRealFullSize := fullSize;
     mRough := true;
     mWaitingForThumbnail := false |}.

(** What the loop of [generateThumbnailsForVisibleItems] leaves alone. *)
Definition sameSettings (v vk : t) : Prop :=
  mThumbnailSize vk = mThumbnailSize v /\
  mDocumentInfoProvider vk = mDocumentInfoProvider v /\
  model vk = model v /\
  visualRect vk = visualRect v /\
  mThumbnailLoadJob vk = mThumbnailLoadJob v /\
  mSmoothThumbnailQueue vk = mSmoothThumbnailQueue v.

(** Between two turns of that loop the cache may have changed, but not
    in what it says about the URLs that are not reported modified. *)
Definition loopInvariant (v vk : t) : Prop :=
  sameSettings v vk /\
  forall url,
    reportedModified v url = false ->
    hasAdaptedGroupPix vk url = hasAdaptedGroupPix v url.


(** *** The slots of the view as events *)

(** What reaches the view between two returns to the event loop: a paint
    request for an index, the two answers of the load job, the two
    timeouts, and the two signals of the document info provider. *)
Inductive Event :=
| Paint (index : QModelIndex)
| ThumbnailLoaded (item : KFileItem.t) (pixmap : QPixmap) (size : QSize.t)
| ThumbnailLoadingFailed (item : KFileItem.t)
| SmoothTimeout
| GenerationTimeout
| BusyStateChanged (index : QModelIndex) (busy : bool)
| DocumentChanged (index : QModelIndex).

Definition handle (e : Event) (v : t) : t :=
  match e with
  | Paint index => snd (thumbnailForIndex index v)
  | ThumbnailLoaded item pixmap size => setThumbnail item pixmap size v
  | ThumbnailLoadingFailed item => setBrokenThumbnail item v
  | SmoothTimeout => smoothNextThumbnail v
  | GenerationTimeout => generateThumbnailsForVisibleItems v
  | BusyStateChanged index busy => updateThumbnailBusyState index busy v
  | DocumentChanged index => updateThumbnail index v
  end.

Definition run (events : list Event) (v : t) : t :=
  fold_left (fun v e => handle e v) events v.

(** Every queued URL is queued once and has a cache entry. *)
Definition queueInvariant (v : t) : Prop :=
  NoDup (mSmoothThumbnailQueue v) /\
  forall url, url ∈ mSmoothThumbnailQueue v -> is_Some (mThumbnailForUrl v !! url).

(** [n] timeouts of the smoothing timer in a row. *)
Definition smoothNextThumbnails (n : nat) (v : t) : t :=
  Nat.iter n smoothNextThumbnail v.

(** *** The widget around the thumbnail cache *)

Context `{!ViewPlatform}.

Definition DRAG_THUMB_SIZE : Z := SizeHuge.
Definition DRAG_THUMB_SPACING : Z := 4.
Definition WHEEL_ZOOM_MULTIPLIER : Z := 4.

(** [Thumbnail::prepareForRefresh] *)
Definition prepareForRefresh (mtime : KDateTime) (thumbnail : Thumbnail) : Thumbnail :=
  {| mIndex := mIndex thumbnail;
     mModificationTime := mtime;
     mGroupPix := QPixmap_null;
     mAdjustedPix := QPixmap_null;
     mFullSize := QSize.invalid;
     mRealFullSize := QSize.invalid;
     mRough := true;
     mWaitingForThumbnail := true |}.

Definition set_mThumbnailSize (value : Z) (v : t) : t :=
  {| mThumbnailSize := value;
     mDocumentInfoProvider := mDocumentInfoProvider v;
     mThumbnailForUrl := mThumbnailForUrl v;
     mSmoothThumbnailQueue := mSmoothThumbnailQueue v;
     mSmoothThumbnailTimer := mSmoothThumbnailTimer v;
     mWaitingThumbnail := mWaitingThumbnail v;
     mThumbnailLoadJob := mThumbnailLoadJob v;
     mBusyIndexSet := mBusyIndexSet v;
     mBusyAnimationTimeLine := mBusyAnimationTimeLine v;
     isVisible := isVisible v; model := model v;
     viewportRect := viewportRect v; isWrapping := isWrapping v;
     visualRect := visualRect v;
     updateRequests := updateRequests v;
     clockReadings := clockReadings v |}.

Definition set_mWaitingThumbnail (pix : QPixmap) (v : t) : t :=
  {| mThumbnailSize := mThumbnailSize v;
     mDocumentInfoProvider := mDocumentInfoProvider v;
     mThumbnailForUrl := mThumbnailForUrl v;
     mSmoothThumbnailQueue := mSmoothThumbnailQueue v;
     mSmoothThumbnailTimer := mSmoothThumbnailTimer v;
     mWaitingThumbnail := pix;
     mThumbnailLoadJob := mThumbnailLoadJob v;
     mBusyIndexSet := mBusyIndexSet v;
     mBusyAnimationTimeLine := mBusyAnimationTimeLine v;
     isVisible := isVisible v; model := model v;
     viewportRect := viewportRect v; isWrapping := isWrapping v;
     visualRect := visualRect v;
     updateRequests := updateRequests v;
     clockReadings := clockReadings v |}.

(** The signals of the view that the modelled slots emit. *)
Inductive Signal :=
| thumbnailSizeChanged (value : Z)
| rowsInsertedSignal (start end_ : Z).

(** The view together with the members that the slots below need beyond
    the cache: the single-shot timer that triggers
    [generateThumbnailsForVisibleItems] (interval 500 ms), the current
    index of the list view, the signals emitted so far, and the URLs handed
    to [ThumbnailLoadJob::deleteImageThumbnail]. *)
Record Widget := {
  view : t;
  mScheduledThumbnailGenerationTimer : QTimer.t;
  currentIndex : QModelIndex;
  emitted : list Signal;
  deletedImageThumbnails : list string;
}.

Definition set_view (v : t) (w : Widget) : Widget :=
  {| view := v;
     mScheduledThumbnailGenerationTimer := mScheduledThumbnailGenerationTimer w;
     currentIndex := currentIndex w;
     emitted := emitted w;
     deletedImageThumbnails := deletedImageThumbnails w |}.

Definition set_currentIndex (index : QModelIndex) (w : Widget) : Widget :=
  {| view := view w;
     mScheduledThumbnailGenerationTimer := mScheduledThumbnailGenerationTimer w;
     currentIndex := index;
     emitted := emitted w;
     deletedImageThumbnails := deletedImageThumbnails w |}.

Definition emit (signal : Signal) (w : Widget) : Widget :=
  {| view := view w;
     mScheduledThumbnailGenerationTimer := mScheduledThumbnailGenerationTimer w;
     currentIndex := currentIndex w;
     emitted := emitted w ++ [signal];
     deletedImageThumbnails := deletedImageThumbnails w |}.

(** [mScheduledThumbnailGenerationTimer.start()]: the timer is (re)started
    with the interval it has. *)
Definition startScheduledThumbnailGeneration (w : Widget) : Widget :=
  {| view := view w;
     mScheduledThumbnailGenerationTimer :=
       QTimer.start (QTimer.interval (mScheduledThumbnailGenerationTimer w))
         (mScheduledThumbnailGenerationTimer w);
     currentIndex := currentIndex w;
     emitted := emitted w;
     deletedImageThumbnails := deletedImageThumbnails w |}.

(** [ThumbnailLoadJob::deleteImageThumbnail(url)] *)
Definition deleteImageThumbnail (url : KUrl) (w : Widget) : Widget :=
  {| view := view w;
     mScheduledThumbnailGenerationTimer := mScheduledThumbnailGenerationTimer w;
     currentIndex := currentIndex w;
     emitted := emitted w;
     deletedImageThumbnails := deletedImageThumbnails w ++ [url] |}.

(** [model()->index(row, 0)] for a row given as an [int]: rows outside the
    model have the invalid index. *)
Definition modelIndex (v : t) (row : Z) : QModelIndex :=
  if (0 <=? row) && (row <? Z.of_nat (rowCount v)) then Some (Z.to_nat row) else None.

(** [QModelIndex::row] *)
Definition rowOf (index : QModelIndex) : Z :=
  match index with Some row => Z.of_nat row | None => -1 end.

(** [ThumbnailViewPrivate::scheduleThumbnailGenerationForVisibleItems] *)
Definition scheduleThumbnailGenerationForVisibleItems (w : Widget) : Widget :=
  let v := view w in
  let v :=
    match mThumbnailLoadJob v with
    | Some job => set_mThumbnailLoadJob (Some (removeItems (pendingItems job) job)) v
    | None => v
    end in
  let v := set_mSmoothThumbnailQueue [] v in
  startScheduledThumbnailGeneration (set_view v w).

(** [ThumbnailView::setThumbnailSize] *)
Definition setThumbnailSize (value : Z) (w : Widget) : Widget :=
  let v := view w in
  if mThumbnailSize v =? value then w
  else
    let v := set_mThumbnailSize value v in
    (* mWaitingThumbnail *)
    let waitingThumbnailSize := if 64 <? value then 48 else 32 in
    let v :=
      if negb (pix_width (mWaitingThumbnail v) =? waitingThumbnailSize) then
        set_mWaitingThumbnail (dimmed (DesktopIcon "chronometer" waitingThumbnailSize)) v
      else v in
    (* Stop smoothing *)
    let v := set_mSmoothThumbnailTimer (QTimer.stop (mSmoothThumbnailTimer v)) v in
    let v := set_mSmoothThumbnailQueue [] v in
    (* Clear adjustedPixes *)
    let v := set_mThumbnailForUrl (set_mAdjustedPix QPixmap_null <$> mThumbnailForUrl v) v in
    let w := emit (thumbnailSizeChanged value) (set_view v w) in
    scheduleThumbnailGenerationForVisibleItems w.

(** [ThumbnailView::thumbnailSize] *)
Definition thumbnailSize (w : Widget) : Z := mThumbnailSize (view w).

(** One turn of the loop of [ThumbnailView::rowsAboutToBeRemoved]: the
    view and the item list built so far. *)
Definition removeRowStep (acc : t * list KFileItem.t) (pos : Z) : t * list KFileItem.t :=
  let '(v, itemList) := acc in
  let item := fileItemForIndex v (modelIndex v pos) in
  if KFileItem.isNull item then (v, itemList)
  else
    let url := KFileItem.url item in
    let v := set_mThumbnailForUrl (delete url (mThumbnailForUrl v)) v in
    let v := set_mSmoothThumbnailQueue
               (filter (fun queued => queued <> url) (mSmoothThumbnailQueue v)) v in
    (v, itemList ++ [item]).

(** [ThumbnailView::rowsAboutToBeRemoved].  [baseCurrent] is the current
    index as [QListView::rowsAboutToBeRemoved], called first, leaves it;
    the rows are still in the model. *)
Definition rowsAboutToBeRemoved (baseCurrent : QModelIndex) (start end_ : Z)
    (w : Widget) : Widget :=
  let w := set_currentIndex baseCurrent w in
  (* Remove references to removed items *)
  let '(v, itemList) :=
    fold_left removeRowStep (seqZ start (end_ - start + 1)) (view w, []) in
  let v :=
    match mThumbnailLoadJob v with
    | Some job => set_mThumbnailLoadJob (Some (removeItems itemList job)) v
    | None => v
    end in
  let w := set_view v w in
  (* Update current index if it is among the deleted rows *)
  let row := rowOf (currentIndex w) in
  let w :=
    if (start <=? row) && (row <=? end_) then
      let index :=
        if end_ <? Z.of_nat (rowCount v) - 1 then modelIndex v (end_ + 1)
        else if 0 <? start then modelIndex v (start - 1)
        else None in
      set_currentIndex index w
    else w in
  (* Removing rows might make new images visible *)
  startScheduledThumbnailGeneration w.

(** [ThumbnailView::rowsInserted] *)
Definition rowsInserted (start end_ : Z) (w : Widget) : Widget :=
  emit (rowsInsertedSignal start end_) (startScheduledThumbnailGeneration w).

(** One turn of the loop of [ThumbnailView::dataChanged]: the view and the
    flag [thumbnailsNeedRefresh]. *)
Definition dataChangedStep (acc : t * bool) (row : Z) : t * bool :=
  let '(v, thumbnailsNeedRefresh) := acc in
  let item := fileItemForIndex v (modelIndex v row) in
  if KFileItem.isNull item then (v, thumbnailsNeedRefresh)
  else
    match mThumbnailForUrl v !! KFileItem.url item with
    | Some thumbnail =>
        let mtime := KFileItem.time item in
        if negb (bool_decide (mModificationTime thumbnail = mtime)) then
          (set_mThumbnailForUrl
             (<[KFileItem.url item := prepareForRefresh mtime thumbnail]>
                (mThumbnailForUrl v)) v,
           true)
        else (v, thumbnailsNeedRefresh)
    | None => (v, thumbnailsNeedRefresh)
    end.

(** [ThumbnailView::dataChanged], for the rows [top] to [bottom] of its
    two indexes. *)
Definition dataChanged (top bottom : Z) (w : Widget) : Widget :=
  let '(v, thumbnailsNeedRefresh) :=
    fold_left dataChangedStep (seqZ top (bottom - top + 1)) (view w, false) in
  let w := set_view v w in
  if thumbnailsNeedRefresh then startScheduledThumbnailGeneration w else w.

(** [ThumbnailView::resizeEvent], [showEvent] and [scrollContentsBy], as
    far as the cache is concerned. *)
Definition resizeEvent (w : Widget) : Widget :=
  scheduleThumbnailGenerationForVisibleItems w.

(** The sum of two [int]s, as a 32-bit machine computes it: it wraps
    around. *)
Definition addInt (a b : Z) : Z := (a + b + 2 ^ 31) mod 2 ^ 32 - 2 ^ 31.

(** [ThumbnailView::wheelEvent] with the Control modifier held. *)
Definition wheelZoom (delta : Z) (w : Widget) : Widget :=
  let size :=
    addInt (thumbnailSize w) ((if 0 <? delta then 1 else -1) * WHEEL_ZOOM_MULTIPLIER) in
  let size := Z.max MinThumbnailSize (Z.min size MaxThumbnailSize) in
  setThumbnailSize size w.

(** [ThumbnailView::reloadThumbnail] *)
Definition reloadThumbnail (index : QModelIndex) (w : Widget) : Widget :=
  let v := view w in
  let url := urlForIndex v index in
  if negb (KUrl_isValid url) then w
  else
    let w := deleteImageThumbnail url w in
    match mThumbnailForUrl v !! url with
    | None => w
    | Some _ =>
        let v := set_mThumbnailForUrl (delete url (mThumbnailForUrl v)) v in
        set_view (generateThumbnailsForVisibleItems v) w
    end.

(** [ThumbnailViewPrivate::dragPixmapForIndex]; a URL without cache entry
    has the null pixmap of a default-constructed [Thumbnail]. *)
Definition dragPixmapForIndex (v : t) (index : QModelIndex) : QPixmap :=
  let url := urlForIndex v index in
  let pix :=
    match mThumbnailForUrl v !! url with
    | Some thumbnail => mAdjustedPix thumbnail
    | None => QPixmap_null
    end in
  if DRAG_THUMB_SIZE <? Z.max (pix_width pix) (pix_height pix) then
    scaled pix DRAG_THUMB_SIZE DRAG_THUMB_SIZE KeepAspectRatio SmoothTransformation
  else pix.

Definition MAX_THUMBS : nat := 3.

(** The first loop of [ThumbnailViewPrivate::createDragPixmap]: the list
    [thumbs] with the accumulated [width] and [height]. *)
Definition dragThumbStep (v : t) (indexes : list QModelIndex) (thumbCount : nat)
    (more : bool) (acc : list QPixmap * Z * Z) (row : nat) : list QPixmap * Z * Z :=
  let '(thumbs, width, height) := acc in
  let '(index, thumbs, width) :=
    if bool_decide (row = (thumbCount - 1)%nat) && more then
      let pix := textPixmap "(...)" in
      (List.last indexes None, thumbs ++ [pix], width + pix_width pix)
    else
      (match indexes !! row with Some index => index | None => None end, thumbs, width) in
  let thumb := dragPixmapForIndex v index in
  (thumbs ++ [thumb], width + pix_width thumb, Z.max height (pix_height thumb)).

(** The second loop: where each pixmap is drawn. *)
Fixpoint dragLayout (pixHeight x : Z) (thumbs : list QPixmap) : list (Z * Z * QPixmap) :=
  match thumbs with
  | [] => []
  | thumb :: rest =>
      (x, Z.quot (pixHeight - pix_height thumb) 2, thumb)
        :: dragLayout pixHeight (x + pix_width thumb + DRAG_THUMB_SPACING) rest
  end.

(** The pixmap handed to the drag: its size and the pixmaps drawn on its
    filled background, each with its position. *)
Record DragPixmap := {
  dragWidth : Z;
  dragHeight : Z;
  drawn : list (Z * Z * QPixmap);
}.

(** [ThumbnailViewPrivate::createDragPixmap] *)
Definition createDragPixmap (v : t) (indexes : list QModelIndex) : DragPixmap :=
  let '(thumbCount, more) :=
    if (MAX_THUMBS <? length indexes)%nat then (MAX_THUMBS, true)
    else (length indexes, false) in
  let '(thumbs, width, height) :=
    fold_left (dragThumbStep v indexes thumbCount more) (seq 0 thumbCount) ([], 0, 0) in
  let pixWidth := width + (Z.of_nat (length thumbs) + 1) * DRAG_THUMB_SPACING in
  let pixHeight := height + 2 * DRAG_THUMB_SPACING in
  {| dragWidth := pixWidth;
     dragHeight := pixHeight;
     drawn := dragLayout pixHeight DRAG_THUMB_SPACING thumbs |}.

(** The indexes whose thumbnails [createDragPixmap] shows: all of them up
    to [MAX_THUMBS], else the first two and the last. *)
Definition draggedIndexes (indexes : list QModelIndex) : list QModelIndex :=
  if (MAX_THUMBS <? length indexes)%nat then take 2 indexes ++ [List.last indexes None]
  else indexes.

(** What the loops of [dataChanged] and [rowsAboutToBeRemoved] leave
    alone in the view. *)
Definition sameModel (v v' : t) : Prop :=
  model v' = model v /\
  mThumbnailSize v' = mThumbnailSize v /\
  mThumbnailLoadJob v' = mThumbnailLoadJob v /\
  mDocumentInfoProvider v' = mDocumentInfoProvider v.

(** The file items of the rows [positions] that are not null: what
    [rowsAboutToBeRemoved] collects in its [itemList]. *)
Definition removedItems (v : t) (positions : list Z) : list KFileItem.t :=
  filter (fun item => KFileItem.isNull item = false)
         (map (fun pos => fileItemForIndex v (modelIndex v pos)) positions).

Definition removedUrls (v : t) (positions : list Z) : list KUrl :=
  map KFileItem.url (removedItems v positions).

(** [refreshed] is [thumbnail] after one or more calls of
    [prepareForRefresh]. *)
Definition isRefreshOf (thumbnail refreshed : Thumbnail) : Prop :=
  exists mtime, refreshed = prepareForRefresh mtime thumbnail.

(** What a run of [dataChanged]'s loop from [(v, flag)] can lead to: no
    cache entry appears or disappears, and each one is left as it was or
    is its refreshed form, in which case the refresh flag is set. *)
Definition refreshedFrom (v : t) (flag : bool) (r : t * bool) : Prop :=
  sameModel v (fst r) /\
  mSmoothThumbnailQueue (fst r) = mSmoothThumbnailQueue v /\
  (flag = true -> snd r = true) /\
  (forall url, mThumbnailForUrl v !! url = None -> mThumbnailForUrl (fst r) !! url = None) /\
  forall url thumbnail,
    mThumbnailForUrl v !! url = Some thumbnail ->
    mThumbnailForUrl (fst r) !! url = Some thumbnail \/
    (snd r = true /\
     exists refreshed,
       mThumbnailForUrl (fst r) !! url = Some refreshed /\ isRefreshOf thumbnail refreshed).

End WithPlatform.

(** *** Sample views on the reference platform *)

#[local] Existing Instance Sample.platform.

Definition urlA : KUrl := "file:///pics/a.png".
Definition urlB : KUrl := "file:///pics/b.jpg".
Definition urlZ : KUrl := "file:///pics/c.zip".

Definition itemA : KFileItem.t := Some (KFileItem.make urlA 100 "image/png").
Definition itemB : KFileItem.t := Some (KFileItem.make urlB 200 "image/jpeg").
Definition itemZ : KFileItem.t := Some (KFileItem.make urlZ 300 "application/zip").

Definition sampleRows : list KFileItem.t := [itemA; itemB; itemZ].

(** A wrapping view of 400x300 pixels showing [sampleRows] one below the
    other, 150 pixels each, at thumbnail size 128; nothing is cached,
    queued, loading or busy. *)
Definition sampleView : t :=
  {| mThumbnailSize := 128;
     mDocumentInfoProvider := None;
     mThumbnailForUrl := ∅;
     mSmoothThumbnailQueue := [];
     mSmoothThumbnailTimer := QTimer.make false 0;
     mWaitingThumbnail := Sample.Image "chronometer" 48 48;
     mThumbnailLoadJob := None;
     mBusyIndexSet := ∅;
     mBusyAnimationTimeLine := QTimeLine.NotRunning;
     isVisible := true;
     model := Some sampleRows;
     viewportRect := QRect.make 0 0 399 299;
     isWrapping := true;
     visualRect := fun index =>
       match index with
       | Some row => QRect.make 0 (150 * Z.of_nat row) 127 (150 * Z.of_nat row + 149)
       | None => QRect.make 0 0 (-1) (-1)
       end;
     updateRequests := [];
     clockReadings := 0 |}.

(** The thumbnail of [itemA] as the load job delivers it: a 256x192 group
    pixmap of a 1024x768 image. *)
Definition largeThumbnail : Thumbnail :=
  {| mIndex := Some 0%nat;
     mModificationTime := Some 100;
     mGroupPix := Sample.Image "a.png" 256 192;
     mAdjustedPix := Sample.Null;
     mFullSize := QSize.make 1024 768;
     mRealFullSize := QSize.make 1024 768;
     mRough := true;
     mWaitingForThumbnail := false |}.

(** The thumbnail of a 10x10 image: the group pixmap is the image itself. *)
Definition smallThumbnail : Thumbnail :=
  {| mIndex := Some 0%nat;
     mModificationTime := Some 100;
     mGroupPix := Sample.Image "a.png" 10 10;
     mAdjustedPix := Sample.Null;
     mFullSize := QSize.make 10 10;
     mRealFullSize := QSize.make 10 10;
     mRough := true;
     mWaitingForThumbnail := false |}.

Definition largeImageView : t :=
  set_mThumbnailForUrl {[ urlA := largeThumbnail ]} sampleView.

Definition smallImageView : t :=
  set_mThumbnailForUrl {[ urlA := smallThumbnail ]} sampleView.

(** A load job exists and nothing is queued for smoothing. *)
Definition loadingView : t :=
  set_mThumbnailLoadJob (Some (Sample.Build_Job [itemB] Sample.NormalGroup)) largeImageView.

(** A load job exists and [urlA] waits for smoothing. *)
Definition loadingQueuedView : t :=
  set_mSmoothThumbnailQueue [urlA] loadingView.




(** *** Sample widgets *)

#[local] Existing Instance SampleView.platform.

(** The widget around a view: the generation timer idle with its
    interval of 500 ms, no current index, nothing emitted. *)
Definition widgetOf (v : t) : Widget :=
  {| view := v;
     mScheduledThumbnailGenerationTimer := QTimer.make false 500;
     currentIndex := None;
     emitted := [];
     deletedImageThumbnails := [] |}.

(** [largeImageView] with [urlA] waiting for smoothing. *)
Definition queuedView : t := set_mSmoothThumbnailQueue [urlA] largeImageView.

(** [sampleView] with the largest [int] as thumbnail size. *)
Definition largestSizeView : t := set_mThumbnailSize 2147483647 sampleView.


(** The thumbnail of [itemA] loaded before the file was changed. *)
Definition staleThumbnail : Thumbnail :=
  {| mIndex := Some 0%nat;
     mModificationTime := Some 50;
     mGroupPix := Sample.Image "a.png" 256 192;
     mAdjustedPix := Sample.Null;
     mFullSize := QSize.make 1024 768;
     mRealFullSize := QSize.make 1024 768;
     mRough := true;
     mWaitingForThumbnail := false |}.

Definition staleView : t :=
  set_mThumbnailForUrl {[ urlA := staleThumbnail ]} sampleView.

(** [largeImageView] after row 0 has been painted. *)
Definition paintedView : t := snd (thumbnailForIndex (index 0) largeImageView).

(** A paint request for row 0, the generation timeout, the answer of the
    load job for [itemA], another paint request and a smoothing timeout. *)
Definition sampleEvents : list Event :=
  [Paint (index 0); GenerationTimeout;
   ThumbnailLoaded itemA (Sample.Image "a.png" 256 192) (QSize.make 1024 768);
   Paint (index 0); SmoothTimeout].

End ThumbnailView.

(** ** The tag model *)

Module TagModel.

(** [QString]: a sequence of UTF-16 code units. *)
Definition QString := list Z.

(** [typedef QString SemanticInfoTag] *)
Definition SemanticInfoTag := QString.

(** [QString::compare], case sensitive: the difference of the first two
    code units that differ, or else the difference of the lengths. *)
Fixpoint compare (a b : QString) : Z :=
  match a, b with
  | [], [] => 0
  | [], _ :: _ => - Z.of_nat (length b)
  | _ :: _, [] => Z.of_nat (length a)
  | x :: a', y :: b' => if x =? y then compare a' b' else x - y
  end.

(** [AbstractSemanticInfoBackEnd], as far as the model uses it: the tags
    that [allTags()] returns once [refreshAllTags()] has run, in the order
    in which the set is iterated, and [labelForTag]. *)
Record AbstractSemanticInfoBackEnd := {
  allTags : list SemanticInfoTag;
  labelForTag : SemanticInfoTag -> QString;
}.

(** A row of the model: a [QStandardItem] with its text and the tag stored
    under [TagRole]. *)
Record QStandardItem := { text : QString; tagRole : SemanticInfoTag }.

(** [QStandardItem::operator<] on items holding strings. *)
Definition lessThan (a b : QStandardItem) : bool := compare (text a) (text b) <? 0.

(** [QStandardItemModel::sort(0)]: a stable sort of the rows, ascending
    with respect to [operator<]. *)
Fixpoint sortedInsert (item : QStandardItem) (rows : list QStandardItem)
    : list QStandardItem :=
  match rows with
  | [] => [item]
  | x :: rest =>
      if lessThan x item then x :: sortedInsert item rest
      else item :: x :: rest
  end.

Definition sort (rows : list QStandardItem) : list QStandardItem :=
  fold_right sortedInsert [] rows.

(** [QStandardItemModel::insertRow(row, item)] *)
Definition insertRow (row : nat) (item : QStandardItem) (rows : list QStandardItem)
    : list QStandardItem :=
  take row rows ++ item :: drop row rows.

(** [TagModel::refresh] *)
Definition refresh (backEnd : AbstractSemanticInfoBackEnd) : list QStandardItem :=
  let set := allTags backEnd in
  (* clear(), then one appended row per tag *)
  let rows :=
    fold_left
      (fun rows tag => rows ++ [{| text := labelForTag backEnd tag; tagRole := tag |}])
      set [] in
  sort rows.

(** The loop of [TagModel::slotTagAdded]: the first row whose text compares
    greater than [label], or the row count. *)
Fixpoint findRow (label : QString) (rows : list QStandardItem) : nat :=
  match rows with
  | [] => O
  | item :: rest =>
      if 0 <? compare (text item) label then O
      else S (findRow label rest)
  end.

(** [TagModel::slotTagAdded] *)
Definition slotTagAdded (tag : SemanticInfoTag) (label : QString)
    (rows : list QStandardItem) : list QStandardItem :=
  let row := findRow label rows in
  insertRow row {| text := label; tagRole := tag |} rows.

(** A sequence of [tagAdded(tag, label)] signals, oldest first. *)
Definition tagsAdded (events : list (SemanticInfoTag * QString))
    (rows : list QStandardItem) : list QStandardItem :=
  fold_left (fun rows e => slotTagAdded (fst e) (snd e) rows) events rows.

(** Ascending label order. *)
Definition labelLe (a b : QStandardItem) : Prop := compare (text a) (text b) <= 0.

(** A back end with three tags, iterated out of order. *)
Definition sampleBackEnd : AbstractSemanticInfoBackEnd :=
  {| allTags := [[116; 114; 105; 112]; [99; 97; 116]; [116; 114; 101; 101]];
     labelForTag := fun tag => tag |}.

End TagModel.

(** ** The image meta-info model *)

Module ImageMetaInfoModel.

(** [enum GroupRow { NoGroup = -1, GeneralGroup, ExifGroup, IptcGroup }] *)
Definition NoGroup : Z := -1.
Definition GeneralGroup : Z := 0.
Definition ExifGroup : Z := 1.
Definition IptcGroup : Z := 2.

Module QModelIndex.
(** A model index: row, column, internal id and whether it belongs to a
    model. *)
Record t := make { row : Z; column : Z; internalId : Z; hasModel : bool }.

(** [QModelIndex()] *)
Definition invalid : t := make (-1) (-1) 0 false.

Definition isValid (i : t) : bool :=
  (0 <=? row i) && (0 <=? column i) && hasModel i.
End QModelIndex.

(** [QAbstractItemModel::createIndex(row, column, id)] *)
Definition createIndex (row column id : Z) : QModelIndex.t :=
  QModelIndex.make row column id true.

(** [MetaInfoGroup::Entry] *)
Record Entry := { mKey : string; mEntryLabel : string; mValue : string }.

(** [class MetaInfoGroup] *)
Record MetaInfoGroup := { mList : list Entry; mLabel : string }.

(** [MetaInfoGroup::size] *)
Definition size (group : MetaInfoGroup) : Z := Z.of_nat (length (mList group)).

(** [ImageMetaInfoModelPrivate] *)
Record t := { mMetaInfoGroupVector : list MetaInfoGroup }.

(** [mMetaInfoGroupVector.size()] *)
Definition groupCount (m : t) : Z := Z.of_nat (length (mMetaInfoGroupVector m)).

(** [mMetaInfoGroupVector[i]]; [None] stands for the undefined behaviour of
    an access outside the vector. *)
Definition groupAt (m : t) (i : Z) : option MetaInfoGroup :=
  if (0 <=? i) && (i <? groupCount m) then mMetaInfoGroupVector m !! Z.to_nat i
  else None.

(** [ImageMetaInfoModel::index] *)
Definition index (m : t) (row col : Z) (parent : QModelIndex.t) : option QModelIndex.t :=
  if negb (QModelIndex.isValid parent) then
    (* This is a group *)
    if 0 <? col then Some QModelIndex.invalid
    else if groupCount m <=? row then Some QModelIndex.invalid
    else Some (createIndex row col NoGroup)
  else
    (* This is an entry *)
    if 1 <? col then Some QModelIndex.invalid
    else
      let group := QModelIndex.row parent in
      match groupAt m group with
      | None => None
      | Some g =>
          if size g <=? row then Some QModelIndex.invalid
          else Some (createIndex row col group)
      end.

(** [ImageMetaInfoModel::parent] *)
Definition parent (index : QModelIndex.t) : QModelIndex.t :=
  if negb (QModelIndex.isValid index) then QModelIndex.invalid
  else if QModelIndex.internalId index =? NoGroup then QModelIndex.invalid
  else createIndex (QModelIndex.internalId index) 0 NoGroup.

(** [ImageMetaInfoModel::rowCount] *)
Definition rowCount (m : t) (parent : QModelIndex.t) : option Z :=
  if negb (QModelIndex.isValid parent) then Some (groupCount m)
  else if QModelIndex.internalId parent =? NoGroup then
    match groupAt m (QModelIndex.row parent) with
    | Some g => Some (size g)
    | None => None
    end
  else Some 0.

(** [ImageMetaInfoModel::columnCount] *)
Definition columnCount (parent : QModelIndex.t) : Z := 2.

(** The model as [ImageMetaInfoModel::ImageMetaInfoModel] leaves it. *)
Definition constructed : t :=
  {| mMetaInfoGroupVector :=
       [ {| mList := [ {| mKey := "General.Name"; mEntryLabel := "Name"; mValue := EmptyString |};
                       {| mKey := "General.Size"; mEntryLabel := "File Size"; mValue := EmptyString |};
                       {| mKey := "General.Time"; mEntryLabel := "File Time"; mValue := EmptyString |};
                       {| mKey := "General.ImageSize"; mEntryLabel := "Image Size";
                          mValue := EmptyString |} ];
            mLabel := "General" |};
         {| mList := []; mLabel := "Exif" |};
         {| mList := []; mLabel := "Iptc" |} ] |}.

(** *** The groups *)

Module Group.

(** [MetaInfoGroup::MetaInfoGroup(label)] *)
Definition new (label : string) : MetaInfoGroup := {| mList := []; mLabel := label |}.

(** [MetaInfoGroup::clear] *)
Definition clear (group : MetaInfoGroup) : MetaInfoGroup :=
  {| mList := []; mLabel := mLabel group |}.

(** [MetaInfoGroup::addEntry] *)
Definition addEntry (key label value : string) (group : MetaInfoGroup) : MetaInfoGroup :=
  {| mList := mList group ++ [ {| mKey := key; mEntryLabel := label; mValue := value |} ];
     mLabel := mLabel group |}.

(** The loop of [MetaInfoGroup::getInfoForKey].  [out] is what the
    caller's [*label] and [*value] hold; they are overwritten for the
    first entry with the key, and left alone when there is none. *)
Fixpoint getInfoForKeyIn (entries : list Entry) (key : string) (out : string * string)
    : string * string :=
  match entries with
  | [] => out
  | entry :: entries =>
      if String.eqb (mKey entry) key then (mEntryLabel entry, mValue entry)
      else getInfoForKeyIn entries key out
  end.

(** [MetaInfoGroup::getInfoForKey] *)
Definition getInfoForKey (group : MetaInfoGroup) (key : string) (out : string * string)
    : string * string :=
  getInfoForKeyIn (mList group) key out.

(** [mList[row]]; [None] stands for the failed assertion or undefined
    behaviour of an access outside the list. *)
Definition entryAt (group : MetaInfoGroup) (row : Z) : option Entry :=
  if (0 <=? row) && (row <? size group) then mList group !! Z.to_nat row else None.

(** [MetaInfoGroup::getKeyAt] *)
Definition getKeyAt (group : MetaInfoGroup) (row : Z) : option string :=
  mKey <$> entryAt group row.

(** [MetaInfoGroup::getLabelForKeyAt] *)
Definition getLabelForKeyAt (group : MetaInfoGroup) (row : Z) : option string :=
  mEntryLabel <$> entryAt group row.

(** [MetaInfoGroup::getValueForKeyAt] *)
Definition getValueForKeyAt (group : MetaInfoGroup) (row : Z) : option string :=
  mValue <$> entryAt group row.

(** [MetaInfoGroup::setValueForKeyAt]: the value assigned and the group. *)
Definition setValueForKeyAt (row : Z) (value : string) (group : MetaInfoGroup)
    : option (string * MetaInfoGroup) :=
  match entryAt group row with
  | Some entry =>
      Some (value,
            {| mList :=
                 <[Z.to_nat row :=
                     {| mKey := mKey entry; mEntryLabel := mEntryLabel entry;
                        mValue := value |}]> (mList group);
               mLabel := mLabel group |})
  | None => None
  end.

(** The loop of [MetaInfoGroup::getKeyRow], with its counter [row]. *)
Fixpoint getKeyRowFrom (row : Z) (entries : list Entry) (key : string) : Z :=
  match entries with
  | [] => -1
  | entry :: entries =>
      if String.eqb (mKey entry) key then row else getKeyRowFrom (row + 1) entries key
  end.

(** [MetaInfoGroup::getKeyRow] *)
Definition getKeyRow (group : MetaInfoGroup) (key : string) : Z :=
  getKeyRowFrom 0 (mList group) key.

End Group.

(** *** The private part of the model *)

(** The signals of [QAbstractItemModel] that the model emits;
    [rowsRemoved] and [rowsInserted] stand for the pairs
    [beginRemoveRows]/[endRemoveRows] and [beginInsertRows]/[endInsertRows]. *)
Inductive ModelSignal :=
| rowsRemoved (parent : QModelIndex.t) (first last : Z)
| rowsInserted (parent : QModelIndex.t) (first last : Z)
| dataChanged (topLeft bottomRight : QModelIndex.t).

(** A write through the pointer [mMetaInfoGroupVector[groupRow]]. *)
Definition setGroup (m : t) (groupRow : Z) (group : MetaInfoGroup) : t :=
  {| mMetaInfoGroupVector := <[Z.to_nat groupRow := group]> (mMetaInfoGroupVector m) |}.

(** [ImageMetaInfoModelPrivate::clearGroup] *)
Definition clearGroup (group : MetaInfoGroup) (parent : QModelIndex.t)
    : MetaInfoGroup * list ModelSignal :=
  if 0 <? size group then (Group.clear group, [rowsRemoved parent 0 (size group - 1)])
  else (group, []).

(** [ImageMetaInfoModelPrivate::notifyGroupFilled] *)
Definition notifyGroupFilled (group : MetaInfoGroup) (parent : QModelIndex.t)
    : list ModelSignal :=
  if size group =? 0 then [] else [rowsInserted parent 0 (size group - 1)].

(** [ImageMetaInfoModelPrivate::setGroupEntryValue] *)
Definition setGroupEntryValue (groupRow : Z) (key value : string) (m : t)
    : option (t * list ModelSignal) :=
  group ← groupAt m groupRow;
  let entryRow := Group.getKeyRow group key in
  '(_, group) ← Group.setValueForKeyAt entryRow value group;
  let m := setGroup m groupRow group in
  groupIndex ← index m groupRow 0 QModelIndex.invalid;
  entryIndex ← index m entryRow 1 groupIndex;
  Some (m, [dataChanged entryIndex entryIndex]).

(** [QVariant], as far as the model uses it. *)
Inductive QVariant :=
| QVariant_null
| QVariant_string (s : string).

(** [ImageMetaInfoModelPrivate::displayData] *)
Definition displayData (m : t) (index : QModelIndex.t) : option QVariant :=
  if QModelIndex.internalId index =? NoGroup then
    if 0 <? QModelIndex.column index then Some QVariant_null
    else
      group ← groupAt m (QModelIndex.row index);
      Some (QVariant_string (mLabel group))
  else
    group ← groupAt m (QModelIndex.internalId index);
    if QModelIndex.column index =? 0 then
      QVariant_string <$> Group.getLabelForKeyAt group (QModelIndex.row index)
    else
      QVariant_string <$> Group.getValueForKeyAt group (QModelIndex.row index).

(** [ImageMetaInfoModelPrivate::initGeneralGroup] *)
Definition initGeneralGroup (m : t) : option t :=
  group ← groupAt m GeneralGroup;
  let group := Group.addEntry "General.Name" "Name" EmptyString group in
  let group := Group.addEntry "General.Size" "File Size" EmptyString group in
  let group := Group.addEntry "General.Time" "File Time" EmptyString group in
  let group := Group.addEntry "General.ImageSize" "Image Size" EmptyString group in
  Some (setGroup m GeneralGroup group).

(** [ImageMetaInfoModel::ImageMetaInfoModel] *)
Definition create : option t :=
  initGeneralGroup
    {| mMetaInfoGroupVector := [Group.new "General"; Group.new "Exif"; Group.new "Iptc"] |}.

(** *** The public part of the model *)

(** What [setFileItem] reads of its [KFileItem]: [item.name()],
    [KGlobal::locale()->formatByteSize(item.size())] and
    [item.timeString()]. *)
Record FileItem := {
  itemName : string;
  itemSizeString : string;
  itemTimeString : string;
}.

(** [ImageMetaInfoModel::setFileItem] *)
Definition setFileItem (item : FileItem) (m : t) : option (t * list ModelSignal) :=
  '(m, signals1) ← setGroupEntryValue GeneralGroup "General.Name" (itemName item) m;
  '(m, signals2) ← setGroupEntryValue GeneralGroup "General.Size" (itemSizeString item) m;
  '(m, signals3) ← setGroupEntryValue GeneralGroup "General.Time" (itemTimeString item) m;
  Some (m, signals1 ++ signals2 ++ signals3).

(** The product of two [int]s, as a 32-bit machine computes it. *)
Definition mulInt (a b : Z) : Z := (a * b + 2 ^ 31) mod 2 ^ 32 - 2 ^ 31.

(** One metadatum of an [Exiv2::Image]: its key, its tag label and its
    value as printed to a stream. *)
Record Metadatum := {
  key : string;
  tagLabel : string;
  printed : string;
}.

Record Exiv2Image := {
  supportsExif : bool;
  exifData : list Metadatum;
  supportsIptc : bool;
  iptcData : list Metadatum;
}.

(** [fillExivGroup] *)
Definition fillExivGroup (group : MetaInfoGroup) (data : list Metadatum) : MetaInfoGroup :=
  fold_left (fun group datum => Group.addEntry (key datum) (tagLabel datum) (printed datum) group)
            data group.

(** [ImageMetaInfoModel::setExiv2Image]; [image] is [None] for a null
    pointer. *)
Definition setExiv2Image (image : option Exiv2Image) (m : t)
    : option (t * list ModelSignal) :=
  exifGroup ← groupAt m ExifGroup;
  iptcGroup ← groupAt m IptcGroup;
  exifIndex ← index m ExifGroup 0 QModelIndex.invalid;
  iptcIndex ← index m IptcGroup 0 QModelIndex.invalid;
  let '(exifGroup, removedExif) := clearGroup exifGroup exifIndex in
  let '(iptcGroup, removedIptc) := clearGroup iptcGroup iptcIndex in
  match image with
  | None =>
      Some (setGroup (setGroup m ExifGroup exifGroup) IptcGroup iptcGroup,
            removedExif ++ removedIptc)
  | Some image =>
      let '(exifGroup, filledExif) :=
        if supportsExif image then
          let group := fillExivGroup exifGroup (exifData image) in
          (group, notifyGroupFilled group exifIndex)
        else (exifGroup, []) in
      let '(iptcGroup, filledIptc) :=
        if supportsIptc image then
          let group := fillExivGroup iptcGroup (iptcData image) in
          (group, notifyGroupFilled group iptcIndex)
        else (iptcGroup, []) in
      Some (setGroup (setGroup m ExifGroup exifGroup) IptcGroup iptcGroup,
            removedExif ++ removedIptc ++ filledExif ++ filledIptc)
  end.

(** [ImageMetaInfoModel::getInfoForKey]; [out] is what [*label] and
    [*value] hold at the call. *)
Definition getInfoForKey (key : string) (out : string * string) (m : t)
    : option (string * string) :=
  if String.prefix "General" key then
    group ← groupAt m GeneralGroup; Some (Group.getInfoForKey group key out)
  else if String.prefix "Exif" key then
    group ← groupAt m ExifGroup; Some (Group.getInfoForKey group key out)
  else if String.prefix "Iptc" key then
    group ← groupAt m IptcGroup; Some (Group.getInfoForKey group key out)
  else Some out.

(** [ImageMetaInfoModel::getValueForKey] *)
Definition getValueForKey (key : string) (m : t) : option string :=
  snd <$> getInfoForKey key (EmptyString, EmptyString) m.

(** [ImageMetaInfoModel::keyForIndex] *)
Definition keyForIndex (m : t) (index : QModelIndex.t) : option string :=
  if QModelIndex.internalId index =? NoGroup then Some EmptyString
  else
    group ← groupAt m (QModelIndex.internalId index);
    Group.getKeyAt group (QModelIndex.row index).

(** [Qt::DisplayRole] *)
Definition DisplayRole : Z := 0.

(** [ImageMetaInfoModel::data] *)
Definition data (m : t) (index : QModelIndex.t) (role : Z) : option QVariant :=
  if negb (QModelIndex.isValid index) then Some QVariant_null
  else if role =? DisplayRole then displayData m index
  else Some QVariant_null.

Section WithLocale.

(** [i18nc("@item:intable ...", "%1x%2", width, height)] *)
Variable i18nc_dimensions : Z -> Z -> string.

(** [ImageMetaInfoModel::setImageSize].  The string with the number of
    megapixels is computed and dropped: the source has [imageSize + ...]
    where [+=] would append it. *)
Definition setImageSize (size : QSize.t) (m : t) : option (t * list ModelSignal) :=
  let imageSize :=
    if QSize.isValid size then
      let imageSize := i18nc_dimensions (QSize.width size) (QSize.height size) in
      if 100000 <? mulInt (QSize.width size) (QSize.height size) then String.append imageSize " "
      else imageSize
    else "-" in
  setGroupEntryValue GeneralGroup "General.ImageSize" imageSize m.

(** The calls a document makes on its meta info model. *)
Inductive Call :=
| SetFileItem (item : FileItem)
| SetImageSize (size : QSize.t)
| SetExiv2Image (image : option Exiv2Image).

Definition perform (call : Call) (m : t) : option (t * list ModelSignal) :=
  match call with
  | SetFileItem item => setFileItem item m
  | SetImageSize size => setImageSize size m
  | SetExiv2Image image => setExiv2Image image m
  end.

(** The model after a sequence of calls; [None] when one of them runs
    into an access outside a list. *)
Definition performAll (calls : list Call) (m : t) : option t :=
  fold_left (fun m call => m ← m; fst <$> perform call m) calls (Some m).

End WithLocale.

(** The keys of the General group. *)
Definition generalKeys : list string :=
  ["General.Name"; "General.Size"; "General.Time"; "General.ImageSize"].

(** The shape the constructor gives the model: three groups, the first
    with the four General entries. *)
Definition wellFormed (m : t) : Prop :=
  exists general exif iptc,
    mMetaInfoGroupVector m = [general; exif; iptc] /\
    map mKey (mList general) = generalKeys /\
    map mEntryLabel (mList general) = ["Name"; "File Size"; "File Time"; "Image Size"].

(** The entry [fillExivGroup] makes of a metadatum. *)
Definition entryOf (datum : Metadatum) : Entry :=
  {| mKey := key datum; mEntryLabel := tagLabel datum; mValue := printed datum |}.

(** The entries a group has after [setExiv2Image]: one per metadatum when
    the image supports the kind of metadata, none otherwise. *)
Definition exifEntries (image : option Exiv2Image) : list Entry :=
  match image with
  | Some image => if supportsExif image then map entryOf (exifData image) else []
  | None => []
  end.

Definition iptcEntries (image : option Exiv2Image) : list Entry :=
  match image with
  | Some image => if supportsIptc image then map entryOf (iptcData image) else []
  | None => []
  end.

(** A General group with the given four values. *)
Definition generalGroup (label name size time imageSize : string) : MetaInfoGroup :=
  {| mList := [ {| mKey := "General.Name"; mEntryLabel := "Name"; mValue := name |};
                {| mKey := "General.Size"; mEntryLabel := "File Size"; mValue := size |};
                {| mKey := "General.Time"; mEntryLabel := "File Time"; mValue := time |};
                {| mKey := "General.ImageSize"; mEntryLabel := "Image Size";
                   mValue := imageSize |} ];
     mLabel := label |}.

(** The entry of [group] that [getInfoForKey] reports for [key]: the first
    one with that key. *)
Definition firstWithKey (group : MetaInfoGroup) (key : string) : option Entry :=
  List.find (fun entry => String.eqb (mKey entry) key) (mList group).

(** *** Sample inputs *)

(** Width and height in decimal, as the C locale prints them. *)
Definition sampleDimensions (width height : Z) : string :=
  String.append (NilZero.string_of_int (Z.to_int width))
    (String.append "x" (NilZero.string_of_int (Z.to_int height))).

Definition sampleItem : FileItem :=
  {| itemName := "a.png"; itemSizeString := "12.0 KiB"; itemTimeString := "2009-01-01 12:00" |}.

(** The constructed model after [setFileItem sampleItem]. *)
Definition sampleModel : t :=
  match setFileItem sampleItem constructed with
  | Some (m, _) => m
  | None => constructed
  end.

(** An image with one Exif datum and without Iptc support. *)
Definition sampleImage : Exiv2Image :=
  {| supportsExif := true;
     exifData := [ {| key := "Exif.Image.Make"; tagLabel := "Manufacturer";
                      printed := "Canon" |} ];
     supportsIptc := false;
     iptcData := [] |}.

End ImageMetaInfoModel.

(** ** The information panel *)

Module InfoContextManagerItem.

(** The loop of [InfoContextManagerItem::updateOneFileInfo] over the
    preferred keys: the rows added to the key/value widget. *)
Definition updateOneFileInfo (preferredMetaInfoKeyList : list string)
    (metaInfoModel : ImageMetaInfoModel.t) : option (list (string * string)) :=
  fold_left
    (fun rows key =>
       rows ← rows;
       '(label, value) ←
         ImageMetaInfoModel.getInfoForKey key (EmptyString, EmptyString) metaInfoModel;
       if negb (String.eqb label EmptyString) && negb (String.eqb value EmptyString)
       then Some (rows ++ [(label, value)])
       else Some rows)
    preferredMetaInfoKeyList (Some []).

End InfoContextManagerItem.

(** * Properties *)

Module ThumbnailViewFacts.
Import ThumbnailView.

Section PlatformFacts.
Context `{Platform}.


Lemma state_eta (v : t) :
  v = {| mThumbnailSize := mThumbnailSize v;
         mDocumentInfoProvider := mDocumentInfoProvider v;
         mThumbnailForUrl := mThumbnailForUrl v;
         mSmoothThumbnailQueue := mSmoothThumbnailQueue v;
         mSmoothThumbnailTimer := mSmoothThumbnailTimer v;
         mWaitingThumbnail := mWaitingThumbnail v;
         mThumbnailLoadJob := mThumbnailLoadJob v;
         mBusyIndexSet := mBusyIndexSet v;
         mBusyAnimationTimeLine := mBusyAnimationTimeLine v;
         isVisible := isVisible v; model := model v;
         viewportRect := viewportRect v; isWrapping := isWrapping v;
         visualRect := visualRect v;
         updateRequests := updateRequests v;
         clockReadings := clockReadings v |}.
Proof. destruct v; reflexivity. Qed.

(** C6.  [roughAdjustThumbnail] clears the rough flag exactly when the
    larger side of the full image equals the larger side of the group
    pixmap and does not exceed the thumbnail size.  In that case the
    group pixmap itself becomes the adjusted pixmap; in the other case
    the adjusted pixmap is the group pixmap scaled to the thumbnail size
    with [KeepAspectRatio] and the fast transformation, and the rough
    flag is set.  Nothing else in the thumbnail changes. *)
Theorem roughAdjustThumbnail_final_iff (v : t) (thumbnail : Thumbnail) :
  let groupSize :=
    Z.max (pix_width (mGroupPix thumbnail)) (pix_height (mGroupPix thumbnail)) in
  let fullSize :=
    Z.max (QSize.width (mFullSize thumbnail)) (QSize.height (mFullSize thumbnail)) in
  let adjusted := roughAdjustThumbnail v thumbnail in
  (mRough adjusted = false <->
     fullSize = groupSize /\ groupSize <= mThumbnailSize v) /\
  (mRough adjusted = false -> mAdjustedPix adjusted = mGroupPix thumbnail) /\
  (mRough adjusted <> false ->
     mRough adjusted = true /\
     mAdjustedPix adjusted =
       scaled (mGroupPix thumbnail) (mThumbnailSize v) (mThumbnailSize v)
         KeepAspectRatio FastTransformation) /\
  mGroupPix adjusted = mGroupPix thumbnail /\
  mFullSize adjusted = mFullSize thumbnail /\
  mRealFullSize adjusted = mRealFullSize thumbnail /\
  mWaitingForThumbnail adjusted = mWaitingForThumbnail thumbnail /\
  mIndex adjusted = mIndex thumbnail /\
  mModificationTime adjusted = mModificationTime thumbnail.
Proof.
  intros groupSize fullSize adjusted.
  subst adjusted. unfold roughAdjustThumbnail.
  fold groupSize. fold fullSize.
  destruct (Z.eqb_spec fullSize groupSize) as [Efull|Efull];
    destruct (Z.leb_spec groupSize (mThumbnailSize v)) as [Ele|Ele]; simpl;
    repeat split; intros; try congruence; try lia.
Qed.

(** C9.  Operations on unknown items do nothing: [setThumbnail] and
    [setBrokenThumbnail] return the view unchanged (cache included) when
    the item's URL has no entry in [mThumbnailForUrl], and
    [thumbnailForIndex] on an index whose file item is null returns the
    null pixmap, stores the invalid size through [fullSize] and leaves
    the view, hence the cache, unchanged. *)
Theorem unknown_items_are_ignored :
  (forall item pixmap size v,
      mThumbnailForUrl v !! KFileItem.url item = None ->
      setThumbnail item pixmap size v = v) /\
  (forall item v,
      mThumbnailForUrl v !! KFileItem.url item = None ->
      setBrokenThumbnail item v = v) /\
  (forall index v,
      KFileItem.isNull (fileItemForIndex v index) = true ->
      exists pix fullSize v',
        thumbnailForIndex index v = (pix, fullSize, v') /\
        isNull pix = true /\
        QSize.isValid fullSize = false /\
        v' = v).
Proof.
  repeat split.
  - intros item pixmap size v Hnone. unfold setThumbnail. now rewrite Hnone.
  - intros item v Hnone. unfold setBrokenThumbnail. now rewrite Hnone.
  - intros index v Hnull.
    exists QPixmap_null, QSize.invalid, v.
    unfold thumbnailForIndex. rewrite Hnull.
    repeat split. apply QPixmap_null_isNull.
Qed.

(** C2 (amended).  While a thumbnail load job exists,
    [smoothNextThumbnail] dequeues nothing and changes no cached
    thumbnail: with a non-empty queue its only effect is to restart the
    smoothing timer with [SMOOTH_DELAY], with an empty queue it has no
    effect at all.  Conversely a call that changes the queue or the
    cache was made without a load job. *)
Theorem smoothNextThumbnail_yields_to_load_job (v : t) :
  (is_Some (mThumbnailLoadJob v) ->
     smoothNextThumbnail v = rearmed v /\
     mSmoothThumbnailQueue (smoothNextThumbnail v) = mSmoothThumbnailQueue v /\
     mThumbnailForUrl (smoothNextThumbnail v) = mThumbnailForUrl v /\
     (mSmoothThumbnailQueue v <> [] ->
        mSmoothThumbnailTimer (smoothNextThumbnail v) = QTimer.make true SMOOTH_DELAY)) /\
  (mSmoothThumbnailQueue (smoothNextThumbnail v) <> mSmoothThumbnailQueue v \/
   mThumbnailForUrl (smoothNextThumbnail v) <> mThumbnailForUrl v ->
     mThumbnailLoadJob v = None).
Proof.
  assert (Hjob : is_Some (mThumbnailLoadJob v) ->
     smoothNextThumbnail v = rearmed v /\
     mSmoothThumbnailQueue (smoothNextThumbnail v) = mSmoothThumbnailQueue v /\
     mThumbnailForUrl (smoothNextThumbnail v) = mThumbnailForUrl v /\
     (mSmoothThumbnailQueue v <> [] ->
        mSmoothThumbnailTimer (smoothNextThumbnail v) = QTimer.make true SMOOTH_DELAY)).
  { intros [job Hjob]. unfold smoothNextThumbnail, rearmed.
    destruct (mSmoothThumbnailQueue v) as [|url rest] eqn:Hq.
    - repeat split; try assumption. congruence.
    - rewrite Hjob. simpl. repeat split. now rewrite Hq. }
  split; [exact Hjob|].
  intros Hchanged.
  destruct (mThumbnailLoadJob v) as [job|] eqn:Ejob; [|reflexivity].
  destruct Hjob as (_ & Hq & Hc & _); [eauto|].
  destruct Hchanged; congruence.
Qed.

(** **** Busy state *)

Lemma updateThumbnailBusyState_set (index : QModelIndex) (busy : bool) (v : t) :
  mBusyIndexSet (updateThumbnailBusyState index busy v) =
    if busy then mBusyIndexSet v ∪ {[index]} else mBusyIndexSet v ∖ {[index]}.
Proof.
  unfold updateThumbnailBusyState.
  destruct busy; simpl; case_bool_decide as Hin; simpl.
  - apply leibniz_equiv. set_solver.
  - destruct (QTimeLine.State_eqb _ _); reflexivity.
  - case_bool_decide; reflexivity.
  - apply leibniz_equiv. set_solver.
Qed.

Lemma updateThumbnailBusyState_invariant (index : QModelIndex) (busy : bool) (v : t) :
  busyInvariant v -> busyInvariant (updateThumbnailBusyState index busy v).
Proof.
  unfold busyInvariant, updateThumbnailBusyState.
  intros Hinv.
  destruct busy; simpl; case_bool_decide as Hin; simpl; try assumption.
  - left.
    destruct (QTimeLine.State_eqb (mBusyAnimationTimeLine v) QTimeLine.Running) eqn:E;
      simpl; (split; [|set_solver]).
    + destruct (mBusyAnimationTimeLine v); simpl in E; congruence.
    + reflexivity.
  - case_bool_decide as Hempty; simpl.
    + right. split; [reflexivity|assumption].
    + left. split; [|assumption].
      destruct Hinv as [[Hrun _]|[_ Hnone]]; [assumption|].
      rewrite Hnone in Hin. set_solver.
Qed.

Lemma reportBusyStates_snoc events e v :
  reportBusyStates (events ++ [e]) v =
    updateThumbnailBusyState (fst e) (snd e) (reportBusyStates events v).
Proof. unfold reportBusyStates. now rewrite fold_left_app. Qed.

Lemma lastReported_snoc events e index :
  lastReported (events ++ [e]) index =
    if decide (fst e = index) then Some (snd e) else lastReported events index.
Proof. unfold lastReported. now rewrite fold_left_app. Qed.

(** C4.  Starting from a view in which no index is busy and the busy
    animation is not running (the state the constructor leaves), after
    any sequence of [updateThumbnailBusyState] calls [mBusyIndexSet] holds
    exactly the indexes whose last report was busy, and the timeline is
    running if and only if that set is not empty (it is not running when
    the set is empty).  Each further call adds the index when it is
    reported busy and removes it when it is reported not busy; it turns
    the timeline from not running to running when the set goes from empty
    to non-empty, from running to not running when the set becomes empty
    again, and leaves the timeline alone otherwise. *)
Theorem busy_state_tracking (v0 : t) (events : list (option nat * bool)) :
  mBusyIndexSet v0 = ∅ ->
  mBusyAnimationTimeLine v0 = QTimeLine.NotRunning ->
  let v := reportBusyStates events v0 in
  (forall index, index ∈ mBusyIndexSet v <-> lastReported events index = Some true) /\
  (mBusyAnimationTimeLine v = QTimeLine.Running <-> mBusyIndexSet v <> ∅) /\
  (mBusyAnimationTimeLine v = QTimeLine.NotRunning <-> mBusyIndexSet v = ∅) /\
  (forall index busy,
      let v' := updateThumbnailBusyState index busy v in
      mBusyIndexSet v' =
        (if busy then mBusyIndexSet v ∪ {[index]} else mBusyIndexSet v ∖ {[index]}) /\
      (mBusyIndexSet v = ∅ -> mBusyIndexSet v' <> ∅ ->
         mBusyAnimationTimeLine v = QTimeLine.NotRunning /\
         mBusyAnimationTimeLine v' = QTimeLine.Running) /\
      (mBusyIndexSet v <> ∅ -> mBusyIndexSet v' = ∅ ->
         mBusyAnimationTimeLine v = QTimeLine.Running /\
         mBusyAnimationTimeLine v' = QTimeLine.NotRunning) /\
      ((mBusyIndexSet v = ∅ <-> mBusyIndexSet v' = ∅) ->
         mBusyAnimationTimeLine v' = mBusyAnimationTimeLine v)).
Proof.
  intros Hempty Hstopped v.
  assert (Hinv : busyInvariant v).
  { subst v. induction events as [|e events IH] using rev_ind.
    - right. now split.
    - rewrite reportBusyStates_snoc. now apply updateThumbnailBusyState_invariant. }
  assert (Hset : forall index,
             index ∈ mBusyIndexSet v <-> lastReported events index = Some true).
  { subst v. clear Hinv. induction events as [|e events IH] using rev_ind.
    - intros index. simpl. rewrite Hempty. unfold lastReported; simpl.
      split; [set_solver|discriminate].
    - intros index. rewrite reportBusyStates_snoc, lastReported_snoc.
      rewrite updateThumbnailBusyState_set.
      specialize (IH index).
      destruct e as [i b]; simpl. destruct b; case_decide; subst.
      + split; [reflexivity|set_solver].
      + rewrite <- IH. set_solver.
      + split; [set_solver|discriminate].
      + rewrite <- IH. set_solver. }
  split; [exact Hset|].
  split; [|split].
  - split.
    + intros Hrun. destruct Hinv as [[_ Hne]|[Hnot _]]; congruence.
    + intros Hne. destruct Hinv as [[Hrun _]|[_ He]]; congruence.
  - split.
    + intros Hnot. destruct Hinv as [[Hrun _]|[_ He]]; congruence.
    + intros He. destruct Hinv as [[_ Hne]|[Hnot _]]; congruence.
  - intros index busy v'.
    pose proof (updateThumbnailBusyState_invariant index busy v Hinv) as Hinv'.
    fold v' in Hinv'.
    split; [apply updateThumbnailBusyState_set|].
    unfold busyInvariant in Hinv, Hinv'.
    repeat split; intros;
      destruct Hinv as [[Hrun Hne]|[Hnot He]];
      destruct Hinv' as [[Hrun' Hne']|[Hnot' He']];
      try congruence; tauto.
Qed.

(** **** Generating thumbnails *)

Lemma updateThumbnailForModifiedDocument_unfold provider index v :
  let url := KFileItem.url (fileItemForIndex v index) in
  updateThumbnailForModifiedDocument provider index v =
    update index
      (set_mThumbnailForUrl
         (<[url := documentThumbnail provider v url index
                     (currentLocalDateTime (clockReadings v))]> (mThumbnailForUrl v))
         (set_clockReadings (S (clockReadings v)) v)).
Proof.
  intros url. unfold updateThumbnailForModifiedDocument, documentThumbnail.
  fold url.
  destruct (thumbnailForDocument provider url (fromPixelSize (mThumbnailSize v)))
    as [pix fullSize].
  unfold setThumbnail.
  cbn [mThumbnailForUrl set_mThumbnailForUrl set_clockReadings].
  fold url. rewrite lookup_insert_eq, insert_insert_eq. reflexivity.
Qed.

Lemma fileItemForIndex_row v vk rows row item :
  sameSettings v vk -> model v = Some rows -> rows !! row = Some item ->
  fileItemForIndex vk (index row) = item.
Proof.
  intros (_ & _ & Hmodel & _) Hrows Hrow.
  unfold fileItemForIndex, index. rewrite Hmodel, Hrows, Hrow. reflexivity.
Qed.

Lemma visibleItemsStep_unfold v vk l rows row item :
  loopInvariant v vk -> model v = Some rows -> rows !! row = Some item ->
  visibleItemsStep (extendedVisibleRect v) (vk, l) row =
    if needsLoading v row item then
      (match mThumbnailForUrl vk !! KFileItem.url item with
       | Some _ => vk
       | None =>
           set_mThumbnailForUrl
             (<[KFileItem.url item := Thumbnail_new (index row) (KFileItem.time item)]>
                (mThumbnailForUrl vk)) vk
       end, l ++ [item])
    else
      match mDocumentInfoProvider v with
      | Some provider =>
          if intersects (extendedVisibleRect v) (visualRect v (index row)) &&
             negb (Kind_eqb (fileItemKind item) KIND_ARCHIVE) &&
             isModified provider (KFileItem.url item)
          then (updateThumbnailForModifiedDocument provider (index row) vk, l)
          else (vk, l)
      | None => (vk, l)
      end.
Proof.
  intros [Hsame Hadapted] Hrows Hrow.
  pose proof (fileItemForIndex_row v vk rows row item Hsame Hrows Hrow) as Hitem.
  destruct Hsame as (Hsize & Hprov & Hmodel & Hrect & Hjob & Hqueue).
  unfold visibleItemsStep. rewrite Hitem, Hrect, Hprov.
  unfold needsLoading.
  destruct (intersects (extendedVisibleRect v) (visualRect v (index row)));
    simpl; [|destruct (mDocumentInfoProvider v); reflexivity].
  destruct (Kind_eqb (fileItemKind item) KIND_ARCHIVE);
    simpl; [destruct (mDocumentInfoProvider v); reflexivity|].
  specialize (Hadapted (KFileItem.url item)).
  unfold reportedModified in *.
  destruct (mDocumentInfoProvider v) as [provider|].
  - destruct (isModified provider (KFileItem.url item)); simpl; [reflexivity|].
    rewrite <- Hadapted by reflexivity. unfold hasAdaptedGroupPix. rewrite Hsize.
    destruct (mThumbnailForUrl vk !! KFileItem.url item) as [th|]; [|reflexivity].
    destruct (isGroupPixAdaptedForSize th (mThumbnailSize v)); reflexivity.
  - simpl. rewrite <- Hadapted by reflexivity. unfold hasAdaptedGroupPix. rewrite Hsize.
    destruct (mThumbnailForUrl vk !! KFileItem.url item) as [th|]; [|reflexivity].
    destruct (isGroupPixAdaptedForSize th (mThumbnailSize v)); reflexivity.
Qed.

Lemma sameSettings_refl v : sameSettings v v.
Proof. repeat split. Qed.

Lemma loopInvariant_refl v : loopInvariant v v.
Proof. split; [apply sameSettings_refl|reflexivity]. Qed.

Lemma hasAdaptedGroupPix_fresh vk url url' index mtime :
  mThumbnailForUrl vk !! url = None ->
  hasAdaptedGroupPix
    (set_mThumbnailForUrl (<[url := Thumbnail_new index mtime]> (mThumbnailForUrl vk)) vk)
    url' = hasAdaptedGroupPix vk url'.
Proof.
  intros Hnone. unfold hasAdaptedGroupPix. simpl.
  destruct (decide (url = url')) as [<-|Hne].
  - rewrite lookup_insert_eq, Hnone. reflexivity.
  - now rewrite lookup_insert_ne.
Qed.

Lemma visibleItemsStep_invariant v vk l rows row item :
  loopInvariant v vk -> model v = Some rows -> rows !! row = Some item ->
  loopInvariant v (fst (visibleItemsStep (extendedVisibleRect v) (vk, l) row)).
Proof.
  intros Hinv Hrows Hrow.
  rewrite (visibleItemsStep_unfold v vk l rows row item Hinv Hrows Hrow).
  pose proof Hinv as [Hsame Hadapted].
  destruct (needsLoading v row item).
  - simpl. destruct (mThumbnailForUrl vk !! KFileItem.url item) eqn:Hcached;
      [assumption|].
    split; [exact Hsame|].
    intros url Hunmod. rewrite hasAdaptedGroupPix_fresh by assumption.
    now apply Hadapted.
  - destruct (mDocumentInfoProvider v) as [provider|] eqn:Hprov; [|assumption].
    destruct (_ && _ && isModified provider (KFileItem.url item)) eqn:Hcond;
      [|assumption].
    simpl. rewrite updateThumbnailForModifiedDocument_unfold.
    rewrite (fileItemForIndex_row v vk rows row item Hsame Hrows Hrow).
    split; [exact Hsame|].
    intros url Hunmod. rewrite <- Hadapted by assumption.
    unfold hasAdaptedGroupPix. simpl.
    rewrite lookup_insert_ne; [reflexivity|].
    intros <-. unfold reportedModified in Hunmod. rewrite Hprov in Hunmod.
    rewrite Hunmod in Hcond. now rewrite andb_false_r in Hcond.
Qed.

(** Induction over the turns of the loop. *)
Lemma visibleItemsLoop_rule v rows (P : nat -> t -> list KFileItem.t -> Prop) :
  model v = Some rows ->
  P O v [] ->
  (forall k vk l item,
      loopInvariant v vk -> rows !! k = Some item -> P k vk l ->
      P (S k) (fst (visibleItemsStep (extendedVisibleRect v) (vk, l) k))
              (snd (visibleItemsStep (extendedVisibleRect v) (vk, l) k))) ->
  loopInvariant v (fst (visibleItemsLoop v)) /\
  P (length rows) (fst (visibleItemsLoop v)) (snd (visibleItemsLoop v)).
Proof.
  intros Hrows Hinit Hstep.
  unfold visibleItemsLoop, rowCount. rewrite Hrows.
  assert (Hall : forall n, (n <= length rows)%nat ->
            loopInvariant v
              (fst (fold_left (visibleItemsStep (extendedVisibleRect v)) (seq 0 n) (v, []))) /\
            P n (fst (fold_left (visibleItemsStep (extendedVisibleRect v)) (seq 0 n) (v, [])))
                (snd (fold_left (visibleItemsStep (extendedVisibleRect v)) (seq 0 n) (v, [])))).
  { induction n as [|n IH]; intros Hn.
    - simpl. split; [apply loopInvariant_refl|assumption].
    - rewrite seq_S, fold_left_app. simpl.
      destruct IH as [Hinv HP]; [lia|].
      destruct (lookup_lt_is_Some_2 rows n) as [item Hitem]; [lia|].
      destruct (fold_left _ (seq 0 n) (v, [])) as [vk l]. simpl in *.
      split.
      + now apply (visibleItemsStep_invariant v vk l rows n item).
      + now apply (Hstep n vk l item). }
  now apply Hall.
Qed.

Lemma rowsToLoad_app v row rows1 rows2 :
  rowsToLoad v row (rows1 ++ rows2) =
    rowsToLoad v row rows1 ++ rowsToLoad v (row + length rows1)%nat rows2.
Proof.
  revert row. induction rows1 as [|item rows1 IH]; intros row; simpl.
  - now rewrite Nat.add_0_r.
  - rewrite IH, <- app_assoc.
    now replace (row + S (length rows1))%nat with (S row + length rows1)%nat by lia.
Qed.



Lemma visibleItemsStep_keeps_entries v vk l rows row item url :
  loopInvariant v vk -> model v = Some rows -> rows !! row = Some item ->
  is_Some (mThumbnailForUrl vk !! url) ->
  is_Some (mThumbnailForUrl
             (fst (visibleItemsStep (extendedVisibleRect v) (vk, l) row)) !! url).
Proof.
  intros Hinv Hrows Hrow Hsome.
  rewrite (visibleItemsStep_unfold v vk l rows row item Hinv Hrows Hrow).
  destruct (needsLoading v row item).
  - simpl. destruct (mThumbnailForUrl vk !! KFileItem.url item); [assumption|].
    simpl. apply lookup_insert_is_Some'. now right.
  - destruct (mDocumentInfoProvider v) as [provider|]; [|assumption].
    destruct (_ && _ && _); [|assumption].
    simpl. rewrite updateThumbnailForModifiedDocument_unfold. simpl.
    apply lookup_insert_is_Some'. now right.
Qed.

Lemma visibleItemsLoop_spec v rows :
  model v = Some rows ->
  loopInvariant v (fst (visibleItemsLoop v)) /\
  snd (visibleItemsLoop v) = rowsToLoad v 0 rows /\
  (forall item,
      item ∈ snd (visibleItemsLoop v) ->
      is_Some (mThumbnailForUrl (fst (visibleItemsLoop v)) !! KFileItem.url item)).
Proof.
  intros Hrows.
  destruct (visibleItemsLoop_rule v rows
              (fun k vk l =>
                 l = rowsToLoad v 0 (take k rows) /\
                 forall item, item ∈ l ->
                              is_Some (mThumbnailForUrl vk !! KFileItem.url item))
              Hrows) as (Hinv & Hlist & Hcached).
  - split; [reflexivity|]. intros item Hin. now apply elem_of_nil in Hin.
  - intros k vk l item Hinv Hk [Hl Hcached].
    assert (Hkeeps : forall url,
               is_Some (mThumbnailForUrl vk !! url) ->
               is_Some (mThumbnailForUrl
                          (fst (visibleItemsStep (extendedVisibleRect v) (vk, l) k)) !! url)).
    { intros url. now apply (visibleItemsStep_keeps_entries v vk l rows k item). }
    rewrite (visibleItemsStep_unfold v vk l rows k item Hinv Hrows Hk) in *.
    rewrite (take_S_r rows k item Hk), rowsToLoad_app. simpl.
    rewrite length_take, Nat.min_l by (apply Nat.lt_le_incl; now apply (lookup_lt_Some rows k item)).
    destruct (needsLoading v k item) eqn:Hneeds.
    + split; [simpl; now rewrite Hl|].
      intros item' Hin. simpl in *. apply elem_of_app in Hin as [Hin|Hin].
      * now apply Hkeeps, Hcached.
      * apply list_elem_of_singleton in Hin. subst item'.
        destruct (mThumbnailForUrl vk !! KFileItem.url item) eqn:Hitem.
        -- rewrite Hitem. eauto.
        -- simpl. rewrite lookup_insert_eq. eauto.
    + assert (Hsnd : snd match mDocumentInfoProvider v with
                        | Some provider =>
                            if intersects (extendedVisibleRect v) (visualRect v (index k)) &&
                               negb (Kind_eqb (fileItemKind item) KIND_ARCHIVE) &&
                               isModified provider (KFileItem.url item)
                            then (updateThumbnailForModifiedDocument provider (index k) vk, l)
                            else (vk, l)
                        | None => (vk, l)
                        end = l).
      { destruct (mDocumentInfoProvider v); [destruct (_ && _ && _)|]; reflexivity. }
      rewrite Hsnd. split; [now rewrite app_nil_r|].
      intros item' Hin. now apply Hkeeps, Hcached.
  - split; [assumption|]. split; [|assumption].
    now rewrite Hlist, firstn_all.
Qed.

Lemma visibleItemsLoop_eq v rows :
  model v = Some rows ->
  visibleItemsLoop v = (fst (visibleItemsLoop v), rowsToLoad v 0 rows).
Proof.
  intros Hrows.
  destruct (visibleItemsLoop_spec v rows Hrows) as (_ & Hlist & _).
  rewrite <- Hlist. now destruct (visibleItemsLoop v).
Qed.

Lemma generateThumbnailsForVisibleItems_unfold v rows :
  isVisible v = true ->
  model v = Some rows ->
  generateThumbnailsForVisibleItems v =
    match rowsToLoad v 0 rows with
    | [] => fst (visibleItemsLoop v)
    | _ :: _ => generateThumbnailsForItems (rowsToLoad v 0 rows) (fst (visibleItemsLoop v))
    end.
Proof.
  intros Hvisible Hrows. unfold generateThumbnailsForVisibleItems.
  rewrite Hvisible, Hrows, (visibleItemsLoop_eq v rows Hrows). reflexivity.
Qed.


(** A hidden view, or one without a model, generates nothing. *)
Lemma generateThumbnailsForVisibleItems_hidden v :
  isVisible v = false \/ model v = None ->
  generateThumbnailsForVisibleItems v = v.
Proof.
  unfold generateThumbnailsForVisibleItems.
  intros [-> | ->]; [reflexivity|].
  now rewrite orb_true_r.
Qed.


Lemma generateThumbnailsForItems_cache list v :
  mThumbnailForUrl (generateThumbnailsForItems list v) = mThumbnailForUrl v.
Proof.
  unfold generateThumbnailsForItems. now destruct (mThumbnailLoadJob v).
Qed.




(** **** Repainting *)

Lemma set_mThumbnailForUrl_same (v : t) :
  set_mThumbnailForUrl (mThumbnailForUrl v) v = v.
Proof. now destruct v. Qed.

Lemma iconForDirOrArchive_fixed v v' item thumbnail thumbnail' :
  mThumbnailSize v' = mThumbnailSize v ->
  mGroupPix thumbnail' = mGroupPix (iconForDirOrArchive v item thumbnail) ->
  mFullSize thumbnail' = mFullSize (iconForDirOrArchive v item thumbnail) ->
  mWaitingForThumbnail thumbnail' =
    mWaitingForThumbnail (iconForDirOrArchive v item thumbnail) ->
  iconForDirOrArchive v' item thumbnail' = thumbnail'.
Proof.
  unfold iconForDirOrArchive. intros -> Hgroup Hfull Hwaiting.
  destruct (Kind_eqb (fileItemKind item) KIND_ARCHIVE || Kind_eqb (fileItemKind item) KIND_DIR);
    [|reflexivity].
  destruct (isNull (mGroupPix thumbnail') ||
            (pix_width (mGroupPix thumbnail') <? pixelSize (fromPixelSize (mThumbnailSize v))))
    eqn:Hagain; [|reflexivity].
  destruct (isNull (mGroupPix thumbnail) ||
            (pix_width (mGroupPix thumbnail) <? pixelSize (fromPixelSize (mThumbnailSize v))))
    eqn:Hfirst.
  - destruct thumbnail'; simpl in *.
    destruct (Kind_eqb (fileItemKind item) KIND_ARCHIVE); simpl in *; subst;
      reflexivity.
  - rewrite Hgroup, Hfirst in Hagain. discriminate.
Qed.

Lemma roughAdjustThumbnail_fields v thumbnail :
  mGroupPix (roughAdjustThumbnail v thumbnail) = mGroupPix thumbnail /\
  mFullSize (roughAdjustThumbnail v thumbnail) = mFullSize thumbnail /\
  mWaitingForThumbnail (roughAdjustThumbnail v thumbnail) = mWaitingForThumbnail thumbnail.
Proof.
  unfold roughAdjustThumbnail. destruct (_ && _); repeat split.
Qed.

Lemma roughAdjustThumbnail_idempotent v v' thumbnail :
  mThumbnailSize v' = mThumbnailSize v ->
  roughAdjustThumbnail v' (roughAdjustThumbnail v thumbnail) = roughAdjustThumbnail v thumbnail.
Proof.
  intros Hsize.
  destruct (roughAdjustThumbnail_fields v thumbnail) as (Hgroup & Hfull & _).
  unfold roughAdjustThumbnail at 1. rewrite Hsize, Hgroup, Hfull.
  unfold roughAdjustThumbnail.
  destruct ((Z.max (QSize.width (mFullSize thumbnail)) (QSize.height (mFullSize thumbnail)) =?
             Z.max (pix_width (mGroupPix thumbnail)) (pix_height (mGroupPix thumbnail))) &&
            (Z.max (pix_width (mGroupPix thumbnail)) (pix_height (mGroupPix thumbnail)) <=?
             mThumbnailSize v)); reflexivity.
Qed.

(** X1.  Painting is idempotent: asking for the thumbnail of the same index a
    second time returns the same pixmap and the same full size and leaves
    the view, cache, smoothing queue and timer included, as the first call
    left it. *)
Theorem thumbnailForIndex_idempotent (index : QModelIndex) (v : t) :
  thumbnailForIndex index (snd (thumbnailForIndex index v)) = thumbnailForIndex index v.
Proof.
  unfold thumbnailForIndex at 2 3.
  destruct (KFileItem.isNull (fileItemForIndex v index)) eqn:Hnull.
  { simpl. unfold thumbnailForIndex. now rewrite Hnull. }
  set (item := fileItemForIndex v index) in *.
  set (url := KFileItem.url item).
  set (loaded := iconForDirOrArchive v item (findOrCreate v index item)).
  destruct (isNull (mGroupPix loaded)) eqn:Hgroup.
  - (* still waiting for the thumbnail *)
    cbn [snd].
    set (w := set_mThumbnailForUrl (<[url:=loaded]> (mThumbnailForUrl v)) v).
    assert (Hitem : fileItemForIndex w index = item) by reflexivity.
    assert (Hfind : findOrCreate w index item = loaded).
    { unfold findOrCreate. fold url. subst w. simpl. now rewrite lookup_insert_eq. }
    unfold thumbnailForIndex. rewrite Hitem, Hnull, Hfind. fold url.
    rewrite (iconForDirOrArchive_fixed v w item (findOrCreate v index item) loaded)
      by reflexivity.
    rewrite Hgroup. subst w. simpl. now rewrite insert_insert_eq.
  - set (shown := if isNull (mAdjustedPix loaded)
                  then roughAdjustThumbnail v loaded else loaded).
    set (stored := set_mThumbnailForUrl (<[url:=shown]> (mThumbnailForUrl v)) v).
    assert (Hfields : mGroupPix shown = mGroupPix loaded /\
                      mFullSize shown = mFullSize loaded /\
                      mWaitingForThumbnail shown = mWaitingForThumbnail loaded).
    { subst shown. destruct (isNull (mAdjustedPix loaded));
        [apply roughAdjustThumbnail_fields|repeat split]. }
    destruct Hfields as (Hg & Hf & Hw).
    assert (Hagain : forall w,
               mThumbnailSize w = mThumbnailSize v ->
               fileItemForIndex w index = item ->
               mThumbnailForUrl w !! url = Some shown ->
               mWaitingThumbnail w = mWaitingThumbnail v ->
               (mRough shown = true -> url ∈ mSmoothThumbnailQueue w) ->
               <[url:=shown]> (mThumbnailForUrl w) = mThumbnailForUrl w ->
               thumbnailForIndex index w = (mAdjustedPix shown, mRealFullSize shown, w)).
    { intros w Hsize Hitem Hcached Hwaiting Hqueued Hinsert.
      unfold thumbnailForIndex. rewrite Hitem, Hnull. fold url.
      unfold findOrCreate. fold url. rewrite Hcached.
      rewrite (iconForDirOrArchive_fixed v w item (findOrCreate v index item) shown)
        by assumption.
      rewrite Hg, Hgroup.
      assert (Hshown : (if isNull (mAdjustedPix shown)
                        then roughAdjustThumbnail w shown else shown) = shown).
      { destruct (isNull (mAdjustedPix shown)) eqn:Hadjusted; [|reflexivity].
        subst shown. destruct (isNull (mAdjustedPix loaded)) eqn:Hfirst.
        - now apply roughAdjustThumbnail_idempotent.
        - congruence. }
      rewrite Hshown. cbn [mSmoothThumbnailQueue set_mThumbnailForUrl].
      rewrite Hinsert, !set_mThumbnailForUrl_same.
      destruct (mRough shown) eqn:Hrough; simpl; [|reflexivity].
      rewrite bool_decide_eq_true_2 by now apply Hqueued.
      reflexivity. }
    assert (Hstored : <[url:=shown]> (<[url:=shown]> (mThumbnailForUrl v))
                      = <[url:=shown]> (mThumbnailForUrl v)) by apply insert_insert_eq.
    cbn zeta. fold stored.
    destruct (mRough shown && negb (bool_decide (url ∈ mSmoothThumbnailQueue stored)))
      eqn:Henqueue; cbn [snd].
    + destruct (negb (QTimer.isActive
                        (mSmoothThumbnailTimer
                           (set_mSmoothThumbnailQueue (mSmoothThumbnailQueue stored ++ [url])
                              stored)))); cbn [snd];
        (rewrite Hagain;
         [reflexivity|reflexivity|reflexivity|apply lookup_insert_eq|reflexivity| |exact Hstored]);
        intros _; simpl; set_solver.
    + rewrite Hagain;
        [reflexivity|reflexivity|reflexivity|apply lookup_insert_eq|reflexivity| |exact Hstored].
      intros Hrough. rewrite Hrough in Henqueue. simpl in Henqueue.
      apply negb_false_iff, bool_decide_eq_true in Henqueue. exact Henqueue.
Qed.

(** **** The smoothing queue *)

Lemma queueInvariant_same_queue v v' :
  queueInvariant v ->
  mSmoothThumbnailQueue v' = mSmoothThumbnailQueue v ->
  (forall url, is_Some (mThumbnailForUrl v !! url) -> is_Some (mThumbnailForUrl v' !! url)) ->
  queueInvariant v'.
Proof.
  intros [Hnodup Hcached] Hqueue Hkeeps. split; rewrite Hqueue; [assumption|].
  intros url Hin. now apply Hkeeps, Hcached.
Qed.

Lemma thumbnailForIndex_queueInvariant index v :
  queueInvariant v -> queueInvariant (snd (thumbnailForIndex index v)).
Proof.
  intros Hinv. pose proof Hinv as [Hnodup Hcached].
  unfold thumbnailForIndex.
  destruct (KFileItem.isNull (fileItemForIndex v index)); [assumption|].
  set (url := KFileItem.url (fileItemForIndex v index)).
  set (loaded := iconForDirOrArchive v _ _).
  destruct (isNull (mGroupPix loaded)).
  { apply (queueInvariant_same_queue v); [assumption|reflexivity|].
    intros u Hu. simpl. apply lookup_insert_is_Some'. now right. }
  set (shown := if isNull (mAdjustedPix loaded) then _ else _).
  cbn zeta.
  set (stored := set_mThumbnailForUrl (<[url:=shown]> (mThumbnailForUrl v)) v).
  assert (Hstored : queueInvariant stored).
  { apply (queueInvariant_same_queue v); [assumption|reflexivity|].
    intros u Hu. simpl. apply lookup_insert_is_Some'. now right. }
  destruct (mRough shown && negb (bool_decide (url ∈ mSmoothThumbnailQueue stored)))
    eqn:Henqueue; [|assumption].
  apply andb_prop in Henqueue as [_ Hfresh].
  apply negb_true_iff, bool_decide_eq_false in Hfresh.
  assert (Hqueued : queueInvariant
            (set_mSmoothThumbnailQueue (mSmoothThumbnailQueue stored ++ [url]) stored)).
  { split; simpl.
    - apply NoDup_app. split; [assumption|]. split; [|apply NoDup_singleton].
      intros u Hu Hu'. apply list_elem_of_singleton in Hu'. subst u. now apply Hfresh.
    - intros u Hu. apply elem_of_app in Hu as [Hu|Hu].
      + apply lookup_insert_is_Some'. right. now apply Hcached.
      + apply list_elem_of_singleton in Hu. subst u. rewrite lookup_insert_eq. eauto. }
  destruct (negb (QTimer.isActive _)); exact Hqueued.
Qed.

Lemma setThumbnail_queueInvariant item pixmap size v :
  queueInvariant v -> queueInvariant (setThumbnail item pixmap size v).
Proof.
  intros Hinv. unfold setThumbnail.
  destruct (mThumbnailForUrl v !! KFileItem.url item); [|assumption].
  apply (queueInvariant_same_queue v); [assumption|reflexivity|].
  intros u Hu. simpl. apply lookup_insert_is_Some'. now right.
Qed.

Lemma setBrokenThumbnail_queueInvariant item v :
  queueInvariant v -> queueInvariant (setBrokenThumbnail item v).
Proof.
  intros Hinv. unfold setBrokenThumbnail.
  destruct (mThumbnailForUrl v !! KFileItem.url item); [|assumption].
  destruct (fileItemKind item);
    (apply (queueInvariant_same_queue v); [assumption|reflexivity|]);
    intros u Hu; simpl; apply lookup_insert_is_Some'; now right.
Qed.

Lemma smoothNextThumbnail_queueInvariant v :
  queueInvariant v -> queueInvariant (smoothNextThumbnail v).
Proof.
  intros Hinv. pose proof Hinv as [Hnodup Hcached]. unfold smoothNextThumbnail.
  destruct (mSmoothThumbnailQueue v) as [|url rest] eqn:Hqueue; [assumption|].
  destruct (mThumbnailLoadJob v).
  { apply (queueInvariant_same_queue v); [assumption|reflexivity|trivial]. }
  apply NoDup_cons in Hnodup as [_ Hrest].
  assert (Hkept : forall u, u ∈ rest -> is_Some (mThumbnailForUrl v !! u)).
  { intros u Hu. apply Hcached. now apply list_elem_of_further. }
  simpl.
  destruct (mThumbnailForUrl v !! url) as [thumbnail|]; [|now split].
  assert (Hsmoothed : forall w,
             mSmoothThumbnailQueue w = rest ->
             mThumbnailForUrl w =
               <[url:=set_mRough false
                        (set_mAdjustedPix
                           (scaled (mGroupPix thumbnail) (mThumbnailSize v) (mThumbnailSize v)
                              KeepAspectRatio SmoothTransformation) thumbnail)]>
                 (mThumbnailForUrl v) ->
             queueInvariant w).
  { intros w Hq Hc. split; rewrite Hq; [assumption|].
    intros u Hu. rewrite Hc. apply lookup_insert_is_Some'. right. now apply Hkept. }
  destruct (bool_decide (is_Some (mIndex thumbnail))); destruct rest; simpl;
    apply Hsmoothed; reflexivity.
Qed.


Lemma generateThumbnailsForItems_queue list v :
  mSmoothThumbnailQueue (generateThumbnailsForItems list v) = mSmoothThumbnailQueue v.
Proof.
  unfold generateThumbnailsForItems. now destruct (mThumbnailLoadJob v).
Qed.

Lemma generateThumbnailsForVisibleItems_keeps v :
  mSmoothThumbnailQueue (generateThumbnailsForVisibleItems v) = mSmoothThumbnailQueue v /\
  forall url,
    is_Some (mThumbnailForUrl v !! url) ->
    is_Some (mThumbnailForUrl (generateThumbnailsForVisibleItems v) !! url).
Proof.
  destruct (isVisible v) eqn:Hvisible;
    [|rewrite (generateThumbnailsForVisibleItems_hidden v (or_introl Hvisible)); now split].
  destruct (model v) as [rows|] eqn:Hrows;
    [|rewrite (generateThumbnailsForVisibleItems_hidden v (or_intror Hrows)); now split].
  rewrite (generateThumbnailsForVisibleItems_unfold v rows Hvisible Hrows).
  destruct (visibleItemsLoop_rule v rows
              (fun _ vk _ =>
                 forall url, is_Some (mThumbnailForUrl v !! url) ->
                             is_Some (mThumbnailForUrl vk !! url))
              Hrows) as (((_ & _ & _ & _ & _ & Hqueue) & _) & Hkeeps).
  - trivial.
  - intros k vk l item Hinv Hk IH url Hurl.
    apply (visibleItemsStep_keeps_entries v vk l rows k item); auto.
  - destruct (rowsToLoad v 0 rows);
      rewrite ?generateThumbnailsForItems_queue, ?generateThumbnailsForItems_cache;
      now split.
Qed.

Lemma handle_queueInvariant e v : queueInvariant v -> queueInvariant (handle e v).
Proof.
  intros Hinv. destruct e as [index|item pixmap size|item| | |index busy|index]; simpl.
  - now apply thumbnailForIndex_queueInvariant.
  - now apply setThumbnail_queueInvariant.
  - now apply setBrokenThumbnail_queueInvariant.
  - now apply smoothNextThumbnail_queueInvariant.
  - destruct (generateThumbnailsForVisibleItems_keeps v) as [Hqueue Hkeeps].
    now apply (queueInvariant_same_queue v).
  - apply (queueInvariant_same_queue v); [assumption| |].
    + unfold updateThumbnailBusyState.
      repeat (match goal with |- context [if ?b then _ else _] => destruct b end);
        reflexivity.
    + unfold updateThumbnailBusyState.
      repeat (match goal with |- context [if ?b then _ else _] => destruct b end);
        trivial.
  - unfold updateThumbnail.
    assert (Henqueue : queueInvariant
                         (generateThumbnailsForItems [fileItemForIndex v index] v)).
    { apply (queueInvariant_same_queue v); [assumption| |].
      - apply generateThumbnailsForItems_queue.
      - now rewrite generateThumbnailsForItems_cache. }
    destruct (mDocumentInfoProvider v) as [provider|]; [|assumption].
    destruct (isModified provider _); [|assumption].
    rewrite updateThumbnailForModifiedDocument_unfold.
    apply (queueInvariant_same_queue v); [assumption|reflexivity|].
    intros u Hu. simpl. apply lookup_insert_is_Some'. now right.
Qed.

(** X2.  The smoothing queue never holds a URL twice and never holds a URL
    without a cache entry: this holds in every state reached from a view
    with an empty queue by paint requests, load-job answers, timer
    timeouts and provider signals, in any order.  In such a state a
    smoothing timeout that dequeues a URL always finds its thumbnail, so
    the branch "not in mThumbnailForUrl. This should not happen!" is not
    taken. *)
Theorem smoothing_queue_invariant (v0 : t) (events : list Event) :
  mSmoothThumbnailQueue v0 = [] ->
  let v := run events v0 in
  NoDup (mSmoothThumbnailQueue v) /\
  (forall url, url ∈ mSmoothThumbnailQueue v -> is_Some (mThumbnailForUrl v !! url)) /\
  (forall url rest,
      mSmoothThumbnailQueue v = url :: rest ->
      mThumbnailLoadJob v = None ->
      exists thumbnail,
        mThumbnailForUrl v !! url = Some thumbnail /\
        mThumbnailForUrl (smoothNextThumbnail v) !! url = Some (smoothed v thumbnail)).
Proof.
  intros Hempty v.
  assert (Hinv : queueInvariant v).
  { subst v. induction events as [|e events IH] using rev_ind.
    - split; simpl; rewrite Hempty; [constructor|].
      intros url Hin. now apply elem_of_nil in Hin.
    - unfold run in *. rewrite fold_left_app. simpl. now apply handle_queueInvariant. }
  destruct Hinv as [Hnodup Hcached].
  split; [assumption|]. split; [assumption|].
  intros url rest Hqueue Hjob.
  destruct (Hcached url) as [thumbnail Hthumbnail]; [rewrite Hqueue; apply list_elem_of_here|].
  exists thumbnail. split; [assumption|].
  unfold smoothNextThumbnail. rewrite Hqueue, Hjob. simpl. rewrite Hthumbnail.
  fold (smoothed v thumbnail).
  case_bool_decide; destruct rest; simpl; apply lookup_insert_eq.
Qed.

(** **** Draining the queue *)

Lemma smoothed_again v w thumbnail :
  mThumbnailSize w = mThumbnailSize v ->
  smoothed w (smoothed v thumbnail) = smoothed v thumbnail.
Proof. intros Hsize. unfold smoothed. now rewrite Hsize. Qed.

Lemma smoothed_size v w thumbnail :
  mThumbnailSize w = mThumbnailSize v -> smoothed w thumbnail = smoothed v thumbnail.
Proof. intros Hsize. unfold smoothed. now rewrite Hsize. Qed.

Lemma smoothNextThumbnail_step v url rest :
  mSmoothThumbnailQueue v = url :: rest ->
  mThumbnailLoadJob v = None ->
  mSmoothThumbnailQueue (smoothNextThumbnail v) = rest /\
  mThumbnailLoadJob (smoothNextThumbnail v) = None /\
  mThumbnailSize (smoothNextThumbnail v) = mThumbnailSize v /\
  mThumbnailForUrl (smoothNextThumbnail v) =
    match mThumbnailForUrl v !! url with
    | Some thumbnail => <[url := smoothed v thumbnail]> (mThumbnailForUrl v)
    | None => mThumbnailForUrl v
    end.
Proof.
  intros Hqueue Hjob. unfold smoothNextThumbnail. rewrite Hqueue, Hjob. simpl.
  destruct (mThumbnailForUrl v !! url) as [thumbnail|]; [|now repeat split].
  fold (smoothed v thumbnail).
  case_bool_decide; destruct rest; simpl; now repeat split.
Qed.

(** X3.  Without a load job, as many smoothing timeouts as there are queued
    URLs empty the queue: afterwards every cached thumbnail whose URL was
    queued is smooth (its adjusted pixmap is the smooth scaling of its
    group pixmap and it is not rough), every other cache entry is as it
    was, and there is still no load job. *)
Theorem smoothNextThumbnails_drains (v : t) :
  mThumbnailLoadJob v = None ->
  let v' := smoothNextThumbnails (length (mSmoothThumbnailQueue v)) v in
  mSmoothThumbnailQueue v' = [] /\
  mThumbnailLoadJob v' = None /\
  (forall url thumbnail,
      url ∈ mSmoothThumbnailQueue v ->
      mThumbnailForUrl v !! url = Some thumbnail ->
      mThumbnailForUrl v' !! url = Some (smoothed v thumbnail) /\
      mRough (smoothed v thumbnail) = false /\
      mGroupPix (smoothed v thumbnail) = mGroupPix thumbnail) /\
  (forall url,
      url ∉ mSmoothThumbnailQueue v ->
      mThumbnailForUrl v' !! url = mThumbnailForUrl v !! url).
Proof.
  intros Hjob. simpl.
  remember (mSmoothThumbnailQueue v) as queue eqn:Hqueue. symmetry in Hqueue.
  revert v Hjob Hqueue.
  induction queue as [|head rest IH]; intros v Hjob Hqueue.
  - simpl. split; [assumption|]. split; [assumption|]. split.
    + intros url thumbnail Hin. now apply elem_of_nil in Hin.
    + reflexivity.
  - unfold smoothNextThumbnails in *. simpl length. rewrite Nat.iter_succ_r.
    destruct (smoothNextThumbnail_step v head rest Hqueue Hjob)
      as (Hqueue1 & Hjob1 & Hsize1 & Hcache1).
    destruct (IH (smoothNextThumbnail v) Hjob1 Hqueue1)
      as (Hempty & Hnojob & Hsmooth & Hother).
    split; [assumption|]. split; [assumption|]. split.
    + intros url thumbnail Hin Hcached.
      split; [|now split].
      destruct (decide (url ∈ rest)) as [Hrest|Hrest].
      * destruct (decide (url = head)) as [->|Hne].
        -- rewrite Hcached in Hcache1.
           destruct (Hsmooth head (smoothed v thumbnail) Hrest) as [Hfinal _].
           { rewrite Hcache1. apply lookup_insert_eq. }
           rewrite Hfinal. f_equal. now apply smoothed_again.
        -- destruct (Hsmooth url thumbnail Hrest) as [Hfinal _].
           { rewrite Hcache1. destruct (mThumbnailForUrl v !! head);
               [now rewrite lookup_insert_ne|assumption]. }
           rewrite Hfinal. f_equal. now apply smoothed_size.
      * apply elem_of_cons in Hin as [->|Hin]; [|contradiction].
        rewrite (Hother head Hrest), Hcache1, Hcached. apply lookup_insert_eq.
    + intros url Hnotin.
      apply not_elem_of_cons in Hnotin as [Hne Hrest].
      rewrite (Hother url Hrest), Hcache1.
      destruct (mThumbnailForUrl v !! head); [now rewrite lookup_insert_ne|reflexivity].
Qed.

(** **** The pipeline *)

(** The turn of a queued URL: without a load job, after as many smoothing
    timeouts as there are URLs queued before it, the URL is at the head
    of the queue and its cache entry is still the one it had. *)
Lemma smoothNextThumbnails_turn before v url after thumbnail :
  mSmoothThumbnailQueue v = before ++ url :: after ->
  url ∉ before ->
  mThumbnailLoadJob v = None ->
  mThumbnailForUrl v !! url = Some thumbnail ->
  mSmoothThumbnailQueue (smoothNextThumbnails (length before) v) = url :: after /\
  mThumbnailLoadJob (smoothNextThumbnails (length before) v) = None /\
  mThumbnailSize (smoothNextThumbnails (length before) v) = mThumbnailSize v /\
  mThumbnailForUrl (smoothNextThumbnails (length before) v) !! url = Some thumbnail.
Proof.
  revert v. induction before as [|head before IH]; intros v Hqueue Hnotin Hjob Hcached.
  - now repeat split.
  - unfold smoothNextThumbnails in *. cbn [length]. rewrite Nat.iter_succ_r.
    apply not_elem_of_cons in Hnotin as [Hne Hnotin].
    destruct (smoothNextThumbnail_step v head (before ++ url :: after) Hqueue Hjob)
      as (Hqueue1 & Hjob1 & Hsize1 & Hcache1).
    destruct (IH (smoothNextThumbnail v) Hqueue1 Hnotin Hjob1)
      as (Hturn & Hnojob & Hsize & Hentry).
    { rewrite Hcache1. destruct (mThumbnailForUrl v !! head);
        [now rewrite lookup_insert_ne by congruence|assumption]. }
    repeat split; try assumption. congruence.
Qed.

(** C1 (amended).  [setThumbnail] stores the loaded group pixmap in the
    cached entry and drops the adjusted pixmap.  For an item whose group
    pixmap is available, [thumbnailForIndex] returns the adjusted pixmap
    of the cached entry, producing it with [roughAdjustThumbnail] when the
    entry has none: a fast scaling of the group pixmap, or, when the group
    pixmap is already the full image at or below the thumbnail size, the
    group pixmap itself with the rough flag cleared.  Whenever the entry
    is rough afterwards its URL is in the smoothing queue (appended when
    it was not queued, and only then); when the entry is not rough the
    call leaves the queue as it was, so that a URL queued before stays
    queued.  [smoothNextThumbnail], run without a load job, dequeues the
    URL at the head of the queue, replaces the adjusted pixmap of its
    entry with a smooth scaling of the group pixmap and clears the rough
    flag; it does not look at the rough flag.  For a rough entry and
    without a load job, the smoothing timeouts that follow the call reach
    the URL after as many timeouts as there are URLs queued before it,
    with the entry as the call left it, and the next timeout
    smooth-scales it: load, rough-scale, smooth-scale, in that order. *)
Theorem thumbnailForIndex_pipeline (index : QModelIndex) (v : t) :
  let item := fileItemForIndex v index in
  let url := KFileItem.url item in
  let loaded := loadedThumbnail v index in
  let shown :=
    if isNull (mAdjustedPix loaded) then roughAdjustThumbnail v loaded else loaded in
  KFileItem.isNull item = false ->
  isNull (mGroupPix loaded) = false ->
  (forall w pixmap size thumbnail,
      mThumbnailForUrl w !! url = Some thumbnail ->
      exists thumbnail',
        mThumbnailForUrl (setThumbnail item pixmap size w) !! url = Some thumbnail' /\
        mGroupPix thumbnail' = pixmap /\
        mAdjustedPix thumbnail' = QPixmap_null /\
        mWaitingForThumbnail thumbnail' = false) /\
  (exists v',
      thumbnailForIndex index v = (mAdjustedPix shown, mRealFullSize shown, v') /\
      mThumbnailForUrl v' !! url = Some shown /\
      (mRough shown = true -> url ∈ mSmoothThumbnailQueue v') /\
      mSmoothThumbnailQueue v' =
        (if mRough shown && negb (bool_decide (url ∈ mSmoothThumbnailQueue v))
         then mSmoothThumbnailQueue v ++ [url]
         else mSmoothThumbnailQueue v) /\
      (mSmoothThumbnailQueue v' <> [] ->
         mSmoothThumbnailQueue v = [] ->
         QTimer.isActive (mSmoothThumbnailTimer v') = true) /\
      mThumbnailLoadJob v' = mThumbnailLoadJob v /\
      mThumbnailSize v' = mThumbnailSize v /\
      (mRough shown = false -> mSmoothThumbnailQueue v' = mSmoothThumbnailQueue v) /\
      (mRough shown = true ->
       mThumbnailLoadJob v = None ->
       exists before after,
         mSmoothThumbnailQueue v' = before ++ url :: after /\
         (url ∉ before) /\
         mSmoothThumbnailQueue (smoothNextThumbnails (length before) v') = url :: after /\
         mThumbnailForUrl (smoothNextThumbnails (length before) v') !! url = Some shown /\
         mSmoothThumbnailQueue
           (smoothNextThumbnail (smoothNextThumbnails (length before) v')) = after /\
         mThumbnailForUrl
           (smoothNextThumbnail (smoothNextThumbnails (length before) v')) !! url
           = Some (smoothed v shown) /\
         mRough (smoothed v shown) = false /\
         mAdjustedPix (smoothed v shown) =
           scaled (mGroupPix shown) (mThumbnailSize v) (mThumbnailSize v)
             KeepAspectRatio SmoothTransformation)) /\
  (forall w rest thumbnail,
      mSmoothThumbnailQueue w = url :: rest ->
      mThumbnailLoadJob w = None ->
      mThumbnailForUrl w !! url = Some thumbnail ->
      mSmoothThumbnailQueue (smoothNextThumbnail w) = rest /\
      mThumbnailForUrl (smoothNextThumbnail w) !! url = Some (smoothed w thumbnail) /\
      mRough (smoothed w thumbnail) = false /\
      mGroupPix (smoothed w thumbnail) = mGroupPix thumbnail).
Proof.
  intros item url loaded shown Hitem Hgroup.
  assert (Hpaint :
    exists v',
      thumbnailForIndex index v = (mAdjustedPix shown, mRealFullSize shown, v') /\
      mThumbnailForUrl v' !! url = Some shown /\
      (mRough shown = true -> url ∈ mSmoothThumbnailQueue v') /\
      mSmoothThumbnailQueue v' =
        (if mRough shown && negb (bool_decide (url ∈ mSmoothThumbnailQueue v))
         then mSmoothThumbnailQueue v ++ [url]
         else mSmoothThumbnailQueue v) /\
      (mSmoothThumbnailQueue v' <> [] ->
         mSmoothThumbnailQueue v = [] ->
         QTimer.isActive (mSmoothThumbnailTimer v') = true) /\
      mThumbnailLoadJob v' = mThumbnailLoadJob v /\
      mThumbnailSize v' = mThumbnailSize v).
  { unfold thumbnailForIndex. fold item. rewrite Hitem. fold url.
    change (iconForDirOrArchive v item (findOrCreate v index item)) with loaded.
    rewrite Hgroup. fold shown.
    eexists. split; [reflexivity|].
    destruct (mRough shown) eqn:Hrough; simpl;
      [case_bool_decide as Hin; simpl|].
    + (* rough and already queued *)
      repeat split; simpl; try apply lookup_insert_eq; try assumption.
      intros _. assumption.
      intros _ Hq. rewrite Hq in Hin. now apply elem_of_nil in Hin.
    + (* rough and not queued yet *)
      destruct (QTimer.isActive (mSmoothThumbnailTimer v)) eqn:Hactive; simpl;
        repeat split; simpl; try apply lookup_insert_eq; try assumption;
        try (intros _; set_solver); try reflexivity.
    + repeat split; simpl; try apply lookup_insert_eq; try discriminate.
      intros Hne Hq. congruence. }
  split; [|split].
  - intros w pixmap size thumbnail Hcached.
    unfold setThumbnail. fold url. rewrite Hcached. simpl.
    eexists. split; [apply lookup_insert_eq|]. repeat split.
  - destruct Hpaint as (v' & Hresult & Hentry & Hqueued & Hqueue & Htimer & Hjob & Hsize).
    exists v'.
    split; [exact Hresult|]. split; [exact Hentry|]. split; [exact Hqueued|].
    split; [exact Hqueue|]. split; [exact Htimer|]. split; [exact Hjob|].
    split; [exact Hsize|]. split.
    + intros Hrough. rewrite Hqueue, Hrough. reflexivity.
    + intros Hrough Hnojob.
      destruct (list_elem_of_split_l _ _ (Hqueued Hrough))
        as (before & after & Hsplit & Hnotin).
      exists before, after.
      rewrite <- Hjob in Hnojob.
      destruct (smoothNextThumbnails_turn before v' url after shown
                  Hsplit Hnotin Hnojob Hentry) as (Hturn & Hnojob' & Hsize' & Hentry').
      destruct (smoothNextThumbnail_step _ url after Hturn Hnojob')
        as (Hafter & _ & _ & Hcache).
      split; [exact Hsplit|]. split; [exact Hnotin|]. split; [exact Hturn|].
      split; [exact Hentry'|]. split; [exact Hafter|].
      split; [|split; reflexivity].
      rewrite Hcache, Hentry', lookup_insert_eq. f_equal.
      apply smoothed_size. congruence.
  - clear Hpaint. intros w rest thumbnail Hq Hjob Hcached.
    unfold smoothNextThumbnail. rewrite Hq, Hjob. simpl. rewrite Hcached.
    fold (smoothed w thumbnail).
    case_bool_decide; destruct rest; simpl;
      repeat split; apply lookup_insert_eq.
Qed.

(** **** Broken thumbnails *)


(** **** Changing the thumbnail size *)

Context `{!ViewPlatform}.

Lemma scheduleThumbnailGenerationForVisibleItems_view w :
  mThumbnailSize (view (scheduleThumbnailGenerationForVisibleItems w)) = mThumbnailSize (view w) /\
  mThumbnailForUrl (view (scheduleThumbnailGenerationForVisibleItems w))
    = mThumbnailForUrl (view w) /\
  mSmoothThumbnailQueue (view (scheduleThumbnailGenerationForVisibleItems w)) = [] /\
  mSmoothThumbnailTimer (view (scheduleThumbnailGenerationForVisibleItems w))
    = mSmoothThumbnailTimer (view w) /\
  mWaitingThumbnail (view (scheduleThumbnailGenerationForVisibleItems w))
    = mWaitingThumbnail (view w) /\
  model (view (scheduleThumbnailGenerationForVisibleItems w)) = model (view w) /\
  QTimer.isActive
    (mScheduledThumbnailGenerationTimer (scheduleThumbnailGenerationForVisibleItems w)) = true /\
  emitted (scheduleThumbnailGenerationForVisibleItems w) = emitted w /\
  mThumbnailLoadJob (view (scheduleThumbnailGenerationForVisibleItems w)) =
    match mThumbnailLoadJob (view w) with
    | Some job => Some (removeItems (pendingItems job) job)
    | None => None
    end.
Proof.
  unfold scheduleThumbnailGenerationForVisibleItems.
  destruct (mThumbnailLoadJob (view w)) eqn:Hjob; simpl; rewrite ?Hjob; repeat split.
Qed.

Lemma thumbnailSize_setThumbnailSize (value : Z) (w : Widget) :
  thumbnailSize (setThumbnailSize value w) = value.
Proof.
  unfold setThumbnailSize, thumbnailSize.
  destruct (Z.eqb_spec (mThumbnailSize (view w)) value) as [Hsame|_]; [assumption|].
  cbn zeta.
  match goal with
  | |- context [scheduleThumbnailGenerationForVisibleItems ?x] =>
      destruct (scheduleThumbnailGenerationForVisibleItems_view x) as (Hsize & _)
  end.
  rewrite Hsize. cbn.
  now destruct (pix_width (mWaitingThumbnail (view w)) =? (if 64 <? value then 48 else 32)).
Qed.

(** X5.  [setThumbnailSize] with the size the view already has does nothing.
    With another size it records the size, empties the smoothing queue and
    stops the smoothing timer, drops the adjusted pixmap of every cached
    thumbnail while keeping everything else of the entry (the group
    pixmap in particular), takes the pending items off the load job,
    emits [thumbnailSizeChanged] and starts the generation timer; the
    waiting thumbnail is replaced only when its width is not the one that
    goes with the new size (48 above 64 pixels, else 32). *)
Theorem setThumbnailSize_effect (value : Z) (w : Widget) :
  (mThumbnailSize (view w) = value -> setThumbnailSize value w = w) /\
  (mThumbnailSize (view w) <> value ->
     thumbnailSize (setThumbnailSize value w) = value /\
     mSmoothThumbnailQueue (view (setThumbnailSize value w)) = [] /\
     QTimer.isActive (mSmoothThumbnailTimer (view (setThumbnailSize value w))) = false /\
     (forall url,
         mThumbnailForUrl (view (setThumbnailSize value w)) !! url =
           set_mAdjustedPix QPixmap_null <$> (mThumbnailForUrl (view w) !! url)) /\
     mThumbnailLoadJob (view (setThumbnailSize value w)) =
       match mThumbnailLoadJob (view w) with
       | Some job => Some (removeItems (pendingItems job) job)
       | None => None
       end /\
     emitted (setThumbnailSize value w) = emitted w ++ [thumbnailSizeChanged value] /\
     QTimer.isActive (mScheduledThumbnailGenerationTimer (setThumbnailSize value w)) = true /\
     mWaitingThumbnail (view (setThumbnailSize value w)) =
       (if pix_width (mWaitingThumbnail (view w)) =? (if 64 <? value then 48 else 32)
        then mWaitingThumbnail (view w)
        else dimmed (DesktopIcon "chronometer" (if 64 <? value then 48 else 32)))).
Proof.
  split.
  - intros Hsame. unfold setThumbnailSize. rewrite Hsame, Z.eqb_refl. reflexivity.
  - intros Hdiff. unfold setThumbnailSize, thumbnailSize.
    destruct (Z.eqb_spec (mThumbnailSize (view w)) value) as [|_]; [contradiction|].
    cbn zeta.
    match goal with
    | |- context [scheduleThumbnailGenerationForVisibleItems ?x] =>
        destruct (scheduleThumbnailGenerationForVisibleItems_view x)
          as (Hsize & Hcache & Hqueue & Htimer & Hwaiting & _ & Hscheduled & Hemitted & Hjob)
    end.
    rewrite Hsize, Hcache, Hqueue, Htimer, Hwaiting, Hscheduled, Hemitted, Hjob.
    cbn [view set_view emit emitted].
    destruct (pix_width (mWaitingThumbnail (set_mThumbnailSize value (view w))) =?
              (if 64 <? value then 48 else 32)) eqn:Hwidth;
      cbn in Hwidth; rewrite Hwidth; cbn;
      repeat split; intros; apply lookup_fmap.
Qed.

(** X6.  The wheel zoom keeps the thumbnail size between [MinThumbnailSize] and
    [MaxThumbnailSize], whatever the size was before, also when adding the
    step to it wraps around: the new size is the wrapped sum, clamped.  A
    size that is within the bounds, as every size set by the wheel is,
    moves by the step, but not beyond the bounds. *)
Theorem wheelZoom_within_bounds (delta : Z) (w : Widget) :
  let step := (if 0 <? delta then 1 else -1) * WHEEL_ZOOM_MULTIPLIER in
  MinThumbnailSize <= MaxThumbnailSize ->
  MinThumbnailSize <= thumbnailSize (wheelZoom delta w) <= MaxThumbnailSize /\
  thumbnailSize (wheelZoom delta w) =
    Z.max MinThumbnailSize (Z.min (addInt (thumbnailSize w) step) MaxThumbnailSize) /\
  (- 2 ^ 31 <= thumbnailSize w + step < 2 ^ 31 ->
   thumbnailSize (wheelZoom delta w) =
     Z.max MinThumbnailSize (Z.min (thumbnailSize w + step) MaxThumbnailSize)).
Proof.
  intros step Hbounds. unfold wheelZoom. fold step.
  set (size := Z.max _ _).
  rewrite thumbnailSize_setThumbnailSize. subst size.
  split; [lia|]. split; [reflexivity|].
  intros Hrange. unfold addInt.
  replace ((thumbnailSize w + step + 2 ^ 31) mod 2 ^ 32)
    with (thumbnailSize w + step + 2 ^ 31) by (symmetry; apply Z.mod_small; lia).
  f_equal. f_equal. lia.
Qed.

Lemma setThumbnailSize_view (value : Z) (w : Widget) :
  mThumbnailSize (view w) <> value ->
  mThumbnailSize (view (setThumbnailSize value w)) = value /\
  model (view (setThumbnailSize value w)) = model (view w) /\
  mThumbnailForUrl (view (setThumbnailSize value w)) =
    set_mAdjustedPix QPixmap_null <$> mThumbnailForUrl (view w).
Proof.
  intros Hdiff. unfold setThumbnailSize.
  destruct (Z.eqb_spec (mThumbnailSize (view w)) value) as [|_]; [contradiction|].
  cbn zeta.
  match goal with
  | |- context [scheduleThumbnailGenerationForVisibleItems ?x] =>
      destruct (scheduleThumbnailGenerationForVisibleItems_view x)
        as (Hsize & Hcache & _ & _ & _ & Hmodel & _)
  end.
  rewrite Hsize, Hcache, Hmodel. cbn.
  destruct (pix_width (mWaitingThumbnail (view w)) =? (if 64 <? value then 48 else 32));
    repeat split.
Qed.

Lemma iconForDirOrArchive_adjusted v item thumbnail :
  mAdjustedPix (iconForDirOrArchive v item thumbnail) = mAdjustedPix thumbnail.
Proof.
  unfold iconForDirOrArchive.
  destruct (_ || _); [|reflexivity].
  destruct (_ || _); [|reflexivity].
  now destruct (Kind_eqb _ _).
Qed.

(** X7.  After a change of the thumbnail size a cached thumbnail is painted
    from its group pixmap again: the first [thumbnailForIndex] for an item
    whose group pixmap is available returns what [roughAdjustThumbnail]
    makes of that group pixmap at the new size, never an adjusted pixmap
    of the old size. *)
Theorem setThumbnailSize_then_paint
    (value : Z) (w : Widget) (index : QModelIndex) (thumbnail : Thumbnail) :
  let item := fileItemForIndex (view w) index in
  let v' := view (setThumbnailSize value w) in
  let loaded := iconForDirOrArchive v' item (set_mAdjustedPix QPixmap_null thumbnail) in
  mThumbnailSize (view w) <> value ->
  KFileItem.isNull item = false ->
  mThumbnailForUrl (view w) !! KFileItem.url item = Some thumbnail ->
  isNull (mGroupPix loaded) = false ->
  fst (fst (thumbnailForIndex index v')) = mAdjustedPix (roughAdjustThumbnail v' loaded) /\
  mThumbnailSize v' = value /\
  (fileItemKind item <> KIND_ARCHIVE -> fileItemKind item <> KIND_DIR ->
   mGroupPix loaded = mGroupPix thumbnail).
Proof.
  intros item v' loaded Hdiff Hnull Hcached Hgroup.
  destruct (setThumbnailSize_view value w Hdiff) as (Hsize & Hmodel & Hcache).
  fold v' in Hsize, Hmodel, Hcache.
  assert (Hitem : fileItemForIndex v' index = item).
  { unfold item, fileItemForIndex. now rewrite Hmodel. }
  split; [|split; [exact Hsize|]].
  - unfold thumbnailForIndex. rewrite Hitem, Hnull.
    unfold findOrCreate. rewrite Hcache, lookup_fmap, Hcached. simpl.
    fold loaded. rewrite Hgroup.
    subst loaded. rewrite iconForDirOrArchive_adjusted. simpl.
    rewrite QPixmap_null_isNull. reflexivity.
  - intros Harchive Hdir. subst loaded. unfold iconForDirOrArchive.
    destruct (fileItemKind item); simpl; congruence.
Qed.

(** **** Changed rows *)

Lemma set_view_same (w : Widget) : set_view (view w) w = w.
Proof. now destruct w. Qed.

Lemma sameModel_item v v' row :
  sameModel v v' -> fileItemForIndex v' (modelIndex v' row) = fileItemForIndex v (modelIndex v row).
Proof.
  intros (Hmodel & _). unfold fileItemForIndex, modelIndex, rowCount. now rewrite Hmodel.
Qed.

Lemma refreshedFrom_refl v flag : refreshedFrom v flag (v, flag).
Proof. repeat split; auto. Qed.

Lemma isRefreshOf_trans thumbnail refreshed refreshed' :
  isRefreshOf thumbnail refreshed -> isRefreshOf refreshed refreshed' ->
  isRefreshOf thumbnail refreshed'.
Proof. intros [mtime ->] [mtime' ->]. now exists mtime'. Qed.

Lemma refreshedFrom_trans v flag r r' :
  refreshedFrom v flag r -> refreshedFrom (fst r) (snd r) r' -> refreshedFrom v flag r'.
Proof.
  intros ((Hm1 & Hs1 & Hj1 & Hp1) & Hqueue1 & Hflag1 & Hnone1 & Hcache1)
         ((Hm2 & Hs2 & Hj2 & Hp2) & Hqueue2 & Hflag2 & Hnone2 & Hcache2).
  split; [repeat split; congruence|].
  split; [congruence|]. split; [auto|]. split; [auto|].
  intros url thumbnail Hurl.
  destruct (Hcache1 url thumbnail Hurl) as [Hkept|(Hset & refreshed & Hrefreshed & Hof)].
  - apply Hcache2, Hkept.
  - right. split; [auto|].
    destruct (Hcache2 url refreshed Hrefreshed)
      as [Hkept|(_ & refreshed' & Hrefreshed' & Hof')].
    + now exists refreshed.
    + exists refreshed'. split; [assumption|]. now apply (isRefreshOf_trans _ refreshed).
Qed.

Lemma dataChangedStep_frame v flag row :
  refreshedFrom v flag (dataChangedStep (v, flag) row).
Proof.
  unfold dataChangedStep.
  destruct (KFileItem.isNull _); [apply refreshedFrom_refl|].
  set (item := fileItemForIndex v (modelIndex v row)).
  destruct (mThumbnailForUrl v !! KFileItem.url item) as [cached|] eqn:Hcached;
    [|apply refreshedFrom_refl].
  case_bool_decide as Hsame; simpl; [apply refreshedFrom_refl|].
  split; [repeat split|]. split; [reflexivity|]. split; [reflexivity|]. simpl. split.
  - intros url Hurl. rewrite lookup_insert_ne; [assumption|]. congruence.
  - intros url thumbnail Hurl.
    destruct (decide (KFileItem.url item = url)) as [<-|Hne].
    + right. split; [reflexivity|]. eexists. rewrite lookup_insert_eq.
      split; [reflexivity|]. exists (KFileItem.time item). congruence.
    + left. now rewrite lookup_insert_ne.
Qed.

Lemma dataChangedLoop_frame positions v flag :
  refreshedFrom v flag (fold_left dataChangedStep positions (v, flag)).
Proof.
  revert v flag. induction positions as [|row positions IH]; intros v flag.
  - apply refreshedFrom_refl.
  - cbn [fold_left].
    apply (refreshedFrom_trans v flag (dataChangedStep (v, flag) row));
      [apply dataChangedStep_frame|].
    rewrite (surjective_pairing (dataChangedStep (v, flag) row)) at 3. apply IH.
Qed.

Lemma dataChangedLoop_refreshes positions v flag row thumbnail :
  row ∈ positions ->
  KFileItem.isNull (fileItemForIndex v (modelIndex v row)) = false ->
  mThumbnailForUrl v !! KFileItem.url (fileItemForIndex v (modelIndex v row)) = Some thumbnail ->
  mModificationTime thumbnail <> KFileItem.time (fileItemForIndex v (modelIndex v row)) ->
  snd (fold_left dataChangedStep positions (v, flag)) = true /\
  exists refreshed,
    mThumbnailForUrl (fst (fold_left dataChangedStep positions (v, flag)))
      !! KFileItem.url (fileItemForIndex v (modelIndex v row)) = Some refreshed /\
    isRefreshOf thumbnail refreshed.
Proof.
  revert v flag. induction positions as [|pos positions IH];
    intros v flag Hin Hnull Hcached Hdiff.
  - now apply elem_of_nil in Hin.
  - cbn [fold_left].
    set (item := fileItemForIndex v (modelIndex v row)) in *.
    destruct (dataChangedStep_frame v flag pos) as (Hsame1 & _ & _ & _ & Hcache1).
    pose proof (dataChangedLoop_frame positions
                  (fst (dataChangedStep (v, flag) pos))
                  (snd (dataChangedStep (v, flag) pos))) as (_ & _ & Hflag & _ & Hcache).
    rewrite <- surjective_pairing in Hflag, Hcache.
    destruct (Hcache1 _ thumbnail Hcached) as [Hkept|(Hset & refreshed & Hrefreshed & Hof)].
    + (* the entry is still the old one after this row *)
      apply elem_of_cons in Hin as [->|Hin].
      * (* this very row: it refreshes the entry *)
        exfalso. revert Hkept. unfold dataChangedStep. fold item.
        rewrite Hnull, Hcached. rewrite bool_decide_eq_false_2 by assumption. simpl.
        rewrite lookup_insert_eq. intros Heq. injection Heq as Heq.
        apply Hdiff. rewrite <- Heq at 1. reflexivity.
      * rewrite (surjective_pairing (dataChangedStep (v, flag) pos)).
        pose proof (sameModel_item v _ row Hsame1) as Hitem. fold item in Hitem.
        specialize (IH (fst (dataChangedStep (v, flag) pos))
                      (snd (dataChangedStep (v, flag) pos)) Hin).
        rewrite Hitem in IH. now apply IH.
    + split; [auto|].
      destruct (Hcache _ refreshed Hrefreshed) as [Hkept|(_ & refreshed' & Hrefreshed' & Hof')].
      * now exists refreshed.
      * exists refreshed'. split; [assumption|]. now apply (isRefreshOf_trans _ refreshed).
Qed.

(** X8.  [dataChanged] refreshes only on a change of the modification time: when
    every changed row is without file item, without cache entry, or has
    the modification time its cache entry records, the widget is left
    exactly as it was; the generation timer is not started. *)
Theorem dataChanged_same_time_is_ignored (top bottom : Z) (w : Widget) :
  (forall row thumbnail,
      top <= row <= bottom ->
      KFileItem.isNull (fileItemForIndex (view w) (modelIndex (view w) row)) = false ->
      mThumbnailForUrl (view w)
        !! KFileItem.url (fileItemForIndex (view w) (modelIndex (view w) row)) = Some thumbnail ->
      mModificationTime thumbnail =
        KFileItem.time (fileItemForIndex (view w) (modelIndex (view w) row))) ->
  dataChanged top bottom w = w.
Proof.
  intros Hsame. unfold dataChanged.
  assert (Hloop : forall positions,
             (forall row, row ∈ positions -> top <= row <= bottom) ->
             fold_left dataChangedStep positions (view w, false) = (view w, false)).
  { induction positions as [|row positions IH]; intros Hrange; [reflexivity|].
    cbn [fold_left].
    assert (Hstep : dataChangedStep (view w, false) row = (view w, false)).
    { unfold dataChangedStep.
      destruct (KFileItem.isNull _) eqn:Hnull; [reflexivity|].
      destruct (mThumbnailForUrl (view w) !! _) as [thumbnail|] eqn:Hcached; [|reflexivity].
      rewrite bool_decide_eq_true_2; [reflexivity|].
      apply (Hsame row); [apply Hrange, list_elem_of_here|assumption|assumption]. }
    rewrite Hstep. apply IH. intros r Hr. apply Hrange. now apply list_elem_of_further. }
  rewrite Hloop; [apply set_view_same|].
  intros row Hrow. apply elem_of_seqZ in Hrow. lia.
Qed.

(** X9.  When a changed row has a cache entry with another modification time,
    [dataChanged] resets that entry with [prepareForRefresh] (no pixmaps,
    waiting for its thumbnail, so not adapted for any size) and starts the
    generation timer.  It never adds or removes a cache entry, and leaves
    the smoothing queue, the load job and the thumbnail size alone. *)
Theorem dataChanged_refreshes (top bottom row : Z) (w : Widget) (thumbnail : Thumbnail) :
  let item := fileItemForIndex (view w) (modelIndex (view w) row) in
  top <= row <= bottom ->
  KFileItem.isNull item = false ->
  mThumbnailForUrl (view w) !! KFileItem.url item = Some thumbnail ->
  mModificationTime thumbnail <> KFileItem.time item ->
  (exists mtime,
      mThumbnailForUrl (view (dataChanged top bottom w)) !! KFileItem.url item =
        Some (prepareForRefresh mtime thumbnail)) /\
  hasAdaptedGroupPix (view (dataChanged top bottom w)) (KFileItem.url item) = false /\
  QTimer.isActive (mScheduledThumbnailGenerationTimer (dataChanged top bottom w)) = true /\
  (forall url,
      is_Some (mThumbnailForUrl (view (dataChanged top bottom w)) !! url) <->
      is_Some (mThumbnailForUrl (view w) !! url)) /\
  mSmoothThumbnailQueue (view (dataChanged top bottom w)) = mSmoothThumbnailQueue (view w) /\
  mThumbnailLoadJob (view (dataChanged top bottom w)) = mThumbnailLoadJob (view w) /\
  mThumbnailSize (view (dataChanged top bottom w)) = mThumbnailSize (view w).
Proof.
  intros item Hrange Hnull Hcached Hdiff.
  assert (Hin : row ∈ seqZ top (bottom - top + 1)) by (apply elem_of_seqZ; lia).
  destruct (dataChangedLoop_refreshes _ (view w) false row thumbnail Hin Hnull Hcached Hdiff)
    as (Hflag & refreshed & Hrefreshed & mtime & ->).
  destruct (dataChangedLoop_frame (seqZ top (bottom - top + 1)) (view w) false)
    as ((_ & Hsize & Hjob & _) & Hqueue & _ & Hnone & Hcache).
  fold item in Hrefreshed.
  unfold dataChanged.
  destruct (fold_left dataChangedStep (seqZ top (bottom - top + 1)) (view w, false))
    as [v' flag'] eqn:Hloop.
  simpl in *. subst flag'. simpl.
  split; [now exists mtime|].
  split; [unfold hasAdaptedGroupPix; now rewrite Hrefreshed|].
  split; [reflexivity|].
  split; [|now repeat split].
  intros url. split.
  - intros Hsome. destruct (mThumbnailForUrl (view w) !! url) eqn:Hurl; [eauto|].
    rewrite (Hnone url Hurl) in Hsome. now destruct Hsome.
  - intros [cached Hurl].
    destruct (Hcache url cached Hurl) as [->|(_ & r & -> & _)]; eauto.
Qed.

(** **** Removed rows *)

Lemma removedItems_sameModel v v' positions :
  sameModel v v' -> removedItems v' positions = removedItems v positions.
Proof.
  intros Hsame. unfold removedItems. f_equal. apply map_ext. intros pos.
  now apply sameModel_item.
Qed.

Lemma removedItems_cons v pos positions :
  removedItems v (pos :: positions) =
    (if KFileItem.isNull (fileItemForIndex v (modelIndex v pos)) then []
     else [fileItemForIndex v (modelIndex v pos)]) ++ removedItems v positions.
Proof.
  unfold removedItems. cbn [map]. rewrite filter_cons.
  destruct (KFileItem.isNull (fileItemForIndex v (modelIndex v pos))) eqn:Hnull.
  - now rewrite decide_False by discriminate.
  - now rewrite decide_True by reflexivity.
Qed.

Lemma filter_removed_cons (url : KUrl) (urls queue : list KUrl) :
  filter (fun queued => queued ∉ urls) (filter (fun queued => queued <> url) queue) =
    filter (fun queued => queued ∉ url :: urls) queue.
Proof.
  induction queue as [|q queue IH]; [reflexivity|].
  rewrite !filter_cons.
  destruct (decide (q <> url)) as [Hne|Heq].
  - rewrite filter_cons. destruct (decide (q ∉ urls)) as [Hout|Hin].
    + rewrite decide_True by (rewrite not_elem_of_cons; auto). now rewrite IH.
    + rewrite decide_False by (rewrite not_elem_of_cons; tauto). apply IH.
  - rewrite decide_False by (rewrite not_elem_of_cons; tauto). apply IH.
Qed.

Lemma removeLoop_spec positions v itemList :
  sameModel v (fst (fold_left removeRowStep positions (v, itemList))) /\
  snd (fold_left removeRowStep positions (v, itemList)) = itemList ++ removedItems v positions /\
  (forall url,
      mThumbnailForUrl (fst (fold_left removeRowStep positions (v, itemList))) !! url =
        if bool_decide (url ∈ removedUrls v positions) then None
        else mThumbnailForUrl v !! url) /\
  mSmoothThumbnailQueue (fst (fold_left removeRowStep positions (v, itemList))) =
    filter (fun queued => queued ∉ removedUrls v positions) (mSmoothThumbnailQueue v).
Proof.
  revert v itemList. induction positions as [|pos positions IH]; intros v itemList.
  - cbn [fold_left fst snd]. unfold removedUrls, removedItems. cbn [map].
    rewrite filter_nil, app_nil_r. cbn [map].
    split; [repeat split|]. split; [reflexivity|]. split.
    + intros url. rewrite bool_decide_eq_false_2; [reflexivity|apply not_elem_of_nil].
    + symmetry. induction (mSmoothThumbnailQueue v) as [|q queue IHq]; [reflexivity|].
      rewrite filter_cons, decide_True by apply not_elem_of_nil. now f_equal.
  - cbn [fold_left]. unfold removedUrls. rewrite removedItems_cons.
    unfold removeRowStep at 2 4 6 8.
    set (item := fileItemForIndex v (modelIndex v pos)).
    destruct (KFileItem.isNull item) eqn:Hnull.
    + apply IH.
    + set (v1 := set_mSmoothThumbnailQueue _ _).
      assert (Hsame1 : sameModel v v1) by (repeat split).
      destruct (IH v1 (itemList ++ [item])) as (Hsame & Hitems & Hcache & Hqueue).
      unfold removedUrls in Hcache, Hqueue.
      rewrite (removedItems_sameModel v v1 positions Hsame1) in Hitems, Hcache, Hqueue.
      split; [|split; [|split]].
      * destruct Hsame1 as (? & ? & ? & ?), Hsame as (? & ? & ? & ?).
        repeat split; congruence.
      * rewrite Hitems, <- app_assoc. reflexivity.
      * intros url. rewrite Hcache. cbn [app map].
        subst v1. simpl.
        destruct (decide (url = KFileItem.url item)) as [->|Hne].
        -- rewrite lookup_delete_eq.
           rewrite (bool_decide_eq_true_2 (_ ∈ _ :: _)) by apply list_elem_of_here.
           now destruct (bool_decide _).
        -- rewrite lookup_delete_ne by congruence.
           destruct (bool_decide (url ∈ map KFileItem.url (removedItems v positions)))
             eqn:Hin.
           ++ apply bool_decide_eq_true_1 in Hin.
              rewrite bool_decide_eq_true_2; [reflexivity|now apply list_elem_of_further].
           ++ apply bool_decide_eq_false_1 in Hin.
              rewrite bool_decide_eq_false_2; [reflexivity|].
              rewrite elem_of_cons. tauto.
      * rewrite Hqueue. subst v1. simpl. cbn [app map]. apply filter_removed_cons.
Qed.

Lemma removedUrls_elem v positions url :
  url ∈ removedUrls v positions <->
  exists pos, pos ∈ positions /\
    KFileItem.isNull (fileItemForIndex v (modelIndex v pos)) = false /\
    KFileItem.url (fileItemForIndex v (modelIndex v pos)) = url.
Proof.
  unfold removedUrls, removedItems. rewrite list_elem_of_fmap. split.
  - intros (item & -> & Hitem). apply list_elem_of_filter in Hitem as [Hnull Hitem].
    apply list_elem_of_fmap in Hitem as (pos & -> & Hpos). now exists pos.
  - intros (pos & Hpos & Hnull & <-). eexists. split; [reflexivity|].
    apply list_elem_of_filter. split; [assumption|].
    apply list_elem_of_fmap. now exists pos.
Qed.

Lemma rowsAboutToBeRemoved_view baseCurrent start end_ w :
  let loop := fold_left removeRowStep (seqZ start (end_ - start + 1)) (view w, []) in
  view (rowsAboutToBeRemoved baseCurrent start end_ w) =
    match mThumbnailLoadJob (fst loop) with
    | Some job => set_mThumbnailLoadJob (Some (removeItems (snd loop) job)) (fst loop)
    | None => fst loop
    end.
Proof.
  unfold rowsAboutToBeRemoved.
  change (view (set_currentIndex baseCurrent w)) with (view w).
  destruct (fold_left removeRowStep _ _) as [v itemList]. cbn [fst snd].
  destruct (_ && _); reflexivity.
Qed.

(** X10.  [rowsAboutToBeRemoved] drops every reference to the rows [start] to
    [end_] that have a file item: their URLs leave the thumbnail cache and
    the smoothing queue, their items are taken out of the load job, and
    the generation timer is started.  Every other cache entry is kept as
    it is and the other queued URLs keep their order. *)
Theorem rowsAboutToBeRemoved_forgets_rows
    (baseCurrent : QModelIndex) (start end_ : Z) (w : Widget) :
  let positions := seqZ start (end_ - start + 1) in
  let w' := rowsAboutToBeRemoved baseCurrent start end_ w in
  (forall url,
      url ∈ removedUrls (view w) positions <->
      exists pos, start <= pos <= end_ /\
        KFileItem.isNull (fileItemForIndex (view w) (modelIndex (view w) pos)) = false /\
        KFileItem.url (fileItemForIndex (view w) (modelIndex (view w) pos)) = url) /\
  (forall url,
      mThumbnailForUrl (view w') !! url =
        if bool_decide (url ∈ removedUrls (view w) positions) then None
        else mThumbnailForUrl (view w) !! url) /\
  mSmoothThumbnailQueue (view w') =
    filter (fun queued => queued ∉ removedUrls (view w) positions)
           (mSmoothThumbnailQueue (view w)) /\
  mThumbnailLoadJob (view w') =
    (removeItems (removedItems (view w) positions) <$> mThumbnailLoadJob (view w)) /\
  QTimer.isActive (mScheduledThumbnailGenerationTimer w') = true.
Proof.
  intros positions w'.
  split.
  { intros url. rewrite removedUrls_elem. subst positions.
    split; intros (pos & Hpos & Hrest); exists pos; split; try assumption.
    - apply elem_of_seqZ in Hpos. lia.
    - apply elem_of_seqZ. lia. }
  subst w'. rewrite rowsAboutToBeRemoved_view. cbv zeta. fold positions.
  destruct (removeLoop_spec positions (view w) [])
    as ((_ & _ & Hjob & _) & Hitems & Hcache & Hqueue).
  cbn [app] in Hitems.
  split; [|split; [|split]].
  - intros url. rewrite <- Hcache. now destruct (mThumbnailLoadJob _).
  - rewrite <- Hqueue. now destruct (mThumbnailLoadJob _).
  - rewrite <- Hjob, <- Hitems.
    destruct (mThumbnailLoadJob (fst (fold_left removeRowStep positions (view w, [])))) eqn:Hloop; [reflexivity|exact Hloop].
  - unfold rowsAboutToBeRemoved.
    destruct (fold_left removeRowStep _ _) as [v itemList].
    destruct (_ && _); reflexivity.
Qed.

(** X11.  Removing rows keeps the smoothing queue duplicate-free and inside the
    cache. *)
Theorem rowsAboutToBeRemoved_queueInvariant
    (baseCurrent : QModelIndex) (start end_ : Z) (w : Widget) :
  queueInvariant (view w) ->
  queueInvariant (view (rowsAboutToBeRemoved baseCurrent start end_ w)).
Proof.
  intros [Hnodup Hcached].
  rewrite rowsAboutToBeRemoved_view. cbv zeta.
  set (positions := seqZ start (end_ - start + 1)).
  destruct (removeLoop_spec positions (view w) []) as (_ & _ & Hcache & Hqueue).
  apply (queueInvariant_same_queue (fst (fold_left removeRowStep positions (view w, [])))).
  - split.
    + rewrite Hqueue. now apply NoDup_filter.
    + intros url. rewrite Hqueue, Hcache. intros Hin.
      apply list_elem_of_filter in Hin as [Hout Hin].
      rewrite bool_decide_eq_false_2 by assumption. now apply Hcached.
  - now destruct (mThumbnailLoadJob _).
  - now destruct (mThumbnailLoadJob _).
Qed.


(** **** The drag pixmap *)

Lemma dragLayout_pixmaps pixHeight x thumbs :
  map snd (dragLayout pixHeight x thumbs) = thumbs.
Proof.
  revert x. induction thumbs as [|thumb thumbs IH]; intros x; [reflexivity|].
  cbn [dragLayout map snd]. now rewrite IH.
Qed.

Lemma dragLayout_fit pixHeight x thumbs :
  Forall (fun thumb => 0 <= pix_width thumb) thumbs ->
  forall x' y thumb,
    (x', y, thumb) ∈ dragLayout pixHeight x thumbs ->
    x <= x' /\
    x' + pix_width thumb + DRAG_THUMB_SPACING <=
      x + foldr Z.add 0 (map pix_width thumbs)
        + Z.of_nat (length thumbs) * DRAG_THUMB_SPACING /\
    y = Z.quot (pixHeight - pix_height thumb) 2.
Proof.
  unfold DRAG_THUMB_SPACING.
  intros Hwidths. revert x. induction Hwidths as [|first thumbs Hfirst Hwidths IH];
    intros x x' y thumb Hin.
  - now apply elem_of_nil in Hin.
  - assert (Hsum : 0 <= foldr Z.add 0 (map pix_width thumbs)).
    { clear IH Hin. induction Hwidths as [|? ? ? ? IHw]; cbn [map foldr]; lia. }
    cbn [dragLayout] in Hin. apply elem_of_cons in Hin as [Heq|Hin].
    + injection Heq as -> -> ->. cbn [map foldr length]. repeat split; lia.
    + apply IH in Hin as (Hlo & Hhi & Hy). cbn [map foldr length].
      unfold DRAG_THUMB_SPACING in *. repeat split; lia.
Qed.

Lemma last_elem_of {A} (l : list A) (x d : A) : List.last (x :: l) d ∈ x :: l.
Proof.
  revert x. induction l as [|y l IH]; intros x; [apply list_elem_of_here|].
  change (List.last (x :: y :: l) d) with (List.last (y :: l) d).
  apply list_elem_of_further, IH.
Qed.

(** The thumbnails, total width and height that the first loop of
    [createDragPixmap] computes. *)
Lemma createDragPixmap_loop v indexes :
  exists width height,
    createDragPixmap v indexes =
      {| dragWidth :=
           width + (Z.of_nat (length (draggedIndexes indexes)
                                + (if (MAX_THUMBS <? length indexes)%nat then 1 else 0)) + 1)
                   * DRAG_THUMB_SPACING;
         dragHeight := height + 2 * DRAG_THUMB_SPACING;
         drawn :=
           dragLayout (height + 2 * DRAG_THUMB_SPACING) DRAG_THUMB_SPACING
             (if (MAX_THUMBS <? length indexes)%nat then
                map (dragPixmapForIndex v) (take 2 indexes)
                  ++ [textPixmap "(...)"; dragPixmapForIndex v (List.last indexes None)]
              else map (dragPixmapForIndex v) indexes) |} /\
    width =
      foldr Z.add 0
        (map pix_width
           (if (MAX_THUMBS <? length indexes)%nat then
              map (dragPixmapForIndex v) (take 2 indexes)
                ++ [textPixmap "(...)"; dragPixmapForIndex v (List.last indexes None)]
            else map (dragPixmapForIndex v) indexes)) /\
    Forall (fun index => pix_height (dragPixmapForIndex v index) <= height)
           (draggedIndexes indexes) /\
    height =
      foldr Z.max 0
        (map (fun index => pix_height (dragPixmapForIndex v index)) (draggedIndexes indexes)).
Proof.
  unfold createDragPixmap, draggedIndexes.
  destruct indexes as [|a [|b [|c [|e rest]]]].
  - exists 0, 0. repeat split. constructor.
  - eexists _, _. split; [reflexivity|]. split; [cbn; lia|].
    split; [repeat constructor; cbn; lia|cbn; lia].
  - eexists _, _. split; [reflexivity|]. split; [cbn; lia|].
    split; [repeat constructor; cbn; lia|cbn; lia].
  - eexists _, _. split; [reflexivity|]. split; [cbn; lia|].
    split; [repeat constructor; cbn; lia|cbn; lia].
  - change ((MAX_THUMBS <? length (a :: b :: c :: e :: rest))%nat) with true.
    cbv iota.
    eexists _, _. split; [reflexivity|]. split; [cbn; lia|].
    split; [repeat constructor; cbn; lia|cbn; lia].
Qed.

(** X13.  The pixmap of a drag shows one thumbnail per dragged index when there
    are at most three of them, and otherwise the thumbnails of the first
    two, the text "(...)", and the thumbnail of the last index, from left
    to right.  Its height is the largest height among these thumbnails
    plus twice the spacing: the height of the text does not count. *)
Theorem createDragPixmap_content (v : t) (indexes : list QModelIndex) :
  map snd (drawn (createDragPixmap v indexes)) =
    (if (MAX_THUMBS <? length indexes)%nat then
       map (dragPixmapForIndex v) (take 2 indexes)
         ++ [textPixmap "(...)"; dragPixmapForIndex v (List.last indexes None)]
     else map (dragPixmapForIndex v) indexes) /\
  dragHeight (createDragPixmap v indexes) =
    foldr Z.max 0
      (map (fun index => pix_height (dragPixmapForIndex v index)) (draggedIndexes indexes))
    + 2 * DRAG_THUMB_SPACING.
Proof.
  destruct (createDragPixmap_loop v indexes) as (width & height & -> & _ & _ & Hheight).
  split; [apply dragLayout_pixmaps|].
  cbn [dragHeight]. now rewrite Hheight.
Qed.

(** X14.  Everything drawn on the drag pixmap lies within its width, one
    spacing away from the borders and from its neighbours, provided no
    pixmap has a negative width.  The thumbnails also lie within its
    height, one spacing or more away from the top and bottom borders, as
    does any drawn pixmap that is not higher than the thumbnails. *)
Theorem createDragPixmap_layout (v : t) (indexes : list QModelIndex) :
  let pix := createDragPixmap v indexes in
  0 <= pix_width (textPixmap "(...)") ->
  (forall index, index ∈ indexes -> 0 <= pix_width (dragPixmapForIndex v index)) ->
  (forall x y thumb,
      (x, y, thumb) ∈ drawn pix ->
      DRAG_THUMB_SPACING <= x /\
      x + pix_width thumb + DRAG_THUMB_SPACING <= dragWidth pix /\
      (pix_height thumb + 2 * DRAG_THUMB_SPACING <= dragHeight pix ->
       DRAG_THUMB_SPACING <= y /\ y + pix_height thumb + DRAG_THUMB_SPACING <= dragHeight pix)) /\
  (forall before x1 y1 thumb1 x2 y2 thumb2 after,
      drawn pix = before ++ (x1, y1, thumb1) :: (x2, y2, thumb2) :: after ->
      x2 = x1 + pix_width thumb1 + DRAG_THUMB_SPACING) /\
  (forall index,
      index ∈ draggedIndexes indexes ->
      pix_height (dragPixmapForIndex v index) + 2 * DRAG_THUMB_SPACING <= dragHeight pix).
Proof.
  intros pix Htext Hwidths. subst pix.
  destruct (createDragPixmap_loop v indexes)
    as (width & height & -> & Hwidth & Hheight & _).
  cbn [drawn dragWidth dragHeight].
  set (thumbs := if (MAX_THUMBS <? length indexes)%nat then _ else _) in *.
  assert (Hlength :
            length thumbs =
              (length (draggedIndexes indexes)
               + (if (MAX_THUMBS <? length indexes)%nat then 1 else 0))%nat).
  { subst thumbs. unfold draggedIndexes. destruct (MAX_THUMBS <? length indexes)%nat.
    - rewrite !length_app, length_map. cbn [length]. lia.
    - rewrite length_map. lia. }
  assert (Hnonneg : Forall (fun thumb => 0 <= pix_width thumb) thumbs).
  { subst thumbs. destruct (MAX_THUMBS <? length indexes)%nat eqn:Hmore.
    - apply Forall_app. split.
      + apply Forall_forall. intros thumb Hin.
        apply list_elem_of_fmap in Hin as (index & -> & Hin).
        apply Hwidths. revert Hin. apply subseteq_take.
      + repeat constructor; [assumption|]. apply Hwidths.
        destruct indexes as [|a rest]; [discriminate|]. apply last_elem_of.
    - apply Forall_forall. intros thumb Hin.
      apply list_elem_of_fmap in Hin as (index & -> & Hin). now apply Hwidths. }
  split; [|split].
  - intros x y thumb Hin.
    apply (dragLayout_fit _ _ _ Hnonneg) in Hin as (Hlo & Hhi & ->).
    rewrite <- Hwidth, Hlength in Hhi.
    unfold DRAG_THUMB_SPACING in *.
    split; [assumption|]. split; [lia|]. intros Hfits.
    assert (Hquot : Z.quot (height + 2 * 4 - pix_height thumb) 2
                    = (height + 2 * 4 - pix_height thumb) / 2)
      by (apply Z.quot_div_nonneg; lia).
    rewrite Hquot. split.
    + apply Z.div_le_lower_bound; lia.
    + assert ((height + 2 * 4 - pix_height thumb) / 2 * 2
              <= height + 2 * 4 - pix_height thumb).
      { rewrite Z.mul_comm. apply Z.mul_div_le. lia. }
      lia.
  - clear Hlength Hnonneg Hwidth. clearbody thumbs.
    generalize DRAG_THUMB_SPACING at 2 as x0.
    generalize (height + 2 * DRAG_THUMB_SPACING) as pixHeight.
    intros pixHeight x0 before. revert x0 thumbs.
    induction before as [|entry before IH]; intros x0 thumbs x1 y1 thumb1 x2 y2 thumb2 after Hdrawn.
    + destruct thumbs as [|first [|second thumbs]]; cbn [dragLayout app] in Hdrawn;
        try discriminate.
      injection Hdrawn as -> _ -> -> _ _ _. reflexivity.
    + destruct thumbs as [|first thumbs]; cbn [dragLayout app] in Hdrawn; [discriminate|].
      injection Hdrawn as _ Hdrawn. eapply IH. exact Hdrawn.
  - intros index Hin. rewrite Forall_forall in Hheight. specialize (Hheight index Hin).
    unfold DRAG_THUMB_SPACING. lia.
Qed.

(** **** Reloading a thumbnail *)


(** X16.  [reloadThumbnail] never touches the smoothing queue and never removes
    the cache entry of another URL; without a valid URL for the index it
    does nothing at all, and on a hidden view the entry of the URL is gone
    afterwards, even when the URL is still queued for smoothing. *)
Theorem reloadThumbnail_frame (index : QModelIndex) (w : Widget) :
  let url := urlForIndex (view w) index in
  let w' := reloadThumbnail index w in
  mSmoothThumbnailQueue (view w') = mSmoothThumbnailQueue (view w) /\
  (forall other,
      other <> url ->
      is_Some (mThumbnailForUrl (view w) !! other) ->
      is_Some (mThumbnailForUrl (view w') !! other)) /\
  (KUrl_isValid url = false -> w' = w) /\
  (KUrl_isValid url = true -> isVisible (view w) = false ->
   mThumbnailForUrl (view w') !! url = None).
Proof.
  intros url w'. subst w'. unfold reloadThumbnail. fold url.
  destruct (KUrl_isValid url) eqn:Hvalid; cbn [negb].
  - destruct (mThumbnailForUrl (view w) !! url) as [thumbnail|] eqn:Hcached.
    + cbn [view set_view].
      set (erased := set_mThumbnailForUrl _ _).
      destruct (generateThumbnailsForVisibleItems_keeps erased) as [Hqueue Hkeeps].
      split; [exact Hqueue|]. split; [|split; [discriminate|]].
      * intros other Hother Hsome. apply Hkeeps. subst erased. simpl.
        now rewrite lookup_delete_ne by congruence.
      * intros _ Hhidden.
        rewrite (generateThumbnailsForVisibleItems_hidden erased (or_introl Hhidden)).
        subst erased. simpl. apply lookup_delete_eq.
    + cbn [view deleteImageThumbnail].
      split; [reflexivity|]. split; [trivial|]. split; [discriminate|].
      intros _ _. exact Hcached.
  - split; [reflexivity|]. split; [trivial|]. split; [reflexivity|discriminate].
Qed.

End PlatformFacts.

(** *** The statements on the sample views *)

#[local] Existing Instance Sample.platform.

(** C1, run on [largeImageView]: painting row 0 returns the fast-scaled
    pixmap and queues [urlA] for smoothing; no URL is queued before it and
    there is no load job, so the next smoothing timeout replaces the
    adjusted pixmap by the smooth scaling. *)
Lemma thumbnailForIndex_pipeline_witness :
  KFileItem.isNull (fileItemForIndex largeImageView (index 0)) = false /\
  isNull (mGroupPix (loadedThumbnail largeImageView (index 0))) = false /\
  exists v',
    thumbnailForIndex (index 0) largeImageView =
      (Sample.Scaled FastTransformation 128 96 (Sample.Image "a.png" 256 192),
       QSize.make 1024 768, v') /\
    urlA ∈ mSmoothThumbnailQueue v' /\
    (mAdjustedPix <$> mThumbnailForUrl (smoothNextThumbnail v') !! urlA) =
      Some (Sample.Scaled SmoothTransformation 128 96 (Sample.Image "a.png" 256 192)).
Proof.
  split; [reflexivity|]. split; [reflexivity|].
  destruct (thumbnailForIndex_pipeline (index 0) largeImageView eq_refl eq_refl)
    as (_ & (v' & Hresult & _ & Hqueued & Hqueue & _ & _ & _ & _ & Hlink) & _).
  exists v'. split; [exact Hresult|]. split; [apply Hqueued; reflexivity|].
  destruct (Hlink eq_refl eq_refl)
    as (before & after & Hsplit & _ & _ & _ & _ & Hsmooth & _).
  assert (Hone : mSmoothThumbnailQueue v' = [urlA]) by (rewrite Hqueue; reflexivity).
  rewrite Hone in Hsplit.
  destruct before as [|head before].
  - cbn in Hsmooth. rewrite Hsmooth. reflexivity.
  - exfalso. injection Hsplit as _ Hrest.
    now apply app_cons_not_nil in Hrest.
Defined.

(** C1 as stated fails on [smallImageView]: the group pixmap of the 10x10
    image is available, yet painting row 0 returns that pixmap itself and
    not a fast scaling of it, the entry is not rough, nothing is queued,
    and [smoothNextThumbnail] then leaves the view as it is: the
    rough-scale stage is skipped and no smooth-scale stage follows. *)
Lemma small_image_is_never_scaled :
  isNull (mGroupPix smallThumbnail) = false /\
  mThumbnailForUrl smallImageView !! urlA = Some smallThumbnail /\
  fst (fst (thumbnailForIndex (index 0) smallImageView)) = mGroupPix smallThumbnail /\
  fst (fst (thumbnailForIndex (index 0) smallImageView)) <>
    scaled (mGroupPix smallThumbnail) 128 128 KeepAspectRatio FastTransformation /\
  (mRough <$> (mThumbnailForUrl (snd (thumbnailForIndex (index 0) smallImageView)) !! urlA))
    = Some false /\
  mSmoothThumbnailQueue (snd (thumbnailForIndex (index 0) smallImageView)) = [] /\
  smoothNextThumbnail (snd (thumbnailForIndex (index 0) smallImageView)) =
    snd (thumbnailForIndex (index 0) smallImageView).
Proof.
  repeat split; try (vm_compute; reflexivity).
  vm_compute. discriminate.
Qed.

(** A URL that is queued is smooth-scaled whether or not its entry is
    rough.  On [largeImageView], row 0 is painted (its URL is queued),
    the load job delivers a 10x10 image for it, and the row is painted
    again: the entry is not rough, the URL is still queued, and the next
    [smoothNextThumbnail] scales the 10x10 pixmap up to the thumbnail
    size. *)
Example queued_url_is_smoothed_though_not_rough :
  let painted := snd (thumbnailForIndex (index 0) largeImageView) in
  let loaded :=
    setThumbnail itemA (Sample.Image "a.png" 10 10) (QSize.make 10 10) painted in
  let repainted := snd (thumbnailForIndex (index 0) loaded) in
  mSmoothThumbnailQueue painted = [urlA] /\
  (mRough <$> mThumbnailForUrl repainted !! urlA) = Some false /\
  fst (fst (thumbnailForIndex (index 0) loaded)) = Sample.Image "a.png" 10 10 /\
  mSmoothThumbnailQueue repainted = [urlA] /\
  (mAdjustedPix <$> mThumbnailForUrl (smoothNextThumbnail repainted) !! urlA) =
    Some (Sample.Scaled SmoothTransformation 128 128 (Sample.Image "a.png" 10 10)).
Proof. repeat split. Qed.

(** C2, run on [loadingQueuedView]: the call only restarts the timer. *)
Lemma smoothNextThumbnail_yields_to_load_job_witness :
  is_Some (mThumbnailLoadJob loadingQueuedView) /\
  mSmoothThumbnailQueue (smoothNextThumbnail loadingQueuedView) = [urlA] /\
  mThumbnailForUrl (smoothNextThumbnail loadingQueuedView) =
    mThumbnailForUrl loadingQueuedView /\
  mSmoothThumbnailTimer (smoothNextThumbnail loadingQueuedView) =
    QTimer.make true SMOOTH_DELAY.
Proof.
  assert (Hjob : is_Some (mThumbnailLoadJob loadingQueuedView)) by (eexists; reflexivity).
  split; [exact Hjob|].
  destruct (proj1 (smoothNextThumbnail_yields_to_load_job loadingQueuedView) Hjob)
    as (_ & Hqueue & Hcache & Htimer).
  split; [exact Hqueue|]. split; [exact Hcache|].
  apply Htimer. discriminate.
Defined.

(** C2 as stated fails on [loadingView]: a load job exists, the call runs
    with an empty queue, and the smoothing timer is not restarted: the
    view is left as it was, its timer inactive. *)
Lemma smoothNextThumbnail_empty_queue_not_rearmed :
  is_Some (mThumbnailLoadJob loadingView) /\
  mSmoothThumbnailQueue loadingView = [] /\
  QTimer.isActive (mSmoothThumbnailTimer loadingView) = false /\
  QTimer.isActive (mSmoothThumbnailTimer (smoothNextThumbnail loadingView)) = false /\
  smoothNextThumbnail loadingView = loadingView.
Proof.
  repeat split. eexists; reflexivity.
Qed.



(** C4, run on [sampleView]: after "0 busy, 1 busy, 0 idle" the set holds
    row 1 only and the animation runs. *)
Lemma busy_state_tracking_witness :
  mBusyIndexSet sampleView = ∅ /\
  mBusyAnimationTimeLine sampleView = QTimeLine.NotRunning /\
  index 1 ∈ mBusyIndexSet
    (reportBusyStates [(index 0, true); (index 1, true); (index 0, false)] sampleView) /\
  (index 0 ∉ mBusyIndexSet
     (reportBusyStates [(index 0, true); (index 1, true); (index 0, false)] sampleView)) /\
  mBusyAnimationTimeLine
    (reportBusyStates [(index 0, true); (index 1, true); (index 0, false)] sampleView)
    = QTimeLine.Running.
Proof.
  split; [reflexivity|]. split; [reflexivity|].
  destruct (busy_state_tracking sampleView
              [(index 0, true); (index 1, true); (index 0, false)] eq_refl eq_refl)
    as (Hset & Hrunning & _).
  assert (Hin : index 1 ∈ mBusyIndexSet
                  (reportBusyStates [(index 0, true); (index 1, true); (index 0, false)]
                     sampleView)) by (apply Hset; reflexivity).
  split; [exact Hin|]. split.
  - intros Hbusy. apply Hset in Hbusy. discriminate.
  - apply Hrunning. intros Hempty. rewrite Hempty in Hin. now apply not_elem_of_empty in Hin.
Defined.



(** C9, run on [sampleView], whose cache is empty, and on the invalid
    index. *)
Lemma unknown_items_are_ignored_witness :
  mThumbnailForUrl sampleView !! KFileItem.url itemA = None /\
  setThumbnail itemA (Sample.Image "a.png" 256 192) (QSize.make 1024 768) sampleView
    = sampleView /\
  setBrokenThumbnail itemA sampleView = sampleView /\
  KFileItem.isNull (fileItemForIndex sampleView None) = true /\
  exists pix fullSize,
    thumbnailForIndex None sampleView = (pix, fullSize, sampleView) /\
    isNull pix = true /\
    QSize.isValid fullSize = false.
Proof.
  destruct (@unknown_items_are_ignored Sample.platform) as (Hset & Hbroken & Hnull).
  split; [reflexivity|].
  split; [apply Hset; reflexivity|].
  split; [apply Hbroken; reflexivity|].
  split; [reflexivity|].
  destruct (Hnull None sampleView eq_refl)
    as (pix & fullSize & v' & Hresult & Hpix & Hsize & ->).
  exists pix, fullSize. now repeat split.
Defined.

(** *** The further statements on the sample widgets *)

#[local] Existing Instance SampleView.platform.

(** The queue invariant after [sampleEvents] on [sampleView]. *)
Lemma smoothing_queue_invariant_witness :
  mSmoothThumbnailQueue sampleView = [] /\
  mSmoothThumbnailQueue (run sampleEvents sampleView) = [urlA] /\
  NoDup (mSmoothThumbnailQueue (run sampleEvents sampleView)) /\
  is_Some (mThumbnailForUrl (run sampleEvents sampleView) !! urlA).
Proof.
  split; [reflexivity|]. split; [reflexivity|].
  destruct (smoothing_queue_invariant sampleView sampleEvents eq_refl) as (Hnodup & Hcached & _).
  split; [exact Hnodup|]. apply Hcached. apply list_elem_of_here.
Defined.

(** One smoothing timeout empties the queue of [queuedView]. *)
Lemma smoothNextThumbnails_drains_witness :
  mThumbnailLoadJob queuedView = None /\
  mSmoothThumbnailQueue (smoothNextThumbnails 1 queuedView) = [] /\
  (mRough <$> mThumbnailForUrl (smoothNextThumbnails 1 queuedView) !! urlA) = Some false.
Proof.
  split; [reflexivity|].
  destruct (smoothNextThumbnails_drains queuedView eq_refl) as (Hqueue & _).
  split; [exact Hqueue|reflexivity].
Defined.


(** One wheel step up from 128 pixels, and one from the largest [int],
    where the sum wraps around to a negative number and the minimum is
    taken. *)
Lemma wheelZoom_within_bounds_witness :
  MinThumbnailSize <= MaxThumbnailSize /\
  thumbnailSize (wheelZoom 120 (widgetOf sampleView)) = 132 /\
  MinThumbnailSize <= thumbnailSize (wheelZoom 120 (widgetOf sampleView)) <= MaxThumbnailSize /\
  thumbnailSize (wheelZoom 120 (widgetOf largestSizeView)) = 48 /\
  MinThumbnailSize <= thumbnailSize (wheelZoom 120 (widgetOf largestSizeView))
    <= MaxThumbnailSize.
Proof.
  assert (Hbounds : MinThumbnailSize <= MaxThumbnailSize) by (cbn; lia).
  split; [exact Hbounds|]. split; [reflexivity|].
  split; [exact (proj1 (wheelZoom_within_bounds 120 (widgetOf sampleView) Hbounds))|].
  split; [reflexivity|].
  exact (proj1 (wheelZoom_within_bounds 120 (widgetOf largestSizeView) Hbounds)).
Defined.

(** [largeImageView] switched to 64 pixels and painted. *)
Lemma setThumbnailSize_then_paint_witness :
  mThumbnailForUrl largeImageView !! urlA = Some largeThumbnail /\
  mThumbnailSize (view (setThumbnailSize 64 (widgetOf largeImageView))) = 64 /\
  fst (fst (thumbnailForIndex (index 0)
              (view (setThumbnailSize 64 (widgetOf largeImageView))))) =
    Sample.Scaled FastTransformation 64 48 (Sample.Image "a.png" 256 192).
Proof.
  split; [reflexivity|].
  assert (Hdiff : mThumbnailSize (view (widgetOf largeImageView)) <> 64) by discriminate.
  destruct (setThumbnailSize_then_paint 64 (widgetOf largeImageView) (index 0) largeThumbnail
              Hdiff eq_refl eq_refl eq_refl) as (Hpaint & Hsize & _).
  split; [exact Hsize|]. rewrite Hpaint. reflexivity.
Defined.

(** [dataChanged] for all rows of [largeImageView], whose only cache entry
    has the modification time of its file. *)
Lemma dataChanged_same_time_is_ignored_witness :
  mModificationTime largeThumbnail = KFileItem.time itemA /\
  dataChanged 0 2 (widgetOf largeImageView) = widgetOf largeImageView.
Proof.
  split; [reflexivity|].
  apply (dataChanged_same_time_is_ignored 0 2 (widgetOf largeImageView)).
  intros row thumbnail Hrange.
  assert (Hrow : row = 0 \/ row = 1 \/ row = 2) by lia.
  destruct Hrow as [-> | [-> | ->]]; intros _ Hcached; vm_compute in Hcached;
    try discriminate Hcached.
  injection Hcached as <-. reflexivity.
Defined.

(** [dataChanged] for row 0 of [staleView], whose entry is older than the
    file. *)
Lemma dataChanged_refreshes_witness :
  mThumbnailForUrl staleView !! urlA = Some staleThumbnail /\
  hasAdaptedGroupPix staleView urlA = true /\
  hasAdaptedGroupPix (view (dataChanged 0 0 (widgetOf staleView))) urlA = false /\
  QTimer.isActive (mScheduledThumbnailGenerationTimer (dataChanged 0 0 (widgetOf staleView)))
    = true.
Proof.
  split; [reflexivity|]. split; [reflexivity|].
  assert (Hrange : 0 <= 0 <= 0) by lia.
  assert (Hdiff : mModificationTime staleThumbnail <>
                  KFileItem.time (fileItemForIndex (view (widgetOf staleView))
                                    (modelIndex (view (widgetOf staleView)) 0)))
    by discriminate.
  destruct (dataChanged_refreshes 0 0 0 (widgetOf staleView) staleThumbnail
              Hrange eq_refl eq_refl Hdiff) as (_ & Hadapted & Htimer & _).
  split; assumption.
Defined.

(** Row 0 removed from [queuedView]. *)
Lemma rowsAboutToBeRemoved_queueInvariant_witness :
  queueInvariant (view (widgetOf queuedView)) /\
  queueInvariant (view (rowsAboutToBeRemoved None 0 0 (widgetOf queuedView))).
Proof.
  assert (Hinv : queueInvariant (view (widgetOf queuedView))).
  { split.
    - apply NoDup_singleton.
    - intros url Hin. apply list_elem_of_singleton in Hin. subst url.
      exists largeThumbnail. reflexivity. }
  split; [exact Hinv|].
  exact (rowsAboutToBeRemoved_queueInvariant None 0 0 (widgetOf queuedView) Hinv).
Defined.


(** Four indexes dragged from [paintedView]. *)
Lemma createDragPixmap_layout_witness :
  0 <= pix_width (textPixmap "(...)") /\
  pix_height (dragPixmapForIndex paintedView (index 0)) + 2 * DRAG_THUMB_SPACING <=
    dragHeight (createDragPixmap paintedView [index 0; index 1; index 2; index 0]).
Proof.
  assert (Htext : 0 <= pix_width (textPixmap "(...)")) by (cbn; lia).
  split; [exact Htext|].
  assert (Hwidths : forall i : QModelIndex,
             i ∈ [index 0; index 1; index 2; index 0] ->
             0 <= pix_width (dragPixmapForIndex paintedView i)).
  { intros i Hin.
    repeat (apply elem_of_cons in Hin as [->|Hin]; [vm_compute; discriminate|]).
    now apply elem_of_nil in Hin. }
  destruct (createDragPixmap_layout paintedView [index 0; index 1; index 2; index 0]
              Htext Hwidths) as (_ & _ & Hheights).
  apply Hheights. apply list_elem_of_here.
Defined.


End ThumbnailViewFacts.

(** ** The tag model *)

Module TagModelFacts.
Import TagModel.

Lemma compare_flip a b :
  (compare a b < 0 -> 0 < compare b a) /\
  (compare a b = 0 -> compare b a = 0) /\
  (0 < compare a b -> compare b a < 0).
Proof.
  revert b. induction a as [|x a IH]; intros [|y b]; simpl; try lia.
  destruct (Z.eqb_spec x y) as [->|Hne].
  - rewrite Z.eqb_refl. apply IH.
  - destruct (Z.eqb_spec y x); lia.
Qed.

Lemma compare_le_trans a b c :
  compare a b <= 0 -> compare b c <= 0 -> compare a c <= 0.
Proof.
  revert b c. induction a as [|x a IH]; intros [|y b] [|z c]; simpl; try lia.
  destruct (Z.eqb_spec x y) as [->|Hxy]; destruct (Z.eqb_spec y z) as [->|Hyz].
  - apply IH.
  - lia.
  - destruct (Z.eqb_spec x z); [congruence|lia].
  - destruct (Z.eqb_spec x z); lia.
Qed.

Lemma labelLe_trans a b c : labelLe a b -> labelLe b c -> labelLe a c.
Proof. apply compare_le_trans. Qed.

Lemma not_lessThan_labelLe x item : lessThan x item = false -> labelLe item x.
Proof.
  unfold lessThan, labelLe. intros Hge. apply Z.ltb_ge in Hge.
  destruct (compare_flip (text item) (text x)) as (_ & _ & Hgt). lia.
Qed.

Lemma lessThan_labelLe x item : lessThan x item = true -> labelLe x item.
Proof. unfold lessThan, labelLe. intros Hlt. apply Z.ltb_lt in Hlt. lia. Qed.

Lemma sortedInsert_Forall (P : QStandardItem -> Prop) item rows :
  P item -> Forall P rows -> Forall P (sortedInsert item rows).
Proof.
  intros Hitem. induction 1 as [|x rest Hx Hrest IH]; simpl.
  - now constructor.
  - destruct (lessThan x item); repeat constructor; assumption.
Qed.

Lemma sortedInsert_sorted item rows :
  StronglySorted labelLe rows -> StronglySorted labelLe (sortedInsert item rows).
Proof.
  induction 1 as [|x rest Hsorted IH Hall]; simpl.
  - repeat constructor.
  - destruct (lessThan x item) eqn:Hlt.
    + constructor; [assumption|].
      apply sortedInsert_Forall; [now apply lessThan_labelLe|assumption].
    + apply not_lessThan_labelLe in Hlt.
      constructor; [now constructor|].
      constructor; [assumption|].
      eapply Forall_impl; [exact Hall|].
      intros y Hy. now apply (labelLe_trans item x y).
Qed.

Lemma sort_sorted rows : StronglySorted labelLe (sort rows).
Proof.
  induction rows as [|item rows IH]; simpl.
  - constructor.
  - now apply sortedInsert_sorted.
Qed.

Lemma sortedInsert_perm item rows : Permutation (sortedInsert item rows) (item :: rows).
Proof.
  induction rows as [|x rest IH]; simpl; [reflexivity|].
  destruct (lessThan x item); [|reflexivity].
  rewrite IH. apply perm_swap.
Qed.

Lemma sort_perm rows : Permutation (sort rows) rows.
Proof.
  induction rows as [|item rows IH]; simpl; [reflexivity|].
  rewrite sortedInsert_perm. now constructor.
Qed.

Lemma appended_rows backEnd tags rows :
  fold_left
    (fun rows tag => rows ++ [{| text := labelForTag backEnd tag; tagRole := tag |}])
    tags rows
  = rows ++ map (fun tag => {| text := labelForTag backEnd tag; tagRole := tag |}) tags.
Proof.
  revert rows. induction tags as [|tag tags IH]; intros rows; simpl.
  - now rewrite app_nil_r.
  - now rewrite IH, <- app_assoc.
Qed.

Lemma slotTagAdded_cons tag label x rest :
  slotTagAdded tag label (x :: rest) =
    if 0 <? compare (text x) label
    then {| text := label; tagRole := tag |} :: x :: rest
    else x :: slotTagAdded tag label rest.
Proof.
  unfold slotTagAdded, insertRow. simpl.
  now destruct (0 <? compare (text x) label).
Qed.

Lemma slotTagAdded_Forall (P : QStandardItem -> Prop) tag label rows :
  P {| text := label; tagRole := tag |} -> Forall P rows ->
  Forall P (slotTagAdded tag label rows).
Proof.
  intros Hitem. induction 1 as [|x rest Hx Hrest IH].
  - now repeat constructor.
  - rewrite slotTagAdded_cons.
    destruct (0 <? compare (text x) label); repeat constructor; assumption.
Qed.

Lemma slotTagAdded_sorted tag label rows :
  StronglySorted labelLe rows -> StronglySorted labelLe (slotTagAdded tag label rows).
Proof.
  induction 1 as [|x rest Hsorted IH Hall].
  - repeat constructor.
  - rewrite slotTagAdded_cons.
    destruct (Z.ltb_spec 0 (compare (text x) label)) as [Hgt|Hle].
    + assert (Hitem : labelLe {| text := label; tagRole := tag |} x).
      { unfold labelLe. simpl.
        destruct (compare_flip (text x) label) as (_ & _ & Hflip). specialize (Hflip Hgt). lia. }
      constructor; [now constructor|].
      constructor; [assumption|].
      eapply Forall_impl; [exact Hall|].
      intros y Hy. now apply (labelLe_trans _ x y).
    + constructor; [assumption|].
      apply slotTagAdded_Forall; assumption.
Qed.

Lemma slotTagAdded_position tag label rows :
  exists before after,
    rows = before ++ after /\
    slotTagAdded tag label rows = before ++ {| text := label; tagRole := tag |} :: after /\
    Forall (fun x => compare (text x) label <= 0) before /\
    match after with
    | [] => True
    | x :: _ => 0 < compare (text x) label
    end.
Proof.
  induction rows as [|x rest (before & after & Hrows & Hadded & Hbefore & Hafter)].
  - exists [], []. repeat split. constructor.
  - rewrite slotTagAdded_cons.
    destruct (Z.ltb_spec 0 (compare (text x) label)) as [Hgt|Hle].
    + exists [], (x :: rest). repeat split; [constructor|assumption].
    + exists (x :: before), after. rewrite Hadded, Hrows.
      repeat split; [now constructor|assumption].
Qed.

(** C7.  The rows of the tag model are in ascending label order:
    [refresh] fills the model with one row per tag of the back end,
    labelled by [labelForTag], and leaves it sorted; [slotTagAdded] puts
    the new row before the first row whose label compares greater than the
    new label (after all rows if there is none); and after any sequence
    of [tagAdded] signals on a refreshed model the rows are still sorted. *)
Theorem rows_stay_sorted (backEnd : AbstractSemanticInfoBackEnd)
    (events : list (SemanticInfoTag * QString)) :
  StronglySorted labelLe (refresh backEnd) /\
  Permutation (refresh backEnd)
    (map (fun tag => {| text := labelForTag backEnd tag; tagRole := tag |})
       (allTags backEnd)) /\
  (forall tag label rows,
      exists before after,
        rows = before ++ after /\
        slotTagAdded tag label rows =
          before ++ {| text := label; tagRole := tag |} :: after /\
        Forall (fun x => compare (text x) label <= 0) before /\
        match after with
        | [] => True
        | x :: _ => 0 < compare (text x) label
        end) /\
  StronglySorted labelLe (tagsAdded events (refresh backEnd)).
Proof.
  split; [apply sort_sorted|].
  split; [unfold refresh; rewrite appended_rows; apply sort_perm|].
  split; [apply slotTagAdded_position|].
  unfold tagsAdded.
  generalize (sort_sorted
                (fold_left
                   (fun rows tag =>
                      rows ++ [{| text := labelForTag backEnd tag; tagRole := tag |}])
                   (allTags backEnd) [])).
  fold (refresh backEnd). generalize (refresh backEnd) as rows.
  induction events as [|[tag label] events IH]; intros rows Hsorted; simpl.
  - assumption.
  - apply IH. now apply slotTagAdded_sorted.
Qed.

(** The sample back end: "trip", "cat", "tree" come out as "cat", "tree",
    "trip", and adding "dog" and then "tree" again keeps the order. *)
Example rows_stay_sorted_sample :
  map text (refresh sampleBackEnd) =
    [[99; 97; 116]; [116; 114; 101; 101]; [116; 114; 105; 112]] /\
  map text (tagsAdded [([100; 111; 103], [100; 111; 103]);
                       ([116; 50], [116; 114; 101; 101])]
              (refresh sampleBackEnd)) =
    [[99; 97; 116]; [100; 111; 103]; [116; 114; 101; 101]; [116; 114; 101; 101];
     [116; 114; 105; 112]] /\
  map tagRole (tagsAdded [([100; 111; 103], [100; 111; 103]);
                          ([116; 50], [116; 114; 101; 101])]
                 (refresh sampleBackEnd)) =
    [[99; 97; 116]; [100; 111; 103]; [116; 114; 101; 101]; [116; 50];
     [116; 114; 105; 112]].
Proof. repeat split. Qed.

Lemma slotTagAdded_perm tag label rows :
  Permutation (slotTagAdded tag label rows) ({| text := label; tagRole := tag |} :: rows).
Proof.
  destruct (slotTagAdded_position tag label rows) as (before & after & -> & -> & _).
  symmetry. apply Permutation_middle.
Qed.

Lemma tagsAdded_perm events rows :
  Permutation (tagsAdded events rows)
    (rows ++ map (fun e => {| text := snd e; tagRole := fst e |}) events).
Proof.
  unfold tagsAdded. revert rows.
  induction events as [|[tag label] events IH]; intros rows; cbn [fold_left map fst snd].
  - now rewrite app_nil_r.
  - rewrite IH, slotTagAdded_perm. cbn [app]. apply Permutation_middle.
Qed.

(** X17.  The model neither loses nor merges rows: after any sequence of
    [tagAdded] signals on a refreshed model, its rows are the rows of the
    back end's tags together with one row per signal, each with the tag
    and the label of its signal, also when that tag is in the model
    already. *)
Theorem tagsAdded_rows (backEnd : AbstractSemanticInfoBackEnd)
    (events : list (SemanticInfoTag * QString)) :
  Permutation (tagsAdded events (refresh backEnd))
    (map (fun tag => {| text := labelForTag backEnd tag; tagRole := tag |}) (allTags backEnd)
       ++ map (fun e => {| text := snd e; tagRole := fst e |}) events) /\
  length (tagsAdded events (refresh backEnd))
    = (length (allTags backEnd) + length events)%nat.
Proof.
  assert (Hperm :
            Permutation (tagsAdded events (refresh backEnd))
              (map (fun tag => {| text := labelForTag backEnd tag; tagRole := tag |})
                 (allTags backEnd)
                 ++ map (fun e => {| text := snd e; tagRole := fst e |}) events)).
  { rewrite tagsAdded_perm. apply Permutation_app_tail.
    unfold refresh. rewrite appended_rows. apply sort_perm. }
  split; [exact Hperm|].
  rewrite (Permutation_length Hperm), length_app, !length_map. reflexivity.
Qed.

End TagModelFacts.

(** ** The image meta-info model *)

Module ImageMetaInfoModelFacts.
Import ImageMetaInfoModel.

Lemma groupAt_in_range m g :
  0 <= g < groupCount m -> exists group, groupAt m g = Some group.
Proof.
  intros Hg. unfold groupAt.
  replace ((0 <=? g) && (g <? groupCount m)) with true
    by (symmetry; apply andb_true_iff; split; [apply Z.leb_le|apply Z.ltb_lt]; lia).
  apply lookup_lt_is_Some_2. unfold groupCount in Hg. lia.
Qed.

Lemma isValid_createIndex row col id :
  QModelIndex.isValid (createIndex row col id) = (0 <=? row) && (0 <=? col).
Proof. unfold QModelIndex.isValid, createIndex. simpl. apply andb_true_r. Qed.

Lemma index_group m row col :
  index m row col QModelIndex.invalid =
    if 0 <? col then Some QModelIndex.invalid
    else if groupCount m <=? row then Some QModelIndex.invalid
    else Some (createIndex row col NoGroup).
Proof. reflexivity. Qed.

Lemma index_entry m g group row col :
  0 <= g -> groupAt m g = Some group ->
  index m row col (createIndex g 0 NoGroup) =
    if 1 <? col then Some QModelIndex.invalid
    else if size group <=? row then Some QModelIndex.invalid
    else Some (createIndex row col g).
Proof.
  intros Hg Hgroup. unfold index.
  rewrite isValid_createIndex.
  replace (0 <=? g) with true by (symmetry; apply Z.leb_le; lia).
  simpl. now rewrite Hgroup.
Qed.

(** C8.  [index] and [parent] describe a two-level tree.  For a group row
    [0 <= g < groupCount], [index(g, 0)] under the invalid parent is a
    valid index whose parent is the invalid index; under it, for an entry
    row [0 <= r < size] of that group and a column 0 or 1, [index(r, c)]
    is a valid index whose parent is [index(g, 0)] and whose row count is
    0; a row outside a group's entries or a column above 1 yields an
    invalid index there, and at the top level a row outside the groups or
    a column above 0 yields an invalid index. *)
Theorem index_parent_consistent (m : t) (g : Z) :
  0 <= g < groupCount m ->
  exists groupIndex group,
    index m g 0 QModelIndex.invalid = Some groupIndex /\
    QModelIndex.isValid groupIndex = true /\
    parent groupIndex = QModelIndex.invalid /\
    QModelIndex.isValid (parent groupIndex) = false /\
    groupAt m g = Some group /\
    rowCount m groupIndex = Some (size group) /\
    (forall r c,
        0 <= r < size group -> c = 0 \/ c = 1 ->
        exists entryIndex,
          index m r c groupIndex = Some entryIndex /\
          QModelIndex.isValid entryIndex = true /\
          parent entryIndex = groupIndex /\
          rowCount m entryIndex = Some 0) /\
    (forall r c,
        r < 0 \/ size group <= r \/ 1 < c ->
        exists entryIndex,
          index m r c groupIndex = Some entryIndex /\
          QModelIndex.isValid entryIndex = false) /\
    (forall row col,
        row < 0 \/ groupCount m <= row \/ 0 < col ->
        exists groupIndex',
          index m row col QModelIndex.invalid = Some groupIndex' /\
          QModelIndex.isValid groupIndex' = false).
Proof.
  intros Hg.
  destruct (groupAt_in_range m g Hg) as [group Hgroup].
  exists (createIndex g 0 NoGroup), group.
  split.
  { rewrite index_group. simpl.
    destruct (Z.leb_spec (groupCount m) g); [lia|reflexivity]. }
  split.
  { rewrite isValid_createIndex.
    destruct (Z.leb_spec 0 g); [reflexivity|lia]. }
  assert (Hvalid : QModelIndex.isValid (createIndex g 0 NoGroup) = true).
  { rewrite isValid_createIndex. destruct (Z.leb_spec 0 g); [reflexivity|lia]. }
  split; [unfold parent; now rewrite Hvalid|].
  split; [unfold parent; now rewrite Hvalid|].
  split; [exact Hgroup|].
  split.
  { unfold rowCount. rewrite Hvalid. simpl. now rewrite Hgroup. }
  split; [|split].
  - intros r c Hr Hc.
    exists (createIndex r c g).
    rewrite (index_entry m g group r c) by (lia || assumption).
    assert (Hentry : QModelIndex.isValid (createIndex r c g) = true).
    { rewrite isValid_createIndex.
      destruct (Z.leb_spec 0 r); [|lia].
      destruct Hc; subst c; reflexivity. }
    assert (Hid : (g =? NoGroup) = false) by (apply Z.eqb_neq; unfold NoGroup; lia).
    split.
    { destruct (Z.ltb_spec 1 c); [lia|].
      destruct (Z.leb_spec (size group) r); [lia|reflexivity]. }
    split; [exact Hentry|].
    split.
    + unfold parent. rewrite Hentry. simpl. now rewrite Hid.
    + unfold rowCount. rewrite Hentry. simpl. now rewrite Hid.
  - intros r c Hout.
    rewrite (index_entry m g group r c) by (lia || assumption).
    destruct (Z.ltb_spec 1 c); [eexists; split; reflexivity|].
    destruct (Z.leb_spec (size group) r); [eexists; split; reflexivity|].
    exists (createIndex r c g). split; [reflexivity|].
    rewrite isValid_createIndex.
    destruct (Z.leb_spec 0 r); [lia|reflexivity].
  - intros row col Hout. rewrite index_group.
    destruct (Z.ltb_spec 0 col); [eexists; split; reflexivity|].
    destruct (Z.leb_spec (groupCount m) row); [eexists; split; reflexivity|].
    exists (createIndex row col NoGroup). split; [reflexivity|].
    rewrite isValid_createIndex.
    destruct (Z.leb_spec 0 row); [lia|reflexivity].
Qed.

(** C8, run on the model as constructed: the third entry of the General
    group, in the value column. *)
Lemma index_parent_consistent_witness :
  0 <= GeneralGroup < groupCount constructed /\
  index constructed GeneralGroup 0 QModelIndex.invalid
    = Some (createIndex GeneralGroup 0 NoGroup) /\
  exists entryIndex,
    index constructed 2 1 (createIndex GeneralGroup 0 NoGroup) = Some entryIndex /\
    parent entryIndex = createIndex GeneralGroup 0 NoGroup /\
    rowCount constructed entryIndex = Some 0.
Proof.
  assert (Hg : 0 <= GeneralGroup < groupCount constructed)
    by (unfold GeneralGroup, groupCount; simpl; lia).
  split; [exact Hg|].
  destruct (index_parent_consistent constructed GeneralGroup Hg)
    as (groupIndex & group & Hindex & _ & _ & _ & Hgroup & _ & Hentries & _).
  assert (HgroupIndex : groupIndex = createIndex GeneralGroup 0 NoGroup).
  { vm_compute in Hindex. now injection Hindex as <-. }
  subst groupIndex.
  split; [exact Hindex|].
  assert (Hsize : size group = 4).
  { vm_compute in Hgroup. injection Hgroup as <-. reflexivity. }
  destruct (Hentries 2 1) as (entryIndex & Hentry & _ & Hparent & Hcount).
  - rewrite Hsize. lia.
  - now right.
  - exists entryIndex. repeat split; assumption.
Defined.

(** **** Data of the indexes *)

Lemma groupAt_Some m g group :
  groupAt m g = Some group -> 0 <= g < groupCount m.
Proof.
  unfold groupAt. destruct (Z.leb_spec 0 g), (Z.ltb_spec g (groupCount m)); simpl;
    try discriminate. lia.
Qed.

Lemma entryAt_in_range group row :
  0 <= row < size group ->
  exists entry, mList group !! Z.to_nat row = Some entry /\ Group.entryAt group row = Some entry.
Proof.
  intros Hrow. unfold Group.entryAt.
  destruct (Z.leb_spec 0 row); [|lia]. destruct (Z.ltb_spec row (size group)); [|lia].
  simpl. destruct (lookup_lt_is_Some_2 (mList group) (Z.to_nat row)) as [entry Hentry].
  - unfold size in Hrow. lia.
  - now exists entry.
Qed.

(** X18.  Every valid index that [index] hands out can be used with [data],
    [keyForIndex] and [rowCount] without an access outside the lists: a
    group index shows the label of its group, an entry index the label of
    its entry in column 0 and its value in column 1, and has the entry's
    key.  Roles other than the display role have no data. *)
Theorem data_of_model_indexes
    (m : t) (row col : Z) (parent i : QModelIndex.t) :
  index m row col parent = Some i ->
  QModelIndex.isValid i = true ->
  (QModelIndex.isValid parent = false ->
   exists group,
     groupAt m row = Some group /\
     data m i DisplayRole = Some (QVariant_string (mLabel group)) /\
     keyForIndex m i = Some EmptyString /\
     rowCount m i = Some (size group)) /\
  (QModelIndex.isValid parent = true ->
   exists group entry,
     groupAt m (QModelIndex.row parent) = Some group /\
     mList group !! Z.to_nat row = Some entry /\
     data m i DisplayRole =
       Some (QVariant_string (if col =? 0 then mEntryLabel entry else mValue entry)) /\
     keyForIndex m i = Some (mKey entry) /\
     rowCount m i = Some 0) /\
  (forall role, role <> DisplayRole -> data m i role = Some QVariant_null).
Proof.
  intros Hindex Hvalid.
  split; [|split].
  - intros Hparent. unfold index in Hindex. rewrite Hparent in Hindex. cbn [negb] in Hindex.
    destruct (Z.ltb_spec 0 col) as [Hcol|Hcol];
      [injection Hindex as <-; discriminate|].
    destruct (Z.leb_spec (groupCount m) row) as [Hrow|Hrow];
      [injection Hindex as <-; discriminate|].
    injection Hindex as <-.
    rewrite isValid_createIndex in Hvalid.
    apply andb_true_iff in Hvalid as [Hrow0 Hcol0].
    apply Z.leb_le in Hrow0. apply Z.leb_le in Hcol0.
    destruct (groupAt_in_range m row) as [group Hgroup]; [lia|].
    exists group. split; [assumption|].
    unfold data, displayData, keyForIndex, rowCount.
    rewrite isValid_createIndex.
    rewrite (proj2 (Z.leb_le 0 row)), (proj2 (Z.leb_le 0 col)) by assumption.
    cbn. rewrite Hgroup.
    destruct (Z.ltb_spec 0 col); [lia|]. repeat split.
  - intros Hparent. unfold index in Hindex. rewrite Hparent in Hindex. cbn [negb] in Hindex.
    destruct (Z.ltb_spec 1 col) as [Hcol|Hcol];
      [injection Hindex as <-; discriminate|].
    destruct (groupAt m (QModelIndex.row parent)) as [group|] eqn:Hgroup; [|discriminate].
    destruct (Z.leb_spec (size group) row) as [Hrow|Hrow];
      [injection Hindex as <-; discriminate|].
    injection Hindex as <-.
    rewrite isValid_createIndex in Hvalid.
    apply andb_true_iff in Hvalid as [Hrow0 Hcol0].
    apply Z.leb_le in Hrow0. apply Z.leb_le in Hcol0.
    destruct (entryAt_in_range group row) as (entry & Hentry & Hat); [lia|].
    pose proof (groupAt_Some m _ group Hgroup) as Hg.
    exists group, entry. split; [reflexivity|]. split; [assumption|].
    unfold data, displayData, keyForIndex, rowCount.
    rewrite isValid_createIndex.
    rewrite (proj2 (Z.leb_le 0 row)), (proj2 (Z.leb_le 0 col)) by assumption.
    cbn.
    assert (Hid : (QModelIndex.row parent =? NoGroup) = false)
      by (apply Z.eqb_neq; unfold NoGroup; lia).
    rewrite Hid, Hgroup. cbn.
    unfold Group.getLabelForKeyAt, Group.getValueForKeyAt, Group.getKeyAt. rewrite Hat.
    destruct (col =? 0); repeat split.
  - intros role Hrole. unfold data. rewrite Hvalid. cbn [negb].
    now rewrite (proj2 (Z.eqb_neq role DisplayRole)).
Qed.

(** **** The calls of the document *)

Lemma create_constructed : create = Some constructed.
Proof. reflexivity. Qed.

Lemma wellFormed_shape m :
  wellFormed m <->
  exists label name size time imageSize exif iptc,
    m = {| mMetaInfoGroupVector :=
             [generalGroup label name size time imageSize; exif; iptc] |}.
Proof.
  split.
  - destruct m as [vector]. intros (general & exif & iptc & Hvector & Hkeys & Hlabels).
    simpl in Hvector. subst vector. destruct general as [entries label].
    simpl in Hkeys, Hlabels.
    destruct entries as [|[k0 l0 v0] [|[k1 l1 v1] [|[k2 l2 v2] [|[k3 l3 v3] [|? ?]]]]];
      try discriminate.
    simpl in Hkeys, Hlabels.
    injection Hkeys as -> -> -> ->. injection Hlabels as -> -> -> ->.
    now exists label, v0, v1, v2, v3, exif, iptc.
  - intros (label & name & size & time & imageSize & exif & iptc & ->).
    now exists (generalGroup label name size time imageSize), exif, iptc.
Qed.

Lemma wellFormed_constructed : wellFormed constructed.
Proof.
  apply wellFormed_shape.
  now exists "General", EmptyString, EmptyString, EmptyString, EmptyString,
    {| mList := []; mLabel := "Exif" |}, {| mList := []; mLabel := "Iptc" |}.
Qed.

Lemma fillExivGroup_entries group data :
  fillExivGroup group data =
    {| mList := mList group ++ map entryOf data; mLabel := mLabel group |}.
Proof.
  unfold fillExivGroup. revert group.
  induction data as [|datum data IH]; intros group; cbn [fold_left map].
  - rewrite app_nil_r. now destruct group.
  - rewrite IH. unfold Group.addEntry. cbn [mList mLabel]. now rewrite <- app_assoc.
Qed.

Lemma setExiv2Image_shape image general exif iptc :
  let exifIndex := createIndex ExifGroup 0 NoGroup in
  let iptcIndex := createIndex IptcGroup 0 NoGroup in
  let exif' := {| mList := exifEntries image; mLabel := mLabel exif |} in
  let iptc' := {| mList := iptcEntries image; mLabel := mLabel iptc |} in
  setExiv2Image image {| mMetaInfoGroupVector := [general; exif; iptc] |} =
    Some ({| mMetaInfoGroupVector := [general; exif'; iptc'] |},
          snd (clearGroup exif exifIndex) ++ snd (clearGroup iptc iptcIndex)
            ++ notifyGroupFilled exif' exifIndex ++ notifyGroupFilled iptc' iptcIndex).
Proof.
  intros exifIndex iptcIndex exif' iptc'.
  unfold setExiv2Image.
  change (groupAt {| mMetaInfoGroupVector := [general; exif; iptc] |} ExifGroup)
    with (Some exif).
  change (groupAt {| mMetaInfoGroupVector := [general; exif; iptc] |} IptcGroup)
    with (Some iptc).
  change (index {| mMetaInfoGroupVector := [general; exif; iptc] |} ExifGroup 0
            QModelIndex.invalid) with (Some exifIndex).
  change (index {| mMetaInfoGroupVector := [general; exif; iptc] |} IptcGroup 0
            QModelIndex.invalid) with (Some iptcIndex).
  cbn [mbind option_bind].
  assert (Hclear : forall group parent,
             fst (clearGroup group parent) = {| mList := []; mLabel := mLabel group |} ).
  { intros [entries label] parent. unfold clearGroup, size. cbn [mList mLabel].
    destruct entries; reflexivity. }
  pose proof (Hclear exif exifIndex) as Hexif.
  pose proof (Hclear iptc iptcIndex) as Hiptc.
  destruct (clearGroup exif exifIndex) as [exifGroup removedExif].
  destruct (clearGroup iptc iptcIndex) as [iptcGroup removedIptc].
  cbn [fst snd] in *. subst exifGroup iptcGroup.
  subst exif' iptc'. unfold exifEntries, iptcEntries.
  destruct image as [image|].
  - rewrite !fillExivGroup_entries. cbn [mList mLabel app].
    destruct (supportsExif image), (supportsIptc image);
      cbn [setGroup mMetaInfoGroupVector]; repeat f_equal;
      try (rewrite ?app_nil_r; reflexivity).
  - cbn [setGroup mMetaInfoGroupVector]. repeat f_equal.
    rewrite ?app_nil_r. reflexivity.
Qed.

Lemma perform_wellFormed i18nc_dimensions call m :
  wellFormed m ->
  exists m' signals, perform i18nc_dimensions call m = Some (m', signals) /\ wellFormed m'.
Proof.
  intros Hwf. apply wellFormed_shape in Hwf
    as (label & name & size & time & imageSize & exif & iptc & ->).
  destruct call as [item|dimensions|image]; cbn [perform].
  - eexists _, _. split; [reflexivity|].
    apply wellFormed_shape. now eexists _, _, _, _, _, _, _.
  - eexists _, _. split; [reflexivity|].
    apply wellFormed_shape. now eexists _, _, _, _, _, _, _.
  - rewrite setExiv2Image_shape. eexists _, _. split; [reflexivity|].
    apply wellFormed_shape. now eexists _, _, _, _, _, _, _.
Qed.

Lemma performAll_cons i18nc_dimensions call calls m m' signals :
  perform i18nc_dimensions call m = Some (m', signals) ->
  performAll i18nc_dimensions (call :: calls) m = performAll i18nc_dimensions calls m'.
Proof. intros Hcall. unfold performAll. cbn [fold_left mbind option_bind]. now rewrite Hcall. Qed.

(** X19.  Whatever calls of [setFileItem], [setImageSize] and [setExiv2Image] a
    model receives after its construction, in whatever order, none of them
    runs into a missing key or an access outside a list, and the model
    keeps its three groups and the four entries of the General group with
    their keys and labels. *)
Theorem calls_keep_the_model_well_formed
    (i18nc_dimensions : Z -> Z -> string) (calls : list Call) :
  exists m,
    performAll i18nc_dimensions calls constructed = Some m /\
    wellFormed m /\
    rowCount m QModelIndex.invalid = Some 3 /\
    rowCount m (createIndex GeneralGroup 0 NoGroup) = Some 4.
Proof.
  assert (Hall : forall m,
             wellFormed m ->
             exists m', performAll i18nc_dimensions calls m = Some m' /\ wellFormed m').
  { induction calls as [|call calls IH]; intros m Hwf.
    - now exists m.
    - destruct (perform_wellFormed i18nc_dimensions call m Hwf) as (m1 & signals & Hcall & Hwf1).
      rewrite (performAll_cons _ _ _ _ _ _ Hcall). now apply IH. }
  destruct (Hall constructed wellFormed_constructed) as (m & Hm & Hwf).
  exists m. split; [assumption|]. split; [assumption|].
  apply wellFormed_shape in Hwf
    as (label & name & size & time & imageSize & exif & iptc & ->).
  split; reflexivity.
Qed.

(** X20.  [setFileItem] followed by [getInfoForKey]: on a well-formed model the
    call succeeds, announces the three changed values with [dataChanged]
    (column 1 of rows 0, 1 and 2 of the General group), and afterwards the
    keys General.Name, General.Size and General.Time give the item's name,
    size and time with their labels; the image size and the Exif and Iptc
    groups are as before. *)
Theorem setFileItem_round_trip (item : FileItem) (m : t) :
  wellFormed m ->
  exists m',
    setFileItem item m =
      Some (m', [dataChanged (createIndex 0 1 GeneralGroup) (createIndex 0 1 GeneralGroup);
                 dataChanged (createIndex 1 1 GeneralGroup) (createIndex 1 1 GeneralGroup);
                 dataChanged (createIndex 2 1 GeneralGroup) (createIndex 2 1 GeneralGroup)]) /\
    wellFormed m' /\
    (forall out,
        getInfoForKey "General.Name" out m' = Some ("Name", itemName item) /\
        getInfoForKey "General.Size" out m' = Some ("File Size", itemSizeString item) /\
        getInfoForKey "General.Time" out m' = Some ("File Time", itemTimeString item) /\
        getInfoForKey "General.ImageSize" out m' = getInfoForKey "General.ImageSize" out m) /\
    data m' (createIndex 0 1 GeneralGroup) DisplayRole
      = Some (QVariant_string (itemName item)) /\
    groupAt m' ExifGroup = groupAt m ExifGroup /\
    groupAt m' IptcGroup = groupAt m IptcGroup.
Proof.
  intros Hwf. apply wellFormed_shape in Hwf
    as (label & name & size & time & imageSize & exif & iptc & ->).
  eexists. split; [reflexivity|]. split.
  { apply wellFormed_shape. now eexists _, _, _, _, _, _, _. }
  repeat split.
Qed.

Lemma append_empty (text : string) : String.append text EmptyString = text.
Proof.
  induction text as [|c text IH]; [reflexivity|].
  change (String c (String.append text EmptyString) = String c text). now rewrite IH.
Qed.

(** X21.  [setImageSize] never shows the number of megapixels: the value of
    General.ImageSize becomes the formatted width and height, followed by
    a single blank when the image has more than 100000 pixels, or "-" for
    an invalid size. *)
Theorem setImageSize_value
    (i18nc_dimensions : Z -> Z -> string) (dimensions : QSize.t) (m : t) :
  wellFormed m ->
  exists m',
    setImageSize i18nc_dimensions dimensions m =
      Some (m', [dataChanged (createIndex 3 1 GeneralGroup) (createIndex 3 1 GeneralGroup)]) /\
    wellFormed m' /\
    getInfoForKey "General.ImageSize" (EmptyString, EmptyString) m' =
      Some ("Image Size",
            if QSize.isValid dimensions then
              String.append
                (i18nc_dimensions (QSize.width dimensions) (QSize.height dimensions))
                (if 100000 <? mulInt (QSize.width dimensions) (QSize.height dimensions)
                 then " " else EmptyString)
            else "-") /\
    (forall key out,
        key <> "General.ImageSize" ->
        getInfoForKey key out m' = getInfoForKey key out m).
Proof.
  intros Hwf. apply wellFormed_shape in Hwf
    as (label & name & size & time & imageSize & exif & iptc & ->).
  eexists. split; [reflexivity|]. split.
  { apply wellFormed_shape. now eexists _, _, _, _, _, _, _. }
  split.
  - cbn. destruct (QSize.isValid dimensions); [|reflexivity].
    destruct (100000 <? _); [reflexivity|].
    now rewrite append_empty.
  - intros key out Hkey. unfold getInfoForKey.
    destruct (String.prefix "General" key); [|reflexivity].
    change (groupAt _ GeneralGroup) with
      (Some (generalGroup label name size time
               (if QSize.isValid dimensions
                then
                  if 100000 <? mulInt (QSize.width dimensions) (QSize.height dimensions)
                  then String.append
                         (i18nc_dimensions (QSize.width dimensions) (QSize.height dimensions))
                         " "
                  else i18nc_dimensions (QSize.width dimensions) (QSize.height dimensions)
                else "-"))) at 1.
    change (groupAt _ GeneralGroup) with
      (Some (generalGroup label name size time imageSize)).
    cbn [mbind option_bind]. f_equal.
    unfold Group.getInfoForKey, generalGroup. cbn [mList Group.getInfoForKeyIn mKey].
    destruct (String.eqb "General.Name" key); [reflexivity|].
    destruct (String.eqb "General.Size" key); [reflexivity|].
    destruct (String.eqb "General.Time" key); [reflexivity|].
    destruct (String.eqb_spec "General.ImageSize" key); [congruence|reflexivity].
Qed.

(** X22.  [setExiv2Image] replaces the entries of the Exif and Iptc groups by
    those of the image, one per metadatum in the order of the image's
    data, and empties the groups for a null image or for a kind of
    metadata the image does not support.  It announces the removal of the
    old rows of each group that had some, then the insertion of the new
    rows of each group that has some, and leaves the General group
    alone. *)
Theorem setExiv2Image_replaces_metadata (image : option Exiv2Image) (m : t) :
  wellFormed m ->
  exists general exif iptc m' signals,
    let exifIndex := createIndex ExifGroup 0 NoGroup in
    let iptcIndex := createIndex IptcGroup 0 NoGroup in
    mMetaInfoGroupVector m = [general; exif; iptc] /\
    setExiv2Image image m = Some (m', signals) /\
    mMetaInfoGroupVector m' =
      [general;
       {| mList := exifEntries image; mLabel := mLabel exif |};
       {| mList := iptcEntries image; mLabel := mLabel iptc |}] /\
    signals =
      (if 0 <? size exif then [rowsRemoved exifIndex 0 (size exif - 1)] else [])
        ++ (if 0 <? size iptc then [rowsRemoved iptcIndex 0 (size iptc - 1)] else [])
        ++ match exifEntries image with
           | [] => []
           | _ :: _ => [rowsInserted exifIndex 0 (Z.of_nat (length (exifEntries image)) - 1)]
           end
        ++ match iptcEntries image with
           | [] => []
           | _ :: _ => [rowsInserted iptcIndex 0 (Z.of_nat (length (iptcEntries image)) - 1)]
           end /\
    rowCount m' exifIndex = Some (Z.of_nat (length (exifEntries image))) /\
    rowCount m' iptcIndex = Some (Z.of_nat (length (iptcEntries image))).
Proof.
  intros (general & exif & iptc & Hvector & _).
  destruct m as [vector]. simpl in Hvector. subst vector.
  exists general, exif, iptc. eexists _, _. cbv zeta.
  split; [reflexivity|]. split; [apply setExiv2Image_shape|].
  split; [reflexivity|]. split; [|split; reflexivity].
  f_equal; [|f_equal; [|f_equal]].
  - unfold clearGroup. now destruct (0 <? size exif).
  - unfold clearGroup. now destruct (0 <? size iptc).
  - unfold notifyGroupFilled, size. cbn [mList]. now destruct (exifEntries image).
  - unfold notifyGroupFilled, size. cbn [mList]. now destruct (iptcEntries image).
Qed.

(** **** The statements on the constructed model *)

(** The value column of the third General entry. *)
Lemma data_of_model_indexes_witness :
  index constructed 2 1 (createIndex GeneralGroup 0 NoGroup)
    = Some (createIndex 2 1 GeneralGroup) /\
  QModelIndex.isValid (createIndex 2 1 GeneralGroup) = true /\
  exists group entry,
    groupAt constructed GeneralGroup = Some group /\
    mList group !! 2%nat = Some entry /\
    data constructed (createIndex 2 1 GeneralGroup) DisplayRole
      = Some (QVariant_string (mValue entry)) /\
    keyForIndex constructed (createIndex 2 1 GeneralGroup) = Some (mKey entry) /\
    rowCount constructed (createIndex 2 1 GeneralGroup) = Some 0.
Proof.
  split; [reflexivity|]. split; [reflexivity|].
  exact (proj1 (proj2 (data_of_model_indexes constructed 2 1
                         (createIndex GeneralGroup 0 NoGroup) (createIndex 2 1 GeneralGroup)
                         eq_refl eq_refl)) eq_refl).
Defined.

(** [setFileItem] on the constructed model. *)
Lemma setFileItem_round_trip_witness :
  wellFormed constructed /\
  exists m',
    (fst <$> setFileItem sampleItem constructed) = Some m' /\
    getValueForKey "General.Name" m' = Some "a.png" /\
    getValueForKey "General.Time" m' = Some "2009-01-01 12:00".
Proof.
  split; [exact wellFormed_constructed|].
  destruct (setFileItem_round_trip sampleItem constructed wellFormed_constructed)
    as (m' & Hset & _ & Hget & _).
  exists m'. split; [now rewrite Hset|].
  destruct (Hget (EmptyString, EmptyString)) as (Hname & _ & Htime & _).
  unfold getValueForKey. rewrite Hname, Htime. split; reflexivity.
Defined.

(** [setImageSize] with 800x600 on the constructed model: the value ends
    with a blank. *)
Lemma setImageSize_value_witness :
  wellFormed constructed /\
  exists m',
    (fst <$> setImageSize sampleDimensions (QSize.make 800 600) constructed) = Some m' /\
    getValueForKey "General.ImageSize" m' = Some "800x600 ".
Proof.
  split; [exact wellFormed_constructed|].
  destruct (setImageSize_value sampleDimensions (QSize.make 800 600) constructed
              wellFormed_constructed) as (m' & Hset & _ & Hget & _).
  exists m'. split; [now rewrite Hset|].
  unfold getValueForKey. rewrite Hget. reflexivity.
Defined.

(** [setExiv2Image] with [sampleImage] on the constructed model. *)
Lemma setExiv2Image_replaces_metadata_witness :
  wellFormed constructed /\
  exists m' signals,
    setExiv2Image (Some sampleImage) constructed = Some (m', signals) /\
    rowCount m' (createIndex ExifGroup 0 NoGroup) = Some 1 /\
    rowCount m' (createIndex IptcGroup 0 NoGroup) = Some 0.
Proof.
  split; [exact wellFormed_constructed|].
  destruct (setExiv2Image_replaces_metadata (Some sampleImage) constructed
              wellFormed_constructed)
    as (general & exif & iptc & m' & signals & _ & Hset & _ & _ & Hexif & Hiptc).
  exists m', signals. split; [exact Hset|]. split; [exact Hexif|exact Hiptc].
Defined.

End ImageMetaInfoModelFacts.

Module InfoContextManagerItemFacts.
Import ImageMetaInfoModel InfoContextManagerItem.

Lemma getInfoForKeyIn_find entries key out :
  Group.getInfoForKeyIn entries key out =
    match List.find (fun entry => String.eqb (mKey entry) key) entries with
    | Some entry => (mEntryLabel entry, mValue entry)
    | None => out
    end.
Proof.
  induction entries as [|entry entries IH]; [reflexivity|].
  cbn [Group.getInfoForKeyIn List.find]. now destruct (String.eqb (mKey entry) key).
Qed.

Lemma groupAt_elem m g group :
  groupAt m g = Some group -> group ∈ mMetaInfoGroupVector m.
Proof.
  unfold groupAt. destruct (_ && _); [|discriminate]. apply list_elem_of_lookup_2.
Qed.

Lemma getInfoForKey_entry m key label value :
  getInfoForKey key (EmptyString, EmptyString) m = Some (label, value) ->
  label <> EmptyString ->
  exists group entry,
    group ∈ mMetaInfoGroupVector m /\
    firstWithKey group key = Some entry /\
    mEntryLabel entry = label /\ mValue entry = value.
Proof.
  unfold getInfoForKey, firstWithKey.
  assert (Hgroup : forall g,
             (group ← groupAt m g;
              Some (Group.getInfoForKey group key (EmptyString, EmptyString)))
               = Some (label, value) ->
             label <> EmptyString ->
             exists group entry,
               group ∈ mMetaInfoGroupVector m /\
               List.find (fun entry => String.eqb (mKey entry) key) (mList group) = Some entry /\
               mEntryLabel entry = label /\ mValue entry = value).
  { intros g Hget Hlabel.
    destruct (groupAt m g) as [group|] eqn:Hat; [|discriminate].
    cbn [mbind option_bind] in Hget. unfold Group.getInfoForKey in Hget.
    rewrite getInfoForKeyIn_find in Hget.
    exists group.
    destruct (List.find _ (mList group)) as [entry|].
    - injection Hget as <- <-. exists entry. split; [now apply (groupAt_elem m g)|].
      repeat split.
    - injection Hget as <- _. congruence. }
  destruct (String.prefix "General" key); [apply Hgroup|].
  destruct (String.prefix "Exif" key); [apply Hgroup|].
  destruct (String.prefix "Iptc" key); [apply Hgroup|].
  intros Hget Hlabel. injection Hget as <- _. congruence.
Qed.

Lemma getInfoForKey_defined m key out :
  wellFormed m -> is_Some (getInfoForKey key out m).
Proof.
  intros (general & exif & iptc & Hvector & _).
  destruct m as [vector]. simpl in Hvector. subst vector.
  unfold getInfoForKey.
  destruct (String.prefix "General" key); [now eexists|].
  destruct (String.prefix "Exif" key); [now eexists|].
  destruct (String.prefix "Iptc" key); now eexists.
Qed.

Lemma getInfoForKey_constructed key :
  exists label,
    getInfoForKey key (EmptyString, EmptyString) constructed = Some (label, EmptyString).
Proof.
  unfold getInfoForKey.
  destruct (String.prefix "General" key).
  { change (groupAt constructed GeneralGroup)
      with (Some (generalGroup "General" EmptyString EmptyString EmptyString EmptyString)).
    cbn [mbind option_bind].
    unfold Group.getInfoForKey, generalGroup. cbn [mList Group.getInfoForKeyIn mKey mValue].
    destruct (String.eqb "General.Name" key); [now eexists|].
    destruct (String.eqb "General.Size" key); [now eexists|].
    destruct (String.eqb "General.Time" key); [now eexists|].
    destruct (String.eqb "General.ImageSize" key); now eexists. }
  destruct (String.prefix "Exif" key); [now eexists|].
  destruct (String.prefix "Iptc" key); now eexists.
Qed.

(** X23.  The information panel shows at most one row per preferred key, each
    with a label and a value that are not empty and that are those of the
    first entry with that key in a group of the model; keys that the model
    does not have and entries without a value give no row.  For a model
    that has just been constructed the panel is empty. *)
Theorem updateOneFileInfo_rows (keys : list string) (m : t) :
  wellFormed m ->
  exists rows,
    updateOneFileInfo keys m = Some rows /\
    (length rows <= length keys)%nat /\
    (forall label value,
        (label, value) ∈ rows ->
        label <> EmptyString /\ value <> EmptyString /\
        exists key group entry,
          key ∈ keys /\
          group ∈ mMetaInfoGroupVector m /\
          firstWithKey group key = Some entry /\
          mEntryLabel entry = label /\ mValue entry = value) /\
    updateOneFileInfo keys constructed = Some [].
Proof.
  intros Hwf. unfold updateOneFileInfo.
  assert (Hloop : forall rows0,
    exists rows,
      fold_left
        (fun rows key =>
           rows ← rows;
           '(label, value) ← getInfoForKey key (EmptyString, EmptyString) m;
           if negb (String.eqb label EmptyString) && negb (String.eqb value EmptyString)
           then Some (rows ++ [(label, value)])
           else Some rows)
        keys (Some rows0) = Some (rows0 ++ rows) /\
      (length rows <= length keys)%nat /\
      forall label value,
        (label, value) ∈ rows ->
        label <> EmptyString /\ value <> EmptyString /\
        exists key group entry,
          key ∈ keys /\
          group ∈ mMetaInfoGroupVector m /\
          firstWithKey group key = Some entry /\
          mEntryLabel entry = label /\ mValue entry = value).
  { induction keys as [|key keys IH]; intros rows0.
    - exists []. rewrite app_nil_r. split; [reflexivity|]. split; [reflexivity|].
      intros label value Hin. now apply elem_of_nil in Hin.
    - cbn [fold_left mbind option_bind].
      destruct (getInfoForKey_defined m key (EmptyString, EmptyString) Hwf)
        as [[label value] Hget].
      rewrite Hget. cbn [mbind option_bind].
      destruct (String.eqb_spec label EmptyString) as [Hlabel|Hlabel]; cbn [negb andb].
      + destruct (IH rows0) as (rows & Hrows & Hlength & Hall).
        exists rows. split; [assumption|]. split; [cbn [length]; lia|].
        intros l v Hin. destruct (Hall l v Hin) as (? & ? & k & group & entry & Hk & Hrest).
        split; [assumption|]. split; [assumption|].
        exists k, group, entry. split; [now apply list_elem_of_further|assumption].
      + destruct (String.eqb_spec value EmptyString) as [Hvalue|Hvalue]; cbn [negb].
        * destruct (IH rows0) as (rows & Hrows & Hlength & Hall).
          exists rows. split; [assumption|]. split; [cbn [length]; lia|].
          intros l v Hin. destruct (Hall l v Hin) as (? & ? & k & group & entry & Hk & Hrest).
          split; [assumption|]. split; [assumption|].
          exists k, group, entry. split; [now apply list_elem_of_further|assumption].
        * destruct (IH (rows0 ++ [(label, value)])) as (rows & Hrows & Hlength & Hall).
          exists ((label, value) :: rows).
          split; [rewrite Hrows, <- app_assoc; reflexivity|].
          split; [cbn [length]; lia|].
          intros l v Hin. apply elem_of_cons in Hin as [Heq|Hin].
          -- injection Heq as -> ->. split; [assumption|]. split; [assumption|].
             destruct (getInfoForKey_entry m key label value Hget Hlabel)
               as (group & entry & Hrest).
             exists key, group, entry. split; [apply list_elem_of_here|assumption].
          -- destruct (Hall l v Hin) as (? & ? & k & group & entry & Hk & Hrest).
             split; [assumption|]. split; [assumption|].
             exists k, group, entry. split; [now apply list_elem_of_further|assumption]. }
  destruct (Hloop []) as (rows & Hrows & Hlength & Hall).
  exists rows. split; [exact Hrows|]. split; [assumption|]. split; [assumption|].
  clear. induction keys as [|key keys IH]; [reflexivity|].
  cbn [fold_left mbind option_bind].
  destruct (getInfoForKey_constructed key) as [label ->].
  cbn [mbind option_bind String.eqb negb]. rewrite andb_false_r. exact IH.
Qed.

(** The panel for three preferred keys once the file item is known: the
    name is shown, the Exif key has no entry yet and the third key belongs
    to no group. *)
Lemma updateOneFileInfo_rows_witness :
  wellFormed sampleModel /\
  updateOneFileInfo ["General.Name"; "Exif.Image.Make"; "Comment"] sampleModel
    = Some [("Name", "a.png")] /\
  exists rows,
    updateOneFileInfo ["General.Name"; "Exif.Image.Make"; "Comment"] sampleModel = Some rows /\
    (length rows <= 3)%nat.
Proof.
  assert (Hwf : wellFormed sampleModel).
  { apply ImageMetaInfoModelFacts.wellFormed_shape. now eexists _, _, _, _, _, _, _. }
  split; [exact Hwf|]. split; [reflexivity|].
  destruct (updateOneFileInfo_rows ["General.Name"; "Exif.Image.Make"; "Comment"] sampleModel
              Hwf) as (rows & Hrows & Hlength & _).
  exists rows. split; [exact Hrows|exact Hlength].
Defined.

End InfoContextManagerItemFacts.
